(** * gnuSMV / YASMINE core: a shallow embedding of the encoder, the boolean
    compiler internals, the witness store, the witness evaluator and the
    backward reachability strategy, with the properties stated about them.

    Conventions used throughout:
    - [Expr_ptr] values are interned expression nodes; since the expression
      manager guarantees that structural equality and pointer equality
      coincide, a pointer is modelled by the expression tree itself;
    - a failed [assert], an out-of-range access, a store or a read through
      a pointer that was never initialised and an arithmetic trap are
      modelled by [None];
    - the integer type [value_t] is a parameter ([ValueModel]): operations
      on it are exact where the exact result is a value of the type, and
      are left to the parameter elsewhere;
    - [std::vector] stacks ([push_back]/[back]/[pop_back]) are lists whose
      HEAD is the top of the stack; vectors that are iterated in insertion
      order (DD vectors, descriptor buffers) are lists in insertion order;
    - [unordered_map] is stdpp's [gmap]; C++ [insert] keeps an existing
      binding, [operator[]=] overwrites it. *)

From Stdlib Require Import ZArith Lia.
From stdpp Require Import gmap list strings pretty.

Local Open Scope Z_scope.

(** ** Expressions (expr/expr.hh as used by the walkers) *)

(** Operator tags dispatched on by the walkers ([walk_<op>_preorder] ...). *)
Inductive ExprType : Type :=
  | NEXT | PREV | NEG | NOT
  | PLUS | SUB | DIV | MUL | MOD
  | AND | OR | XOR | XNOR | IMPLIES | IFF
  | LSHIFT | RSHIFT
  | EQ | NE | GT | GE | LT | LE
  | ITE | COND | DOT | PARAMS | SUBSCRIPT | COMMA.

Inductive Expr : Type :=
  | ICONST (value : Z)
  | IDENT (name : string)
  | Unary (symb : ExprType) (lhs : Expr)
  | Binary (symb : ExprType) (lhs rhs : Expr).

Abbreviation Expr_ptr := Expr.

(** [step_t] is a C [unsigned]: arithmetic wraps modulo [UINT_MAX + 1]. *)
Abbreviation step_t := Z.
Definition UINT_MAX : Z := 4294967295.
Definition wrap_step (z : Z) : step_t := z mod (UINT_MAX + 1).

(** ** The integer type [value_t] *)

(** The typedef of [value_t] is not part of the sources.  The operators that
    the evaluator applies to its values ([%], [<<], [&], [|], [^]) make it an
    integer type.  Its signedness and its width (the 8 bits of the narrowest
    integer type plus [value_extra_bits]) are parameters of the model, and so
    is what the compiled code leaves in a [value_t] where the exact result is
    not available:
    - [int_overflow op lhs rhs]: the outcome of the integer operator [op]
      ([+], [-], [<<], or the product of [res *= 0x10]) on [lhs] and [rhs]
      when its exact result is not a value of the type, or when the left
      operand or the count of a shift is out of range;
    - [double_inexact res d]: the outcome of [res += d] for a [double] [d]
      when the sum is not exact in double precision or is not a value of the
      type.
    Both may also trap ([None]). *)
Class ValueModel : Type := mkValueModel
  { value_signed : bool;
    value_extra_bits : nat;
    int_overflow : ExprType → Z → Z → option Z;
    double_inexact : Z → Z → option Z }.

Section ValueType.
Context `{VM : ValueModel}.

Definition value_bits : Z := 8 + Z.of_nat value_extra_bits.

Definition value_min : Z :=
  if value_signed then - 2 ^ (value_bits - 1) else 0.

Definition value_max : Z :=
  if value_signed then 2 ^ (value_bits - 1) - 1 else 2 ^ value_bits - 1.

(** [z] is a value of the type. *)
Definition representable (z : Z) : bool :=
  (value_min <=? z) && (z <=? value_max).

(** Integers up to [2 ^ 53] in absolute value are [double]s, and a sum of
    two of them that stays in this range is computed exactly. *)
Definition DOUBLE_EXACT : Z := 2 ^ 53.

End ValueType.

Definition ExprType_code (t : ExprType) : nat :=
  match t with
  | NEXT => 0 | PREV => 1 | NEG => 2 | NOT => 3
  | PLUS => 4 | SUB => 5 | DIV => 6 | MUL => 7 | MOD => 8
  | AND => 9 | OR => 10 | XOR => 11 | XNOR => 12 | IMPLIES => 13 | IFF => 14
  | LSHIFT => 15 | RSHIFT => 16
  | EQ => 17 | NE => 18 | GT => 19 | GE => 20 | LT => 21 | LE => 22
  | ITE => 23 | COND => 24 | DOT => 25 | PARAMS => 26 | SUBSCRIPT => 27
  | COMMA => 28
  end%nat.

Definition ExprType_of_code (n : nat) : option ExprType :=
  match n with
  | 0 => Some NEXT | 1 => Some PREV | 2 => Some NEG | 3 => Some NOT
  | 4 => Some PLUS | 5 => Some SUB | 6 => Some DIV | 7 => Some MUL
  | 8 => Some MOD | 9 => Some AND | 10 => Some OR | 11 => Some XOR
  | 12 => Some XNOR | 13 => Some IMPLIES | 14 => Some IFF
  | 15 => Some LSHIFT | 16 => Some RSHIFT
  | 17 => Some EQ | 18 => Some NE | 19 => Some GT | 20 => Some GE
  | 21 => Some LT | 22 => Some LE
  | 23 => Some ITE | 24 => Some COND | 25 => Some DOT | 26 => Some PARAMS
  | 27 => Some SUBSCRIPT | 28 => Some COMMA
  | _ => None
  end%nat.

#[global] Instance ExprType_eq_dec : EqDecision ExprType.
Proof. solve_decision. Defined.

#[global] Instance ExprType_countable : Countable ExprType.
Proof.
  apply (inj_countable ExprType_code ExprType_of_code). by intros [].
Defined.

#[global] Instance Expr_eq_dec : EqDecision Expr.
Proof. solve_decision. Defined.

Fixpoint Expr_to_tree (e : Expr) : gen_tree (Z + string) :=
  match e with
  | ICONST v => GenLeaf (inl v)
  | IDENT x => GenLeaf (inr x)
  | Unary s a => GenNode (ExprType_code s) [Expr_to_tree a]
  | Binary s a b => GenNode (ExprType_code s) [Expr_to_tree a; Expr_to_tree b]
  end.

Fixpoint Expr_of_tree (t : gen_tree (Z + string)) : option Expr :=
  match t with
  | GenLeaf (inl v) => Some (ICONST v)
  | GenLeaf (inr x) => Some (IDENT x)
  | GenNode n [a] =>
      s ← ExprType_of_code n; a' ← Expr_of_tree a; Some (Unary s a')
  | GenNode n [a; b] =>
      s ← ExprType_of_code n; a' ← Expr_of_tree a; b' ← Expr_of_tree b;
      Some (Binary s a' b')
  | GenNode _ _ => None
  end.

#[global] Instance Expr_countable : Countable Expr.
Proof.
  apply (inj_countable Expr_to_tree Expr_of_tree).
  intros e. induction e as [v|x|s a IHa|s a IHa b IHb]; simpl; try done.
  - rewrite IHa. by destruct s.
  - rewrite IHa, IHb. by destruct s.
Defined.

(** Fully-qualified timed expression: the universal key [(ctx, expr, step)]. *)
Abbreviation FQExpr := (Expr * Expr * Z)%type.

(** C++ [map.insert(make_pair(k, v))]: a binding that is already present is
    kept, the new one is dropped. *)
Definition map_insert_new `{Countable K} {V} (k : K) (v : V) (m : gmap K V)
  : gmap K V :=
  match m !! k with
  | Some _ => m
  | None => <[k := v]> m
  end.

(** ** The ADD package (external library; contract of the operations used) *)

Module DD.

(** ADD handles.  Only the operators that the modelled code applies are
    listed: [bit()], [constant(v)] ([zero()] and [one()] are the constants 0
    and 1), [Cmpl], [Times], [Plus], [Or], [Xnor], [BWTimes], [BWOr]. *)
Inductive ADD : Type :=
  | Constant (v : Z)
  | Bit (index : nat)
  | Cmpl (f : ADD)
  | Times (f g : ADD)
  | Plus (f g : ADD)
  | Or (f g : ADD)
  | Xnor (f g : ADD)
  | BWTimes (f g : ADD)
  | BWOr (f g : ADD).

#[global] Instance ADD_eq_dec : EqDecision ADD.
Proof. solve_decision. Defined.

Definition zero : ADD := Constant 0.
Definition one : ADD := Constant 1.

(** A DD vector is a [std::vector<ADD>], in insertion order. *)
Abbreviation DDVector := (list ADD).

(** [int *assignment]: the polarity of every DD variable. *)
Abbreviation assignment := (nat → Z).

(** [a.Eval(assignment)] followed by [Cudd_V]: the value of the terminal
    reached under the assignment.  [Cmpl] is the C-like complement (0 goes to
    1, everything else to 0); [Or] and [Xnor] are the terminal cases of the
    0-1 ADD operators; [BWTimes] and [BWOr] are bitwise and / or. *)
Fixpoint Eval (a : ADD) (A : assignment) : Z :=
  match a with
  | Constant v => v
  | Bit i => if A i =? 1 then 1 else 0
  | Cmpl f => if Eval f A =? 0 then 1 else 0
  | Times f g => Eval f A * Eval g A
  | Plus f g => Eval f A + Eval g A
  | Or f g =>
      if (Eval f A =? 1) || (Eval g A =? 1) then 1 else Eval g A
  | Xnor f g =>
      if Eval f A =? Eval g A then 1
      else if Eval f A =? 1 then Eval g A
      else if Eval g A =? 1 then Eval f A
      else 0
  | BWTimes f g => Z.land (Eval f A) (Eval g A)
  | BWOr f g => Z.lor (Eval f A) (Eval g A)
  end.

(** Two handles denote the same function. *)
Definition equiv_add (f g : ADD) : Prop := ∀ A, Eval f A = Eval g A.

End DD.

(** ** Types (type/type.hh) *)

Module Types.

Inductive Type_ : Type :=
  | BooleanType
  | IntConstType
  | FxdConstType
  | SignedAlgebraicType (width : nat)
  | UnsignedAlgebraicType (width : nat)
  | SignedFixedAlgebraicType (width fract : nat)
  | UnsignedFixedAlgebraicType (width fract : nat)
  | ArrayType (of_ : Type_) (size : nat)
  | EnumType (literals : list Expr_ptr)
  | Instance (identifier : Expr_ptr).

Abbreviation Type_ptr := Type_.

#[global] Instance Type_eq_dec : EqDecision Type_.
Proof. solve_decision. Defined.

(** Modelled from the spec: the classification predicates of the type
    manager, whose implementation is not part of the sources
    ([is_monolithic]: boolean or enum; [is_algebraic]: any signed or unsigned
    integer or fixed-point type). *)
Definition is_boolean (t : Type_) : bool :=
  match t with BooleanType => true | _ => false end.

Definition is_enumerative (t : Type_) : bool :=
  match t with EnumType _ => true | _ => false end.

Definition is_monolithic (t : Type_) : bool :=
  is_boolean t || is_enumerative t.

Definition is_algebraic (t : Type_) : bool :=
  match t with
  | SignedAlgebraicType _ | UnsignedAlgebraicType _
  | SignedFixedAlgebraicType _ _ | UnsignedFixedAlgebraicType _ _ => true
  | _ => false
  end.

Definition is_array (t : Type_) : bool :=
  match t with ArrayType _ _ => true | _ => false end.

(** Modelled from the spec: [Type::width()], the length of the DD vector that
    represents a value of the type (1 for monolithic types, the number of
    digits for algebraic ones, element width times size for arrays); the
    method is declared in a header that is not part of the sources. *)
Fixpoint width (t : Type_) : nat :=
  match t with
  | BooleanType | EnumType _ => 1
  | SignedAlgebraicType w | UnsignedAlgebraicType w
  | SignedFixedAlgebraicType w _ | UnsignedFixedAlgebraicType w _ => w
  | ArrayType of_ n => (n * width of_)%nat
  | IntConstType | FxdConstType | Instance _ => 0
  end.

End Types.

(** ** Encodings (enc/enc.cc) *)

Module Enc.
Import DD.

(** Modelled from the spec: the constant [NIBBLE_SIZE] (a digit is a nibble
    of 4 bits); its definition is in a header that is not part of the
    sources. *)
Definition NIBBLE_SIZE : nat := 4.

(** A value of [value_t] is modelled by the integer it stands for; what the
    type can hold is given by the [ValueModel]. *)
Abbreviation value_t := Z.

(** The members of the [Encoding] base class: [f_dv], the DD vector that
    stands for the encoded value, and [f_bits], every bit allocated for it.
    The DD manager hands out fresh variables; [next] is its next free index. *)
Record Encoding_base : Type := mkBase
  { f_dv : DDVector; f_bits : DDVector }.

Definition empty_base : Encoding_base := mkBase [] [].

(** [Encoding::make_bit]: a fresh bit, remembered in [f_bits]. *)
Definition make_bit (b : Encoding_base) (next : nat)
  : ADD * Encoding_base * nat :=
  let res := Bit next in
  (res, mkBase (f_dv b) (f_bits b ++ [res]), S next).

(** The [while (i < nbits)] loop of [make_monolithic_encoding]; [n] is the
    number of remaining iterations, [nbits - i]. *)
Fixpoint make_monolithic_loop (n : nat) (res : ADD) (b : Encoding_base)
  (next : nat) : ADD * Encoding_base * nat :=
  match n with
  | O => (res, b, next)
  | S n' =>
      let res := Times res (Constant 2) in
      let '(bit, b, next) := make_bit b next in
      let res := Plus res bit in
      make_monolithic_loop n' res b next
  end.

(** [Encoding::make_monolithic_encoding]: the first bit is allocated before
    [assert(0 < nbits)] is checked. *)
Definition make_monolithic_encoding (nbits : nat) (b : Encoding_base)
  (next : nat) : option (ADD * Encoding_base * nat) :=
  let '(res, b, next) := make_bit b next in
  if decide (0 < nbits)%nat
  then Some (make_monolithic_loop (nbits - 1) res b next)
  else None.

(** The encoding classes. *)
#[local] Unset Elimination Schemes.
Inductive Encoding : Type :=
  | BooleanEncoding_ (base : Encoding_base)
  | AlgebraicEncoding_ (base : Encoding_base)
      (f_width f_fract : nat) (f_signed f_temporary : bool)
  | EnumEncoding_ (base : Encoding_base)
      (f_v2e_map : gmap Z Expr_ptr) (f_e2v_map : gmap Expr_ptr Z)
  | ArrayEncoding_ (base : Encoding_base) (f_elements : list Encoding).

#[local] Set Elimination Schemes.

Definition base_of (e : Encoding) : Encoding_base :=
  match e with
  | BooleanEncoding_ b | AlgebraicEncoding_ b _ _ _ _
  | EnumEncoding_ b _ _ | ArrayEncoding_ b _ => b
  end.

(** [Encoding::dv()] and [Encoding::bits()] *)
Definition dv (e : Encoding) : DDVector := f_dv (base_of e).
Definition bits (e : Encoding) : DDVector := f_bits (base_of e).

(** [BooleanEncoding::BooleanEncoding]: [f_dv.push_back(make_bit())]. *)
Definition BooleanEncoding (next : nat) : Encoding * nat :=
  let '(bit, b, next) := make_bit empty_base next in
  (BooleanEncoding_ (mkBase (f_dv b ++ [bit]) (f_bits b)), next).

(** The two [for (i = 0; i < width; ++ i)] loops of the algebraic
    constructor; [n] is the number of remaining iterations and [i] the
    current index. *)
Fixpoint algebraic_wrap_loop (n i : nat) (dds : list ADD) (b : Encoding_base)
  : option Encoding_base :=
  match n with
  | O => Some b
  | S n' =>
      d ← dds !! i;
      algebraic_wrap_loop n' (S i) dds (mkBase (f_dv b ++ [d]) (f_bits b))
  end.

Fixpoint algebraic_fresh_loop (n : nat) (b : Encoding_base) (next : nat)
  : option (Encoding_base * nat) :=
  match n with
  | O => Some (b, next)
  | S n' =>
      '(digit, b, next) ← make_monolithic_encoding NIBBLE_SIZE b next;
      algebraic_fresh_loop n' (mkBase (f_dv b ++ [digit]) (f_bits b)) next
  end.

(** [AlgebraicEncoding::AlgebraicEncoding(width, fract, is_signed, dds)];
    [dds] is [None] for the null pointer.  Reading past the end of the [dds]
    array has no defined result ([None]). *)
Definition AlgebraicEncoding (width fract : nat) (is_signed : bool)
  (dds : option (list ADD)) (next : nat) : option (Encoding * nat) :=
  match dds with
  | Some dds =>
      b ← algebraic_wrap_loop width 0 dds empty_base;
      Some (AlgebraicEncoding_ b width fract is_signed true, next)
  | None =>
      '(b, next) ← algebraic_fresh_loop width empty_base next;
      Some (AlgebraicEncoding_ b width fract is_signed false, next)
  end.

(** [MonolithicEncoding::range_repr_bits]: the [while (range)] loop; [fuel]
    bounds the number of iterations (the value halves at each one). *)
Fixpoint range_repr_bits_loop (fuel : nat) (range : value_t) (res : nat)
  : option nat :=
  if range =? 0 then Some res
  else match fuel with
       | O => None
       | S fuel' => range_repr_bits_loop fuel' (range ÷ 2) (S res)
       end.

Definition range_repr_bits (range : value_t) : option nat :=
  if decide (0 < range)
  then range_repr_bits_loop (Z.to_nat range) range 0
  else None.

(** The [for (v = 0, eye = lits.begin(); ...)] loop of the enum constructor:
    [f_v2e_map[v] = *eye; f_e2v_map[*eye] = v]. *)
Fixpoint enum_maps_loop (lits : list Expr_ptr) (v : value_t)
  (v2e : gmap Z Expr_ptr) (e2v : gmap Expr_ptr Z)
  : gmap Z Expr_ptr * gmap Expr_ptr Z :=
  match lits with
  | [] => (v2e, e2v)
  | eye :: lits' =>
      enum_maps_loop lits' (v + 1) (<[v := eye]> v2e) (<[eye := v]> e2v)
  end.

(** [EnumEncoding::EnumEncoding(lits)]; [lits] is the literal set in its
    iteration order.  The ADD returned by [make_monolithic_encoding] is not
    stored: only its bits end up in [f_bits], and [f_dv] is left as it was. *)
Definition EnumEncoding (lits : list Expr_ptr) (next : nat)
  : option (Encoding * nat) :=
  nbits ← range_repr_bits (Z.of_nat (length lits));
  '(_, b, next) ← make_monolithic_encoding nbits empty_base next;
  let '(v2e, e2v) := enum_maps_loop lits 0 ∅ ∅ in
  Some (EnumEncoding_ b v2e e2v, next).

(** [ArrayEncoding::ArrayEncoding(elements)] *)
Definition ArrayEncoding (elements : list Encoding) : option Encoding :=
  if decide (0 < length elements)%nat
  then Some (ArrayEncoding_
               (mkBase (foldl (λ acc i, acc ++ dv i) [] elements) [])
               elements)
  else None.

Definition make_false : Expr_ptr := IDENT "FALSE".
Definition make_true : Expr_ptr := IDENT "TRUE".
Definition make_iconst (v : value_t) : Expr_ptr := ICONST v.

Section Expr.
Context `{VM : ValueModel}.

(** [res += Cudd_V(eval.getNode())]: the accumulator is converted to
    [double], the value of the terminal is added in double precision and the
    sum is converted back to [value_t].  The result is the exact sum when the
    accumulator and the sum are within [DOUBLE_EXACT] and the sum is a value
    of the type. *)
Definition add_double (res : value_t) (d : Z) : option value_t :=
  if (Z.abs res <=? DOUBLE_EXACT) && (Z.abs (res + d) <=? DOUBLE_EXACT)
     && representable (res + d)
  then Some (res + d)
  else double_inexact res d.

(** [res *= 0x10] *)
Definition times_0x10 (res : value_t) : option value_t :=
  if representable (res * 16) then Some (res * 16)
  else int_overflow MUL res 16.

(** The [do ... while (true)] loop of [AlgebraicEncoding::expr]; [fuel]
    bounds the number of iterations. *)
Fixpoint algebraic_expr_loop (fuel : nat) (dv : DDVector) (A : assignment)
  (f_width i : nat) (res : value_t) : option value_t :=
  match fuel with
  | O => None
  | S fuel' =>
      eval ← dv !! i;
      res ← add_double res (Eval eval A);
      if decide (S i < f_width)%nat
      then res ← times_0x10 res;
           algebraic_expr_loop fuel' dv A f_width (S i) res
      else Some res
  end.

(** [Encoding::expr(assignment)], one case per class.  [None] stands for a
    failed assertion or an access past the end of [f_dv]; for the enum
    class, a value without an entry in [f_v2e_map] yields the null pointer,
    also [None]. *)
Definition expr (e : Encoding) (A : assignment) : option Expr_ptr :=
  match e with
  | BooleanEncoding_ b =>
      eval ← f_dv b !! 0%nat;
      Some (if Eval eval A =? 0 then make_false else make_true)
  | AlgebraicEncoding_ b f_width _ _ _ =>
      res ← algebraic_expr_loop (S f_width) (f_dv b) A f_width 0 0;
      Some (make_iconst res)
  | EnumEncoding_ b f_v2e_map _ =>
      eval ← f_dv b !! 0%nat;
      f_v2e_map !! Eval eval A
  | ArrayEncoding_ _ _ => None
  end.

End Expr.

(** [BooleanEncoding::bit]: [assert( 1 == f_dv.size() ); return f_dv[0]]. *)
Definition bit (e : Encoding) : option ADD :=
  match e with
  | BooleanEncoding_ b =>
      if decide (1 = length (f_dv b))%nat then f_dv b !! 0%nat else None
  | _ => None
  end.

(** A [DDVector::const_iterator] into [f_bits] is modelled by its position
    ([begin()] is 0, [end()] is the size of the vector).  The iterator is
    stepped with [++ res] and never compared with [end()]: on a vector that
    holds fewer elements the position returned lies past its end. *)
Fixpoint advance (n pos : nat) : nat :=
  match n with
  | O => pos
  | S n' => advance n' (S pos)
  end.

(** [AlgebraicEncoding::bits_begin(k)]: [assert(k < f_width)], then the bits
    of the digits before [k] are skipped, starting from [f_bits.begin()]. *)
Definition bits_begin (e : Encoding) (k : nat) : option nat :=
  match e with
  | AlgebraicEncoding_ b f_width _ _ _ =>
      if decide (k < f_width)%nat
      then Some (advance (k * NIBBLE_SIZE) 0)
      else None
  | _ => None
  end.

(** [AlgebraicEncoding::bits_end(k)]: [assert(k < f_width)], then
    [NIBBLE_SIZE] more steps from [bits_begin(k)]. *)
Definition bits_end (e : Encoding) (k : nat) : option nat :=
  match e with
  | AlgebraicEncoding_ b f_width _ _ _ =>
      if decide (k < f_width)%nat
      then res ← bits_begin e k; Some (advance NIBBLE_SIZE res)
      else None
  | _ => None
  end.

End Enc.

(** ** Witness store (witness/witness.cc) *)

Module Witness.

(** [TimeFrame] owns one [FQExpr2ExprMap f_map]. *)
Record TimeFrame : Type := mkTimeFrame { f_map : gmap FQExpr Expr_ptr }.

(** [TimeFrame::TimeFrame()] *)
Definition new_TimeFrame : TimeFrame := mkTimeFrame ∅.

(** [TimeFrame::value]: [assert (f_map.end() != eye)] fails ([None]) when the
    key has no binding. *)
Definition value (tf : TimeFrame) (expr : FQExpr) : option Expr_ptr :=
  f_map tf !! expr.

(** [TimeFrame::has_value] *)
Definition has_value (tf : TimeFrame) (expr : FQExpr) : bool :=
  match f_map tf !! expr with
  | Some _ => true
  | None => false
  end.

(** [TimeFrame::set_value]: [f_map.insert(make_pair(fqexpr, value))]. *)
Definition set_value (tf : TimeFrame) (fqexpr : FQExpr) (v : Expr_ptr)
  : TimeFrame :=
  mkTimeFrame (map_insert_new fqexpr v (f_map tf)).

(** Any later run of [set_value] calls on the same frame. *)
Definition set_values (tf : TimeFrame) (ops : list (FQExpr * Expr_ptr))
  : TimeFrame :=
  foldl (λ acc op, set_value acc op.1 op.2) tf ops.

(** [Witness]: its name and the vector of frames. *)
Record Witness : Type := mkWitness
  { f_name : string; f_frames : list TimeFrame }.

Definition length (w : Witness) : nat := List.length (f_frames w).

(** [Witness::Witness(name)]: no frame yet. *)
Definition new_Witness (name : string) : Witness := mkWitness name [].

(** [Witness::new_frame]: a fresh frame is appended to [f_frames]. *)
Definition new_frame (w : Witness) : Witness :=
  mkWitness (f_name w) (f_frames w ++ [new_TimeFrame]).

(** Modelled from the spec: [Witness::has_value] and [Witness::value], which
    the evaluator calls and whose definitions are not part of the sources.  A
    witness is an ordered sequence of time frames numbered from 0, each one a
    map from keys to values: the frame is the one numbered by the step of the
    key. *)
Definition frame_of (w : Witness) (key : FQExpr) : option TimeFrame :=
  if decide (0 ≤ key.2) then f_frames w !! Z.to_nat key.2 else None.

Definition witness_has_value (w : Witness) (key : FQExpr) : bool :=
  match frame_of w key with
  | Some tf => has_value tf key
  | None => false
  end.

Definition witness_value (w : Witness) (key : FQExpr) : option Expr_ptr :=
  tf ← frame_of w key; value tf key.

End Witness.

(** ** Witness evaluator (expr/expr_eval.cc) *)

Module Evaluator.
Import Witness.

Abbreviation value_t := Z.

(** What the resolver returns for [(ctx, expr)]; only the two kinds that
    [walk_leaf] tells apart carry data. *)
Inductive ISymbol : Type :=
  | Variable_ 
  | Define (body : Expr_ptr)
  | OtherSymbol.

(** The state of the [Evaluator] object. *)
Record Evaluator : Type := mkEvaluator
  { f_expr_stack : list Expr_ptr;
    f_ctx_stack : list Expr_ptr;
    f_time_stack : list step_t;
    f_map : gmap FQExpr Expr_ptr;
    f_witness : Witness }.

Definition set_expr_stack (stk : list Expr_ptr) (ev : Evaluator) : Evaluator :=
  mkEvaluator stk (f_ctx_stack ev) (f_time_stack ev) (f_map ev) (f_witness ev).

Definition set_time_stack (stk : list step_t) (ev : Evaluator) : Evaluator :=
  mkEvaluator (f_expr_stack ev) (f_ctx_stack ev) stk (f_map ev) (f_witness ev).

(** [PUSH_EXPR] *)
Definition PUSH_EXPR (tp : Expr_ptr) (ev : Evaluator) : Evaluator :=
  set_expr_stack (tp :: f_expr_stack ev) ev.

(** Modelled from the spec: the macros [POP_VALUE] and [PUSH_VALUE], whose
    definitions are not part of the sources.  The evaluator computes literal
    values for operators: [POP_VALUE] takes the constant on top of the stack
    and reads its value, [PUSH_VALUE] pushes the constant of a value. *)
Definition POP_VALUE (ev : Evaluator) : option (value_t * Evaluator) :=
  match f_expr_stack ev with
  | ICONST v :: stk => Some (v, set_expr_stack stk ev)
  | _ => None
  end.

Definition PUSH_VALUE (res : value_t) (ev : Evaluator) : Evaluator :=
  PUSH_EXPR (ICONST res) ev.

(** [Evaluator::cache_miss] (declared inline in the class): on a hit the
    cached result is pushed. *)
Definition cache_miss (expr : Expr_ptr) (ev : Evaluator)
  : option (bool * Evaluator) :=
  ctx ← head (f_ctx_stack ev);
  step ← head (f_time_stack ev);
  match f_map ev !! (ctx, expr, step) with
  | Some res => Some (false, PUSH_EXPR res ev)
  | None => Some (true, ev)
  end.

Definition bool_value (b : bool) : value_t := if b then 1 else 0.

(** C [!x] *)
Definition lnot (x : value_t) : value_t := bool_value (x =? 0).

(** The body of a binary postorder hook: [POP_VALUE(rhs); POP_VALUE(lhs);
    value_t res = ...; PUSH_VALUE(res)].  The operator may trap (division and
    remainder by zero). *)
Definition binary_postorder (op : value_t → value_t → option value_t)
  (ev : Evaluator) : option Evaluator :=
  '(rhs, ev) ← POP_VALUE ev;
  '(lhs, ev) ← POP_VALUE ev;
  res ← op lhs rhs;
  Some (PUSH_VALUE res ev).

Definition c_div (lhs rhs : value_t) : option value_t :=
  if rhs =? 0 then None else Some (lhs ÷ rhs).

Definition c_mod (lhs rhs : value_t) : option value_t :=
  if rhs =? 0 then None else Some (Z.rem lhs rhs).

Section Arithmetic.
Context `{VM : ValueModel}.

(** [lhs + rhs] and [lhs - rhs]: the exact result when it is a value of the
    type. *)
Definition c_add (lhs rhs : value_t) : option value_t :=
  if representable (lhs + rhs) then Some (lhs + rhs)
  else int_overflow PLUS lhs rhs.

Definition c_sub (lhs rhs : value_t) : option value_t :=
  if representable (lhs - rhs) then Some (lhs - rhs)
  else int_overflow SUB lhs rhs.

(** [lhs << rhs]: [lhs] times [2 ^ rhs] when [lhs] is not negative, the
    count is not negative and below the width of the type, and the product
    is a value of the type. *)
Definition c_shl (lhs rhs : value_t) : option value_t :=
  if (0 <=? lhs) && (0 <=? rhs) && (rhs <? value_bits)
     && representable (lhs * 2 ^ rhs)
  then Some (Z.shiftl lhs rhs)
  else int_overflow LSHIFT lhs rhs.

Definition walk_add_postorder := binary_postorder (λ lhs rhs, c_add lhs rhs).
Definition walk_sub_postorder := binary_postorder (λ lhs rhs, c_sub lhs rhs).
Definition walk_div_postorder := binary_postorder (λ lhs rhs, c_div lhs rhs).
(** [walk_mul_postorder] computes [lhs / rhs]. *)
Definition walk_mul_postorder := binary_postorder (λ lhs rhs, c_div lhs rhs).
Definition walk_mod_postorder := binary_postorder (λ lhs rhs, c_mod lhs rhs).
Definition walk_and_postorder :=
  binary_postorder (λ lhs rhs, Some (Z.land lhs rhs)).
Definition walk_or_postorder :=
  binary_postorder (λ lhs rhs, Some (Z.lor lhs rhs)).
Definition walk_xor_postorder :=
  binary_postorder (λ lhs rhs, Some (Z.lxor lhs rhs)).
Definition walk_xnor_postorder :=
  binary_postorder (λ lhs rhs,
    Some (Z.land (Z.lor (lnot lhs) rhs) (Z.lor (lnot rhs) lhs))).
Definition walk_implies_postorder :=
  binary_postorder (λ lhs rhs, Some (Z.lor (lnot lhs) rhs)).
Definition walk_iff_postorder := walk_xnor_postorder.
Definition walk_lshift_postorder := binary_postorder (λ lhs rhs, c_shl lhs rhs).
(** [walk_rshift_postorder] computes [lhs << rhs]. *)
Definition walk_rshift_postorder := binary_postorder (λ lhs rhs, c_shl lhs rhs).
Definition walk_eq_postorder :=
  binary_postorder (λ lhs rhs, Some (bool_value (lhs =? rhs))).
Definition walk_ne_postorder :=
  binary_postorder (λ lhs rhs, Some (bool_value (negb (lhs =? rhs)))).
Definition walk_gt_postorder :=
  binary_postorder (λ lhs rhs, Some (bool_value (lhs >? rhs))).
Definition walk_ge_postorder :=
  binary_postorder (λ lhs rhs, Some (bool_value (lhs >=? rhs))).
Definition walk_lt_postorder :=
  binary_postorder (λ lhs rhs, Some (bool_value (lhs <? rhs))).
Definition walk_le_postorder :=
  binary_postorder (λ lhs rhs, Some (bool_value (lhs <=? rhs))).

End Arithmetic.

Definition walk_not_postorder (ev : Evaluator) : option Evaluator :=
  '(lhs, ev) ← POP_VALUE ev;
  Some (PUSH_VALUE (lnot lhs) ev).

Definition walk_ite_postorder (ev : Evaluator) : option Evaluator :=
  '(rhs, ev) ← POP_VALUE ev;
  '(lhs, ev) ← POP_VALUE ev;
  '(cnd, ev) ← POP_VALUE ev;
  Some (PUSH_VALUE (if cnd =? 0 then rhs else lhs) ev).

(** [walk_next_preorder] / [walk_prev_preorder] push the shifted time;
    their postorder hooks pop it ([pop_back] after [assert (0 < size)]). *)
Definition walk_next_preorder (ev : Evaluator) : option (bool * Evaluator) :=
  curr_time ← head (f_time_stack ev);
  Some (true, set_time_stack (wrap_step (curr_time + 1) :: f_time_stack ev) ev).

Definition walk_prev_preorder (ev : Evaluator) : option (bool * Evaluator) :=
  curr_time ← head (f_time_stack ev);
  Some (true, set_time_stack (wrap_step (curr_time - 1) :: f_time_stack ev) ev).

Definition walk_time_postorder (ev : Evaluator) : option Evaluator :=
  match f_time_stack ev with
  | _ :: stk => Some (set_time_stack stk ev)
  | [] => None
  end.

Section Walker.
Context `{VM : ValueModel}.

(** The model resolver ([ModelMgr::INSTANCE().resolver().symbol(ctx, expr)])
    and the two negation helpers [integer_neg] / [algebraic_neg] together
    with the predicates that choose between them are defined outside the
    sources: they are parameters of the walk. *)
Variable symbol : Expr_ptr → Expr_ptr → ISymbol.
Variable walk_neg_postorder : Expr_ptr → Evaluator → option Evaluator.

(** [walk_<op>_preorder]: time shifts for [next]/[prev], [cache_miss] for
    every other operator. *)
Definition walk_preorder (symb : ExprType) (expr : Expr_ptr) (ev : Evaluator)
  : option (bool * Evaluator) :=
  match symb with
  | NEXT => walk_next_preorder ev
  | PREV => walk_prev_preorder ev
  | _ => cache_miss expr ev
  end.

(** [walk_<op>_inorder]: always [true]. *)
Definition walk_inorder (symb : ExprType) (expr : Expr_ptr) (ev : Evaluator)
  : bool := true.

(** [walk_<op>_postorder], dispatched on the operator tag.  [params],
    [comma] and [subscript] stop at [assert (false)]; [cond] and [dot] do
    nothing. *)
Definition walk_postorder (symb : ExprType) (expr : Expr_ptr) (ev : Evaluator)
  : option Evaluator :=
  match symb with
  | NEXT | PREV => walk_time_postorder ev
  | NEG => walk_neg_postorder expr ev
  | NOT => walk_not_postorder ev
  | PLUS => walk_add_postorder ev
  | SUB => walk_sub_postorder ev
  | DIV => walk_div_postorder ev
  | MUL => walk_mul_postorder ev
  | MOD => walk_mod_postorder ev
  | AND => walk_and_postorder ev
  | OR => walk_or_postorder ev
  | XOR => walk_xor_postorder ev
  | XNOR => walk_xnor_postorder ev
  | IMPLIES => walk_implies_postorder ev
  | IFF => walk_iff_postorder ev
  | LSHIFT => walk_lshift_postorder ev
  | RSHIFT => walk_rshift_postorder ev
  | EQ => walk_eq_postorder ev
  | NE => walk_ne_postorder ev
  | GT => walk_gt_postorder ev
  | GE => walk_ge_postorder ev
  | LT => walk_lt_postorder ev
  | LE => walk_le_postorder ev
  | ITE => walk_ite_postorder ev
  | COND | DOT => Some ev
  | PARAMS | COMMA | SUBSCRIPT => None
  end.

(** [Evaluator::walk_leaf]; [self] is the re-entrant invocation of the walker
    on the body of a define. *)
Definition walk_leaf (self : Expr_ptr → Evaluator → option Evaluator)
  (expr : Expr_ptr) (ev : Evaluator) : option Evaluator :=
  match cache_miss expr ev with
  | None => None
  | Some (false, ev) => Some ev
  | Some (true, ev) =>
    ctx ← head (f_ctx_stack ev);
    time ← head (f_time_stack ev);
    match expr with
    | ICONST _ => Some (PUSH_EXPR expr ev)
    | _ =>
        match symbol ctx expr with
        | Variable_ =>
            let key : FQExpr := (ctx, expr, time) in
            if witness_has_value (f_witness ev) key
            then res ← witness_value (f_witness ev) key;
                 Some (PUSH_EXPR res ev)
            else None
        | Define body => self body ev
        | OtherSymbol => None
        end
    end
  end.

(** Modelled from the spec: the driver of the expression walker, which is
    not part of the sources.  It visits each node in the order preorder,
    (left operand), inorder (binary nodes only), (right operand), postorder;
    a preorder hook that answers [false] skips the node's subtree and its
    postorder hook.  [fuel] bounds the depth of the walk, which re-enters
    itself on the bodies of defines. *)
Fixpoint walk (fuel : nat) (expr : Expr_ptr) (ev : Evaluator)
  : option Evaluator :=
  match fuel with
  | O => None
  | S fuel' =>
      match expr with
      | ICONST _ | IDENT _ => walk_leaf (walk fuel') expr ev
      | Unary symb lhs =>
          match walk_preorder symb expr ev with
          | None => None
          | Some (false, ev) => Some ev
          | Some (true, ev) =>
              ev ← walk fuel' lhs ev; walk_postorder symb expr ev
          end
      | Binary symb lhs rhs =>
          match walk_preorder symb expr ev with
          | None => None
          | Some (false, ev) => Some ev
          | Some (true, ev) =>
              ev ← walk fuel' lhs ev;
              ev ← (if walk_inorder symb expr ev
                    then walk fuel' rhs ev else Some ev);
              walk_postorder symb expr ev
          end
      end
  end.

(** [Evaluator::process]: the stacks and the cache are cleared, the context
    and the time are pushed, the body is walked, and the three sanity
    conditions are asserted before the single result is returned. *)
Definition process (fuel : nat) (witness : Witness) (ctx body : Expr_ptr)
  (time : step_t) : option Expr_ptr :=
  let ev := mkEvaluator [] [ctx] [time] ∅ witness in
  ev ← walk fuel body ev;
  match f_expr_stack ev, f_ctx_stack ev, f_time_stack ev with
  | [res], [_], [_] => Some res
  | _, _, _ => None
  end.

End Walker.

End Evaluator.

(** ** The first boolean compiler (model/compiler.cc): bitwise operators *)

Module BECompiler.
Import DD Types.

(** The working stacks of the [BECompiler] object. *)
Record BECompiler : Type := mkBECompiler
  { f_add_stack : list ADD;
    f_type_stack : list Type_ptr;
    f_ctx_stack : list Expr_ptr;
    f_time_stack : list step_t }.

Definition set_add_stack (stk : list ADD) (c : BECompiler) : BECompiler :=
  mkBECompiler stk (f_type_stack c) (f_ctx_stack c) (f_time_stack c).

(** Modelled from the spec: the dispatch predicates of the expression
    manager, which are not part of the sources; the operators in each class
    are the ones listed in the comments of [compiler.cc]. *)
Definition is_binary_logical (expr : Expr_ptr) : bool :=
  match expr with
  | Binary (AND | OR | XOR | XNOR | IFF | IMPLIES) _ _ => true
  | _ => false
  end.

Definition is_binary_arithmetical (expr : Expr_ptr) : bool :=
  match expr with
  | Binary (PLUS | SUB | DIV | MUL | MOD) _ _ => true
  | _ => false
  end.

Definition is_binary_relational (expr : Expr_ptr) : bool :=
  match expr with
  | Binary (EQ | NE | GT | GE | LT | LE) _ _ => true
  | _ => false
  end.

Section Compile.

(** The type checker ([f_owner.type(FQExpr(ctx, e))]) and the word width of
    the encoding manager ([f_enc.width()]) are defined outside the sources. *)
Variable owner_type : Expr_ptr → Expr_ptr → Type_ptr.
Variable enc_width : nat.

(** The shared shape of [is_binary_boolean], [is_binary_monolithic] and
    [is_binary_algebraic]: an operator test, then the same type test on both
    operands in the current context. *)
Definition both_operands (test : Type_ptr → bool) (expr : Expr_ptr)
  (c : BECompiler) : option bool :=
  match expr with
  | Binary _ lhs rhs =>
      ctx ← head (f_ctx_stack c);
      Some (test (owner_type ctx lhs) && test (owner_type ctx rhs))
  | _ => Some false
  end.

Definition is_binary_boolean (expr : Expr_ptr) (c : BECompiler) : option bool :=
  if is_binary_logical expr then both_operands is_boolean expr c
  else Some false.

Definition is_binary_monolithic (expr : Expr_ptr) (c : BECompiler)
  : option bool :=
  if is_binary_logical expr || is_binary_arithmetical expr
     || is_binary_relational expr
  then both_operands is_monolithic expr c
  else Some false.

Definition is_binary_algebraic (expr : Expr_ptr) (c : BECompiler)
  : option bool :=
  if is_binary_logical expr || is_binary_arithmetical expr
     || is_binary_relational expr
  then both_operands is_algebraic expr c
  else Some false.

(** [const ADD rhs = back(); pop_back(); const ADD lhs = back(); pop_back();
    push_back(op lhs rhs)] *)
Definition monolithic_binop (op : ADD → ADD → ADD) (c : BECompiler)
  : option BECompiler :=
  match f_add_stack c with
  | rhs :: lhs :: stk => Some (set_add_stack (op lhs rhs :: stk) c)
  | _ => None
  end.

(** The local arrays of the algebraic branches, [ADD* rhs[width]] and
    [ADD* lhs[width]], hold [width] pointers to ADDs, and none of these
    pointers is ever initialised.  The loops store and read THROUGH the
    pointers, starting with the one at index [width], which already lies
    past the end of the array: a store through such a pointer crashes, and
    neither the store nor the read has a defined result. *)
Definition store_through (i : nat) (v : ADD) : option unit := None.
Definition read_through (i : nat) : option ADD := None.

(** [for (i = width; (i); -- i) { store of back() through arr[i];
    pop_back(); }] *)
Fixpoint pop_digits (i : nat) (stk : list ADD) : option (list ADD) :=
  match i with
  | O => Some stk
  | S i' =>
      match stk with
      | top :: stk' => _ ← store_through i top; pop_digits i' stk'
      | [] => None
      end
  end.

(** [for (i = width; (i); -- i) { ADD tmp = op(lhs[i], rhs[i]) read through
    the pointers; push_back(tmp); }] *)
Fixpoint push_digits (op : ADD → ADD → ADD) (i : nat) (stk : list ADD)
  : option (list ADD) :=
  match i with
  | O => Some stk
  | S i' =>
      l ← read_through i; r ← read_through i;
      push_digits op i' (op l r :: stk)
  end.

Definition algebraic_binop (op : ADD → ADD → ADD) (c : BECompiler)
  : option BECompiler :=
  let width := enc_width in
  stk ← pop_digits width (f_add_stack c);
  stk ← pop_digits width stk;
  stk ← push_digits op width stk;
  Some (set_add_stack stk c).

(** [BECompiler::walk_and_postorder]; the final [else] is [assert(0)]. *)
Definition walk_and_postorder (expr : Expr_ptr) (c : BECompiler)
  : option BECompiler :=
  b ← is_binary_boolean expr c;
  if b : bool then monolithic_binop Times c
  else
    m ← is_binary_monolithic expr c;
    if m : bool then monolithic_binop BWTimes c
    else
      a ← is_binary_algebraic expr c;
      if a : bool then algebraic_binop BWTimes c
      else None.

(** [BECompiler::walk_or_postorder]: the algebraic branch applies
    [BWTimes] to the digits; there is no final [else]. *)
Definition walk_or_postorder (expr : Expr_ptr) (c : BECompiler)
  : option BECompiler :=
  b ← is_binary_boolean expr c;
  if b : bool then monolithic_binop Or c
  else
    m ← is_binary_monolithic expr c;
    if m : bool then monolithic_binop BWOr c
    else
      a ← is_binary_algebraic expr c;
      if a : bool then algebraic_binop BWTimes c
      else Some c.

End Compile.

End BECompiler.

(** ** Compiler internals (model/compiler/internals.cc, micro.hh) *)

Module Compiler.
Import DD Types.

(** [OpTriple]: [<is_signed, op, width>]. *)
Abbreviation OpTriple := (bool * ExprType * Z)%type.

Definition make_op_triple (is_signed : bool) (exprType : ExprType) (width : Z)
  : OpTriple := (is_signed, exprType, width).

Record MicroDescriptor : Type := mkMicroDescriptor
  { md_triple : OpTriple; md_z : DDVector; md_x : DDVector; md_y : DDVector }.

Record MuxDescriptor : Type := mkMuxDescriptor
  { mux_width : nat; mux_z : DDVector; cnd : ADD; aux : ADD;
    mux_x : DDVector; mux_y : DDVector }.

Abbreviation MicroDescriptors := (list MicroDescriptor).
Abbreviation MuxDescriptors := (list MuxDescriptor).
Abbreviation MuxMap := (gmap Expr_ptr (list MuxDescriptor)).

(** A memoization entry. *)
Record CompilationUnit : Type := mkCompilationUnit
  { dds : DDVector;
    micro_descriptors : MicroDescriptors;
    mux_map : MuxMap }.

(** The working state of the [Compiler] object. *)
Record Compiler : Type := mkCompiler
  { f_add_stack : list ADD;
    f_type_stack : list Type_ptr;
    f_ctx_stack : list Expr_ptr;
    f_time_stack : list step_t;
    f_micro_descriptors : MicroDescriptors;
    f_mux_map : MuxMap;
    f_cache : gmap FQExpr CompilationUnit;
    f_preprocess : bool }.

Definition set_add_stack (stk : list ADD) (c : Compiler) : Compiler :=
  mkCompiler stk (f_type_stack c) (f_ctx_stack c) (f_time_stack c)
    (f_micro_descriptors c) (f_mux_map c) (f_cache c) (f_preprocess c).

Definition set_type_stack (stk : list Type_ptr) (c : Compiler) : Compiler :=
  mkCompiler (f_add_stack c) stk (f_ctx_stack c) (f_time_stack c)
    (f_micro_descriptors c) (f_mux_map c) (f_cache c) (f_preprocess c).

Definition set_micro_descriptors (mds : MicroDescriptors) (c : Compiler)
  : Compiler :=
  mkCompiler (f_add_stack c) (f_type_stack c) (f_ctx_stack c) (f_time_stack c)
    mds (f_mux_map c) (f_cache c) (f_preprocess c).

Definition set_mux_map (m : MuxMap) (c : Compiler) : Compiler :=
  mkCompiler (f_add_stack c) (f_type_stack c) (f_ctx_stack c) (f_time_stack c)
    (f_micro_descriptors c) m (f_cache c) (f_preprocess c).

Definition set_cache (m : gmap FQExpr CompilationUnit) (c : Compiler)
  : Compiler :=
  mkCompiler (f_add_stack c) (f_type_stack c) (f_ctx_stack c) (f_time_stack c)
    (f_micro_descriptors c) (f_mux_map c) m (f_preprocess c).

(** The loop that pushes a DD vector on the ADD stack through its reverse
    iterator, from [rbegin] to [rend]: the last DD is pushed first. *)
Definition push_reversed (dds : DDVector) (stk : list ADD) : list ADD :=
  foldl (λ stk d, d :: stk) stk (reverse dds).

(** [Compiler::push_dds]; [enc_dv] is [enc->dv()]. *)
Definition push_dds (enc_dv : DDVector) (type : Type_ptr) (c : Compiler)
  : option Compiler :=
  let width := length enc_dv in
  if decide (0 < width)%nat then
    let c := set_type_stack (type :: f_type_stack c) c in
    if is_monolithic type then
      d ← enc_dv !! 0%nat; Some (set_add_stack (d :: f_add_stack c) c)
    else if is_algebraic type then
      if decide (Types.width type = width)
      then Some (set_add_stack (push_reversed enc_dv (f_add_stack c)) c)
      else None
    else
      match type with
      | ArrayType of_ nelems =>
          if is_algebraic of_ && negb (nelems =? 0)%nat
             && (Types.width of_ =? width / nelems)%nat
          then Some (set_add_stack (push_reversed enc_dv (f_add_stack c)) c)
          else None
      | _ => None
      end
  else None.

(** [Compiler::register_microdescriptor], unary and binary. *)
Definition register_microdescriptor1 (signedness : bool) (symb : ExprType)
  (width : Z) (z x : DDVector) (c : Compiler) : Compiler :=
  let md := mkMicroDescriptor (make_op_triple signedness symb width) z x [] in
  set_micro_descriptors (f_micro_descriptors c ++ [md]) c.

Definition register_microdescriptor (signedness : bool) (symb : ExprType)
  (width : Z) (z x y : DDVector) (c : Compiler) : Compiler :=
  let md := mkMicroDescriptor (make_op_triple signedness symb width) z x y in
  set_micro_descriptors (f_micro_descriptors c ++ [md]) c.

(** [Compiler::register_muxdescriptor]: the entry for [toplevel] is created
    when missing, then the descriptor is appended to it. *)
Definition register_muxdescriptor (toplevel : Expr_ptr) (width : nat)
  (z : DDVector) (cnd aux : ADD) (x y : DDVector) (c : Compiler) : Compiler :=
  let m := map_insert_new toplevel [] (f_mux_map c) in
  let md := mkMuxDescriptor width z cnd aux x y in
  set_mux_map (alter (λ descriptors, descriptors ++ [md]) toplevel m) c.

(** Modelled from the spec: the macro [PUSH_DD], whose definition is not
    part of the sources; the conjuncts are pushed on the ADD stack as
    additional toplevel conjuncts. *)
Definition PUSH_DD (dd : ADD) (stk : list ADD) : list ADD := dd :: stk.

(** The inner loop of [post_process_muxes]: the descriptors of one toplevel
    are visited from the last one to the first one ([rbegin] to [rend]);
    [prev] starts at [zero()] and is overwritten with [act]. *)
Definition mux_activation_step (acc : ADD * list ADD) (j : MuxDescriptor)
  : ADD * list ADD :=
  let '(prev, stk) := acc in
  let act := Times (Cmpl prev) (cnd j) in
  (act, PUSH_DD (Xnor act (aux j)) stk).

Definition mux_activation (descriptors : MuxDescriptors) (stk : list ADD)
  : list ADD :=
  (foldl mux_activation_step (zero, stk) (reverse descriptors)).2.

(** [Compiler::post_process_muxes]: the outer loop runs over the map in its
    iteration order. *)
Definition post_process_muxes (c : Compiler) : Compiler :=
  set_add_stack
    (foldl (λ stk entry, mux_activation entry.2 stk)
       (f_add_stack c) (map_to_list (f_mux_map c)))
    c.

Section Hooks.

(** The type checker ([f_owner.type(expr, ctx)]) and the expression manager
    predicate [is_type] are defined outside the sources. *)
Variable owner_type : Expr_ptr → Expr_ptr → Type_ptr.
Variable is_type : Expr_ptr → bool.

(** [Compiler::post_node_hook]: nothing is cached while preprocessing or for
    type expressions; otherwise the top [width] DDs (top first), the whole
    descriptor buffer and the whole mux map are stored under the key, unless
    the key already has an entry. *)
Definition post_node_hook (expr : Expr_ptr) (c : Compiler) : option Compiler :=
  if f_preprocess c then Some c
  else if is_type expr then Some c
  else
    ctx ← head (f_ctx_stack c);
    time ← head (f_time_stack c);
    let key : FQExpr := (ctx, expr, time) in
    type ← head (f_type_stack c);
    let width := Types.width type in
    if decide (width ≤ length (f_add_stack c))%nat then
      let dv := take width (f_add_stack c) in
      Some (set_cache
              (map_insert_new key
                 (mkCompilationUnit dv (f_micro_descriptors c) (f_mux_map c))
                 (f_cache c))
              c)
    else None.

(** The loop over the cached mux map, from [begin] to [end], that calls
    [f_mux_map.insert] on every entry. *)
Definition insert_muxes (muxes current : MuxMap) : MuxMap :=
  foldl (λ m entry, map_insert_new entry.1 entry.2 m)
    current (map_to_list muxes).

(** [Compiler::cache_miss]: [true] on a miss; on a hit the cached unit is
    replayed on the working state and [false] is returned. *)
Definition cache_miss (expr : Expr_ptr) (c : Compiler)
  : option (bool * Compiler) :=
  ctx ← head (f_ctx_stack c);
  time ← head (f_time_stack c);
  let key : FQExpr := (ctx, expr, time) in
  match f_cache c !! key with
  | Some unit =>
      let type := owner_type expr ctx in
      let c := set_add_stack (push_reversed (dds unit) (f_add_stack c)) c in
      let c := set_micro_descriptors
                 (f_micro_descriptors c ++ micro_descriptors unit) c in
      let c := set_mux_map (insert_muxes (mux_map unit) (f_mux_map c)) c in
      let c := set_type_stack (type :: f_type_stack c) c in
      Some (false, c)
  | None => Some (true, c)
  end.

End Hooks.

(** What a caller of the compiler can observe of the working state: the two
    result stacks and the two side tables. *)
Definition observable (c : Compiler)
  : list ADD * list Type_ptr * MicroDescriptors * MuxMap :=
  (f_add_stack c, f_type_stack c, f_micro_descriptors c, f_mux_map c).

(** [Compiler::pre_node_hook]: the two assertions on the stacks; the key is
    only logged. *)
Definition pre_node_hook (expr : Expr_ptr) (c : Compiler) : option Compiler :=
  ctx ← head (f_ctx_stack c);
  time ← head (f_time_stack c);
  Some c.

(** [Compiler::clear_internals]: the working stacks and the two side tables
    are emptied ([f_toplevel_map], which none of the functions above reads,
    is not part of the state here); the memoization cache and the
    preprocessing flag are not touched. *)
Definition clear_internals (c : Compiler) : Compiler :=
  mkCompiler [] [] [] [] [] ∅ (f_cache c) (f_preprocess c).

(** The members that the generators of automatic names and variables
    update: the compiler's counter [f_temp_auto_index] (its declaration is
    not part of the sources; it is taken to be an [unsigned], like [step_t]),
    the next free variable of the DD manager, and the calls of
    [f_enc.register_encoding] in the order in which they are made. *)
Record AutoState : Type := mkAutoState
  { f_temp_auto_index : Z;
    enc_next : nat;
    enc_registered : list (FQExpr * Enc.Encoding) }.

(** [Compiler::make_auto_id]: the identifier [__tmp<n>], where [n] is the
    decimal numeral of the counter, which is then incremented. *)
Definition make_auto_id (index : Z) : Expr_ptr * Z :=
  (IDENT ("__tmp" +:+ pretty index), wrap_step (index + 1)).

(** [Compiler::make_auto_dd].  Modelled from the spec:
    [f_enc.make_encoding(boolean)], which is not part of the sources, builds
    the encoding of the type, here a [BooleanEncoding]. *)
Definition make_auto_dd (c : Compiler) (s : AutoState)
  : option (ADD * AutoState) :=
  let '(be, next) := Enc.BooleanEncoding (enc_next s) in
  let '(aid, index) := make_auto_id (f_temp_auto_index s) in
  ctx ← head (f_ctx_stack c);
  time ← head (f_time_stack c);
  let key : FQExpr := (ctx, aid, time) in
  let s := mkAutoState index next (enc_registered s ++ [(key, be)]) in
  d ← Enc.bits be !! 0%nat;
  Some (d, s).

(** The loop of [make_auto_ddvect]; [n] is the number of remaining
    iterations. *)
Fixpoint make_auto_ddvect_loop (n : nat) (c : Compiler) (dv : DDVector)
  (s : AutoState) : option (DDVector * AutoState) :=
  match n with
  | O => Some (dv, s)
  | S n' =>
      '(d, s) ← make_auto_dd c s;
      make_auto_ddvect_loop n' c (dv ++ [d]) s
  end.

(** [Compiler::make_auto_ddvect]: [assert(0 == dv.size())], then [width]
    fresh variables are appended to [dv]. *)
Definition make_auto_ddvect (dv : DDVector) (width : nat) (c : Compiler)
  (s : AutoState) : option (DDVector * AutoState) :=
  if decide (0 = length dv)%nat then make_auto_ddvect_loop width c dv s
  else None.

End Compiler.

(** ** Backward reachability strategy (bmc/backward.cc) *)

Module Reachability.
Import Compiler.

(** The answers of [Engine::solve]. *)
Inductive status_t : Type := STATUS_SAT | STATUS_UNSAT | STATUS_UNKNOWN.

Inductive reachability_status_t : Type :=
  | REACHABILITY_UNKNOWN
  | REACHABILITY_REACHABLE
  | REACHABILITY_UNREACHABLE
  | REACHABILITY_ERROR.

#[global] Instance reachability_status_eq_dec : EqDecision reachability_status_t.
Proof. solve_decision. Defined.

Abbreviation group_t := nat.
Definition MAINGROUP : group_t := 0%nat.

(** The requests that the strategy sends to its SAT engine, in the order in
    which it sends them. *)
Inductive EngineOp : Type :=
  | assert_formula (time : step_t) (cu : CompilationUnit) (group : group_t)
  | assert_fsm_init (time : step_t) (group : group_t)
  | assert_fsm_invar (time : step_t) (group : group_t)
  | assert_fsm_trans (time : step_t) (group : group_t)
  | assert_fsm_uniqueness (j k : step_t)
  | new_group (group : group_t)
  | invert_last_group
  | solve.

(** The engine as the strategy sees it: its name, the requests received so
    far (oldest first) and the number of groups handed out. *)
Record Engine : Type := mkEngine
  { engine_name : string; requests : list EngineOp; groups : nat }.

Definition send (op : EngineOp) (e : Engine) : Engine :=
  mkEngine (engine_name e) (requests e ++ [op]) (groups e).

Definition send_all (ops : list EngineOp) (e : Engine) : Engine :=
  foldl (λ e op, send op e) e ops.

(** [engine.new_group()]: a fresh group. *)
Definition engine_new_group (e : Engine) : group_t * Engine :=
  let g := S (groups e) in
  (g, mkEngine (engine_name e) (requests e ++ [new_group g]) g).

(** The witness built on [STATUS_SAT]:
    [ReachabilityCounterExample(f_target, model(), engine, k, reversed)],
    with the identifier [reach_<n>] given to it. *)
Record WitnessRecord : Type := mkWitnessRecord
  { w_target : Expr_ptr; w_k : step_t; w_reversed : bool;
    w_id_prefix : string; w_id_index : nat }.

Definition reach_trace_prfx : string := "reach_".

(** The fields of the [Reachability] algorithm object that the strategy
    reads and writes, the witness manager's counter and registry, and a flag
    for [EngineMgr::interrupt]. *)
Record Reachability : Type := mkReachability
  { f_target : Expr_ptr;
    f_target_cu : CompilationUnit;
    f_positive_time_constraints : list CompilationUnit;
    f_negative_time_constraints : list CompilationUnit;
    f_globally_time_constraints : list CompilationUnit;
    f_status : reachability_status_t;
    f_witness : option WitnessRecord;
    wm_autoincrement : nat;
    wm_recorded : list WitnessRecord;
    wm_current : option WitnessRecord;
    interrupted : bool }.

Definition set_status (s : reachability_status_t) (r : Reachability)
  : Reachability :=
  mkReachability (f_target r) (f_target_cu r) (f_positive_time_constraints r)
    (f_negative_time_constraints r) (f_globally_time_constraints r)
    s (f_witness r) (wm_autoincrement r) (wm_recorded r) (wm_current r)
    (interrupted r).

(** [sync_status()] *)
Definition sync_status (r : Reachability) : reachability_status_t := f_status r.

(** Modelled from the spec: [sync_set_status], which is not part of the
    sources.  It sets the shared status only if the current one is still
    unknown, and returns whether this strategy won. *)
Definition sync_set_status (s : reachability_status_t) (r : Reachability)
  : bool * Reachability :=
  if decide (f_status r = REACHABILITY_UNKNOWN)
  then (true, set_status s r)
  else (false, r).

(** The block that extracts and registers the witness ([wm.autoincrement],
    [wm.record], [wm.set_current], [set_witness]). *)
Definition register_witness (k : step_t) (r : Reachability) : Reachability :=
  let w := mkWitnessRecord (f_target r) k true
             reach_trace_prfx (wm_autoincrement r) in
  mkReachability (f_target r) (f_target_cu r) (f_positive_time_constraints r)
    (f_negative_time_constraints r) (f_globally_time_constraints r)
    (f_status r) (Some w) (S (wm_autoincrement r)) (wm_recorded r ++ [w])
    (Some w) (interrupted r).

(** The [cleanup] label: [EngineMgr::INSTANCE().interrupt()]. *)
Definition cleanup (r : Reachability) : Reachability :=
  mkReachability (f_target r) (f_target_cu r) (f_positive_time_constraints r)
    (f_negative_time_constraints r) (f_globally_time_constraints r)
    (f_status r) (f_witness r) (wm_autoincrement r) (wm_recorded r)
    (wm_current r) true.

(** [std::for_each] over a list of compilation units, asserting each at
    [time] in the main group. *)
Definition assert_all (time : step_t) (cus : list CompilationUnit)
  : list EngineOp :=
  map (λ cu, assert_formula time cu MAINGROUP) cus.

(** The requests sent before the first [solve]: the goal state
    constraints at [UINT_MAX]. *)
Definition goal_requests (r : Reachability) : list EngineOp :=
  [assert_formula UINT_MAX (f_target_cu r) MAINGROUP;
   assert_fsm_invar UINT_MAX MAINGROUP]
  ++ assert_all UINT_MAX (f_negative_time_constraints r)
  ++ assert_all UINT_MAX (f_globally_time_constraints r).

(** The requests of the unrolling step, for the already incremented [k]:
    [TRANS] and [INVAR] at [UINT_MAX - k], the global constraints there, and
    the uniqueness constraints of the loop [for (j = 0; j < k; ++ j)]. *)
Definition unroll_requests (k : step_t) (r : Reachability) : list EngineOp :=
  [assert_fsm_trans (wrap_step (UINT_MAX - k)) MAINGROUP;
   assert_fsm_invar (wrap_step (UINT_MAX - k)) MAINGROUP]
  ++ assert_all (wrap_step (UINT_MAX - k)) (f_globally_time_constraints r)
  ++ map (λ j, assert_fsm_uniqueness (wrap_step (UINT_MAX - j))
                                      (wrap_step (UINT_MAX - k)))
         (seqZ 0 k).

Section Strategy.

(** The SAT solver: its answer to a [solve] request is a function of the
    requests the engine has received. *)
Variable solver : list EngineOp → status_t.

(** [engine.solve()] *)
Definition engine_solve (e : Engine) : status_t * Engine :=
  let e := send solve e in (solver (requests e), e).

(** One pass through the body of the [do ... while] loop, entered with the
    counter [k].  The result is the state at the end of the pass, and
    [Some k'] when the pass reaches the loop test with the counter [k'],
    [None] when it jumps to [cleanup]. *)
Definition backward_iteration (k : step_t) (r : Reachability) (e : Engine)
  : Reachability * Engine * option step_t :=
  let '(g, e) := engine_new_group e in
  let e := send (assert_fsm_init (wrap_step (UINT_MAX - k)) g) e in
  let '(status, e) := engine_solve e in
  match status with
  | STATUS_UNKNOWN => (r, e, None)
  | STATUS_SAT =>
      let '(won, r) := sync_set_status REACHABILITY_REACHABLE r in
      if won then (register_witness k r, e, None) else (r, e, Some k)
  | STATUS_UNSAT =>
      let e := send invert_last_group e in
      let k := wrap_step (k + 1) in
      let e := send_all (unroll_requests k r) e in
      if decide (sync_status r ≠ REACHABILITY_UNKNOWN) then (r, e, None)
      else
        let '(status, e) := engine_solve e in
        match status with
        | STATUS_UNKNOWN => (r, e, None)
        | STATUS_SAT => (r, e, Some k)
        | STATUS_UNSAT =>
            ((sync_set_status REACHABILITY_UNREACHABLE r).2, e, None)
        end
  end.

(** The [do ... while (sync_status() == REACHABILITY_UNKNOWN)] loop; [fuel]
    bounds the number of passes. *)
Fixpoint backward_loop (fuel : nat) (k : step_t) (r : Reachability)
  (e : Engine) : option (Reachability * Engine) :=
  match fuel with
  | O => None
  | S fuel' =>
      let '(r, e, next) := backward_iteration k r e in
      match next with
      | None => Some (cleanup r, e)
      | Some k' =>
          if decide (sync_status r = REACHABILITY_UNKNOWN)
          then backward_loop fuel' k' r e
          else Some (cleanup r, e)
      end
  end.

(** [Reachability::backward_strategy] *)
Definition backward_strategy (fuel : nat) (r : Reachability)
  : option (Reachability * Engine) :=
  match f_positive_time_constraints r with
  | _ :: _ => None
  | [] =>
      let e := mkEngine "backward" [] 0 in
      let k : step_t := 0 in
      let e := send_all (goal_requests r) e in
      let '(status, e) := engine_solve e in
      match status with
      | STATUS_UNKNOWN => Some (cleanup r, e)
      | STATUS_UNSAT =>
          Some (cleanup (sync_set_status REACHABILITY_UNREACHABLE r).2, e)
      | STATUS_SAT => backward_loop fuel k r e
      end
  end.

End Strategy.

End Reachability.

(** ** Initial states consistency check (algorithms/fsm/init.cc) *)

Module CheckInit.
Import Compiler Reachability.

Inductive fsm_consistency_t : Type :=
  | FSM_CONSISTENCY_UNDECIDED
  | FSM_CONSISTENCY_OK
  | FSM_CONSISTENCY_KO.

(** The members of the algorithm object that [process] reads and writes. *)
Record CheckInitConsistency : Type := mkCheckInitConsistency
  { f_constraint_cus : list CompilationUnit;
    f_status : fsm_consistency_t }.

(** [CheckInitConsistency::CheckInitConsistency] *)
Definition new_CheckInitConsistency : CheckInitConsistency :=
  mkCheckInitConsistency [] FSM_CONSISTENCY_UNDECIDED.

Section Process.

(** The compiler ([compiler().process(ctx, constraint)], which may fail and
    which keeps a state of its own), the empty context of the expression
    manager ([em().make_empty()]) and the SAT solver are defined outside the
    sources. *)
Variable CompilerState : Type.
Variable compiler_process :
  Expr_ptr → Expr_ptr → CompilerState → option (CompilationUnit * CompilerState).
Variable make_empty : Expr_ptr.
Variable solver : list EngineOp → status_t.

(** The loop over the constraints: each one is compiled in the empty
    context and its unit is appended to [f_constraint_cus]. *)
Fixpoint compile_constraints (constraints : list Expr_ptr) (ctx : Expr_ptr)
  (cus : list CompilationUnit) (cs : CompilerState)
  : option (list CompilationUnit * CompilerState) :=
  match constraints with
  | [] => Some (cus, cs)
  | constraint :: constraints' =>
      '(unit, cs) ← compiler_process ctx constraint cs;
      compile_constraints constraints' ctx (cus ++ [unit]) cs
  end.

(** [CheckInitConsistency::process] *)
Definition process (constraints : list Expr_ptr) (a : CheckInitConsistency)
  (cs : CompilerState)
  : option (CheckInitConsistency * Engine * CompilerState) :=
  let engine := mkEngine "Initial" [] 0 in
  let ctx := make_empty in
  '(cus, cs) ← compile_constraints constraints ctx (f_constraint_cus a) cs;
  let engine := send (assert_fsm_init 0 MAINGROUP) engine in
  let engine := send (assert_fsm_invar 0 MAINGROUP) engine in
  let engine := send_all (assert_all 0 cus) engine in
  let '(status, engine) := engine_solve solver engine in
  let f_status :=
    match status with
    | STATUS_UNKNOWN => FSM_CONSISTENCY_UNDECIDED
    | STATUS_UNSAT => FSM_CONSISTENCY_KO
    | STATUS_SAT => FSM_CONSISTENCY_OK
    end in
  Some (mkCheckInitConsistency cus f_status, engine, cs).

End Process.

End CheckInit.

(** ** The [reach] command (cmd/commands/reach.cc) *)

Module ReachCommand.
Import Reachability.

(** What is written on the output stream, one item per [<<]. *)
Inductive Token : Type :=
  | Text (s : string)
  | endl.

(** The members of the command object. *)
Record Reach : Type := mkReach
  { f_out : list Token;
    f_target : option Expr_ptr;
    f_forward_constraints : list Expr_ptr;
    f_backward_constraints : list Expr_ptr;
    f_global_constraints : list Expr_ptr }.

(** [Reach::Reach]: no target ([NULL]), no constraints. *)
Definition new_Reach : Reach := mkReach [] None [] [] [].

Definition out (tokens : list Token) (r : Reach) : Reach :=
  mkReach (f_out r ++ tokens) (f_target r) (f_forward_constraints r)
    (f_backward_constraints r) (f_global_constraints r).

(** [Reach::set_target]; a null target is [None]. *)
Definition set_target (target : option Expr_ptr) (r : Reach) : Reach :=
  mkReach (f_out r) target (f_forward_constraints r)
    (f_backward_constraints r) (f_global_constraints r).

Definition add_forward_constraint (constraint : Expr_ptr) (r : Reach) : Reach :=
  mkReach (f_out r) (f_target r) (f_forward_constraints r ++ [constraint])
    (f_backward_constraints r) (f_global_constraints r).

Definition add_backward_constraint (constraint : Expr_ptr) (r : Reach) : Reach :=
  mkReach (f_out r) (f_target r) (f_forward_constraints r)
    (f_backward_constraints r ++ [constraint]) (f_global_constraints r).

Definition add_global_constraint (constraint : Expr_ptr) (r : Reach) : Reach :=
  mkReach (f_out r) (f_target r) (f_forward_constraints r)
    (f_backward_constraints r) (f_global_constraints r ++ [constraint]).

Section Run.

(** Defined outside the sources: the message constants and prefixes, the
    number of modules of the loaded model ([model.modules().size()]), the
    [quiet] option, and the reachability algorithm, which answers with its
    status and, when it has one, with the identifier and the size of its
    witness. *)
Variable okMessage errMessage wrnPrefix outPrefix : string.
Variable modules_size : nat.
Variable quiet : bool.
Variable bmc_process :
  Expr_ptr → list Expr_ptr → list Expr_ptr → list Expr_ptr
  → reachability_status_t * option (string * nat).

(** [Reach::check_requirements] *)
Definition check_requirements (r : Reach) : bool * Reach :=
  match f_target r with
  | None => (false, out [Text wrnPrefix; Text "No target given. Aborting..."; endl] r)
  | Some _ =>
      if (modules_size =? 0)%nat
      then (false, out [Text wrnPrefix; Text "Model not loaded."; endl] r)
      else (true, r)
  end.

(** [Reach::operator()]: the returned [Variant] is modelled by the message
    that it wraps. *)
Definition run (r : Reach) : string * Reach :=
  let '(ok, r) := check_requirements r in
  if negb ok then (errMessage, r)
  else
    match f_target r with
    | None => (errMessage, r)
    | Some target =>
        let '(status, witness) :=
          bmc_process target (f_forward_constraints r)
            (f_backward_constraints r) (f_global_constraints r) in
        match status with
        | REACHABILITY_REACHABLE =>
            let r := if negb quiet then out [Text outPrefix] r else r in
            let r := out [Text "Target is reachable"] r in
            let r :=
              match witness with
              | Some (id, size) =>
                  out [Text ", registered witness `"; Text id; Text "`, ";
                       Text (pretty size); Text " steps."; endl] r
              | None => r
              end in
            (okMessage, r)
        | REACHABILITY_UNREACHABLE =>
            let r := if negb quiet then out [Text wrnPrefix] r else r in
            (errMessage, out [Text "Target is unreachable."; endl] r)
        | REACHABILITY_UNKNOWN =>
            (errMessage, out [Text "Reachability could not be decided."; endl] r)
        | REACHABILITY_ERROR =>
            (errMessage, out [Text "Unexpected error."; endl] r)
        end
    end.

End Run.

End ReachCommand.

(** * Stated properties and sample inputs *)

(** A 64-bit signed [value_t], on a build that traps where the exact result
    of an operation is not available. *)
Definition sample_value_model : ValueModel :=
  mkValueModel true 56 (λ _ _ _, None) (λ _ _, None).

Section EncodingStatements.
Import DD Enc.
Context `{VM : ValueModel}.

(** The value that a list of evaluated digits stands for when digit [i] has
    weight [16 ^ exponent i]: the sum over [i] of [d_i * 16 ^ exponent i]. *)
Definition weighted_sum (ds : list Z) (exponent : nat → nat) : Z :=
  foldr Z.add 0 (imap (λ i d, d * 16 ^ Z.of_nat (exponent i)) ds).

(** Digit 0 least significant (little-endian): weight [16 ^ i]. *)
Definition little_endian_value (ds : list Z) : Z :=
  weighted_sum ds (λ i, i).

(** Digit 0 most significant (big-endian): weight [16 ^ (W - 1 - i)]. *)
Definition big_endian_value (ds : list Z) : Z :=
  weighted_sum ds (λ i, (length ds - 1 - i)%nat).

(** The per-digit evaluations of a DD vector. *)
Definition digit_values (dv : DDVector) (A : assignment) : list Z :=
  (λ d, Eval d A) <$> dv.

(** Horner's scheme, the shape in which the loop of [expr] accumulates. *)
Definition horner (acc : Z) (ds : list Z) : Z :=
  foldl (λ a d, a * 16 + d) acc ds.

(** C6 as stated: [expr] returns the little-endian value of the evaluated
    digits, for every encoding the constructor builds. *)
Definition expr_is_little_endian : Prop :=
  ∀ width fract sgn dds next enc next' A,
    AlgebraicEncoding width fract sgn dds next = Some (enc, next') →
    expr enc A = Some (ICONST (little_endian_value (digit_values (dv enc) A))).

(** C7 as stated, for a literal set [lits] (in iteration order) and the next
    free DD variable [next]: the constructor succeeds with a DD vector of
    length 1 built from [ceil(log2(n))] bits, the two maps are mutual
    inverses over [0..n-1] in iteration order, and [expr] returns the literal
    mapped to the evaluated value. *)
Definition enum_encoding_claim (lits : list Expr_ptr) (next : nat) : Prop :=
  ∃ b v2e e2v next' monolith,
    EnumEncoding lits next = Some (EnumEncoding_ b v2e e2v, next')
    ∧ f_dv b = [monolith]
    ∧ Z.of_nat (length (f_bits b)) = Z.log2_up (Z.of_nat (length lits))
    ∧ (∀ v e, v2e !! v = Some e ↔ e2v !! e = Some v)
    ∧ (∀ i, v2e !! Z.of_nat i = lits !! i)
    ∧ (∀ A, expr (EnumEncoding_ b v2e e2v) A = v2e !! Eval monolith A).

(** A literal set with four literals. *)
Definition four_literals : list Expr_ptr :=
  [IDENT "A"; IDENT "B"; IDENT "C"; IDENT "D"].

End EncodingStatements.

Section BitValues.
Import DD Enc.

(** The number that a list of binary digits stands for, most significant
    digit first, continuing from the accumulator [acc]. *)
Definition binary_value (acc : Z) (bs : list Z) : Z :=
  foldl (λ a b, a * 2 + b) acc bs.

(** The values, under an assignment, of the [n] DD variables that the manager
    hands out from the index [next] on. *)
Definition bit_values (A : assignment) (next n : nat) : list Z :=
  (λ i, Eval (Bit i) A) <$> seq next n.

(** The assignment that gives the variables [next, next + 1, ...] the binary
    digits [bs], and 0 to every other variable. *)
Definition assignment_of_bits (next : nat) (bs : list Z) : assignment :=
  λ i, if decide (next ≤ i)%nat then default 0 (bs !! (i - next)%nat) else 0.

End BitValues.

(** The variable [x] of [main] at step 0. *)
Definition sample_key : FQExpr := (IDENT "main", IDENT "x", 0).

Section CompilerStatements.
Import DD Types Compiler.

(** The conjuncts pushed for one toplevel, in the order in which they are
    pushed, when the descriptors are visited in the order [l] starting from
    [prev]. *)
Fixpoint activation_clauses (prev : ADD) (l : list MuxDescriptor) : list ADD :=
  match l with
  | [] => []
  | j :: l' =>
      let act := Times (Cmpl prev) (cnd j) in
      Xnor act (aux j) :: activation_clauses act l'
  end.

(** The conjuncts that C2 states, for the descriptors [d0, d1, ...] in
    insertion order: [Xnor(NOT(prev_k) AND d_k.cnd, d_k.aux)] with
    [prev_0 = 0] and [prev_{k+1} = prev_k OR d_k.cnd]. *)
Fixpoint claimed_clauses (prev : ADD) (ds : list MuxDescriptor) : list ADD :=
  match ds with
  | [] => []
  | d :: ds' =>
      Xnor (Times (Cmpl prev) (cnd d)) (aux d)
      :: claimed_clauses (Or prev (cnd d)) ds'
  end.

(** C2 as stated, for one toplevel: the pass pushes one conjunct per
    descriptor, visiting the descriptors in reverse insertion order (so the
    conjunct of [d0] ends on top), and the conjunct pushed for [d_k] is the
    stated one (as an ADD, that is, up to the function it denotes). *)
Definition mux_claim (ds : list MuxDescriptor) : Prop :=
  Forall2 equiv_add (mux_activation ds []) (claimed_clauses zero ds).

(** Two descriptors registered, in this order, for one toplevel; the
    conditions are the bits 0 and 2, the activation bits 1 and 3. *)
Definition two_muxes : list MuxDescriptor :=
  [mkMuxDescriptor 1 [Bit 10] (Bit 0) (Bit 1) [Bit 11] [Bit 12];
   mkMuxDescriptor 1 [Bit 13] (Bit 2) (Bit 3) [Bit 14] [Bit 15]].

Definition sample_toplevel : Expr_ptr := IDENT "t".

(** A compiler state whose mux map holds the two descriptors. *)
Definition mux_compiler : Compiler :=
  mkCompiler [] [] [IDENT "main"] [0] [] {[ sample_toplevel := two_muxes ]}
    ∅ false.

(** C1 as stated, for a compiler state [c] in which the key of [expr] is
    cached and for the cold compilation [cold] of [expr]: replaying the hit
    and compiling from cold, both from [c], leave the same ADD stack, type
    stack, microcode buffer and mux map. *)
Definition cache_hit_equals_cold (owner_type : Expr_ptr → Expr_ptr → Type_ptr)
  (cold : Compiler → option Compiler) (expr : Expr_ptr) (c : Compiler)
  : Prop :=
  ∀ c_hit c_cold,
    cache_miss owner_type expr c = Some (false, c_hit) →
    cold c = Some c_cold →
    observable c_hit = observable c_cold.

(** A boolean variable leaf [c], compiled from cold by [push_dds] on its
    encoding, in a state whose microcode buffer already holds the descriptor
    of an addition registered for an earlier subexpression. *)
Definition leaf_c : Expr_ptr := IDENT "c".

Definition cold_leaf_c (c : Compiler) : option Compiler :=
  push_dds [Bit 0] BooleanType c.

Definition state_before_leaf : Compiler :=
  register_microdescriptor false PLUS 1
    [Bit 7] [Bit 5] [Bit 6]
    (mkCompiler [] [] [IDENT "main"] [0] [] ∅ ∅ false).

Definition state_after_leaf : option Compiler :=
  c ← cold_leaf_c state_before_leaf;
  post_node_hook (λ _, false) leaf_c c.

(** The same run, step by step: after [push_dds], and after the hook. *)
Definition state_cold_leaf : Compiler :=
  mkCompiler [Bit 0] [BooleanType] [IDENT "main"] [0]
    (f_micro_descriptors state_before_leaf) ∅ ∅ false.

Definition state_cached_leaf : Compiler :=
  set_cache
    {[ (IDENT "main", leaf_c, 0) :=
         mkCompilationUnit [Bit 0]
           (f_micro_descriptors state_before_leaf) ∅ ]}
    state_cold_leaf.

End CompilerStatements.

Section InternalsStatements.
Import DD Types Compiler.

(** The [k]-th call of [register_encoding] made by a run of
    [make_auto_ddvect] that starts with the counter [index] and the free
    variable [next], in the context [ctx] at time [time]: the key carries the
    [k]-th automatic name, the encoding owns the [k]-th fresh variable. *)
Definition auto_registration (ctx : Expr_ptr) (time : step_t) (index : Z)
  (next k : nat) : FQExpr * Enc.Encoding :=
  ((ctx, IDENT ("__tmp" +:+ pretty (wrap_step (index + Z.of_nat k))), time),
   (Enc.BooleanEncoding (next + k)).1).

(** A compiler at work in [main] at time 0, with nothing compiled yet. *)
Definition sample_compiler : Compiler :=
  mkCompiler [] [] [IDENT "main"] [0] [] ∅ ∅ false.

(** Two digits of a word variable [w], as its encoding lists them. *)
Definition sample_digits : DDVector := [Bit 0; Bit 1].

Definition sample_word : Expr_ptr := IDENT "w".

(** The temporary encoding of a word of two digits. *)
Definition sample_element (next : nat) : Enc.Encoding :=
  Enc.AlgebraicEncoding_ (Enc.mkBase [Bit next; Bit (S next)] []) 2 0 false
    true.

(** The state after [push_dds] of the two digits, and the one after the
    hook has memoized them. *)
Definition sample_pushed : Compiler :=
  mkCompiler sample_digits [UnsignedAlgebraicType 2] [IDENT "main"] [0]
    [] ∅ ∅ false.

Definition sample_memoized : Compiler :=
  set_cache {[ (IDENT "main", sample_word, 0)
               := mkCompilationUnit sample_digits [] ∅ ]} sample_pushed.

End InternalsStatements.

Section EvaluatorStatements.
Import Witness Evaluator.
Context `{VM : ValueModel}.

(** What an evaluation reads but must hand back as it got it: the context
    stack, the time stack, the cache and the witness. *)
Definition environment (ev : Evaluator)
  : list Expr_ptr * list step_t * gmap FQExpr Expr_ptr * Witness :=
  (f_ctx_stack ev, f_time_stack ev, f_map ev, f_witness ev).

(** The binary operators whose hook applies the C operator of the same
    name; [*] and [>>] are not among them. *)
Definition is_constant_binop (symb : ExprType) : bool :=
  match symb with
  | PLUS | SUB | DIV | MOD | AND | OR | XOR | XNOR | IFF | IMPLIES | LSHIFT
  | EQ | NE | GT | GE | LT | LE => true
  | _ => false
  end.

(** The value of such an operator on two values of [value_t]: the C
    operator, with [+], [-] and [<<] as [c_add], [c_sub] and [c_shl] give
    them (exact where the result is a value of the type), and no value for a
    division or a remainder by 0. *)
Definition constant_binop (symb : ExprType) (l r : Z) : option Z :=
  match symb with
  | PLUS => c_add l r
  | SUB => c_sub l r
  | DIV => if r =? 0 then None else Some (l ÷ r)
  | MOD => if r =? 0 then None else Some (Z.rem l r)
  | AND => Some (Z.land l r)
  | OR => Some (Z.lor l r)
  | XOR => Some (Z.lxor l r)
  | XNOR | IFF => Some (Z.land (Z.lor (lnot l) r) (Z.lor (lnot r) l))
  | IMPLIES => Some (Z.lor (lnot l) r)
  | LSHIFT => c_shl l r
  | EQ => Some (bool_value (l =? r))
  | NE => Some (bool_value (negb (l =? r)))
  | GT => Some (bool_value (l >? r))
  | GE => Some (bool_value (l >=? r))
  | LT => Some (bool_value (l <? r))
  | LE => Some (bool_value (l <=? r))
  | _ => None
  end.

(** The value of a constant expression: numeric literals combined by the
    operators above, by logical negation, by [cond ? a : b] (the node
    [ITE (COND cond a) b]) and by [next] / [prev], which do not change the
    value of a constant.  Identifiers, arithmetic negation, [*] and [>>],
    and the structural operators have no value here. *)
Fixpoint constant_value (e : Expr_ptr) : option Z :=
  match e with
  | ICONST v => Some v
  | IDENT _ => None
  | Unary NOT a => v ← constant_value a; Some (lnot v)
  | Unary (NEXT | PREV) a => constant_value a
  | Unary _ _ => None
  | Binary ITE (Binary COND c a) b =>
      cv ← constant_value c; av ← constant_value a; bv ← constant_value b;
      Some (if cv =? 0 then bv else av)
  | Binary symb a b =>
      l ← constant_value a; r ← constant_value b; constant_binop symb l r
  end.

(** The constant expressions: the expressions that [constant_value] reads,
    whether they have a value or not. *)
Fixpoint is_constant (e : Expr_ptr) : bool :=
  match e with
  | ICONST _ => true
  | IDENT _ => false
  | Unary (NOT | NEXT | PREV) a => is_constant a
  | Unary _ _ => false
  | Binary ITE (Binary COND c a) b =>
      is_constant c && is_constant a && is_constant b
  | Binary symb a b =>
      is_constant_binop symb && is_constant a && is_constant b
  end.

(** The height of an expression tree. *)
Fixpoint depth (e : Expr_ptr) : nat :=
  match e with
  | ICONST _ | IDENT _ => 0
  | Unary _ a => S (depth a)
  | Binary _ a b => S (depth a `max` depth b)
  end.

(** A witness of two frames in which the variable [x] of [main] is 1 at
    step 0 and 2 at step 1. *)
Definition sample_witness : Witness :=
  mkWitness "w"
    [set_value new_TimeFrame (IDENT "main", IDENT "x", 0) (ICONST 1);
     set_value new_TimeFrame (IDENT "main", IDENT "x", 1) (ICONST 2)].


End EvaluatorStatements.

Section BackwardStatements.
Import DD Compiler Reachability.

(** The unrolling requests for an incremented counter [k] in range, with
    the unsigned subtractions carried out. *)
Definition unroll_requests_at (k : step_t) (r : Reachability)
  : list EngineOp :=
  [assert_fsm_trans (UINT_MAX - k) MAINGROUP;
   assert_fsm_invar (UINT_MAX - k) MAINGROUP]
  ++ assert_all (UINT_MAX - k) (f_globally_time_constraints r)
  ++ map (λ j, assert_fsm_uniqueness (UINT_MAX - j) (UINT_MAX - k))
         (seqZ 0 k).

(** The requests of the witness check of iteration [k], in a fresh group
    [g]: [INIT] at [UINT_MAX - k], then [solve]. *)
Definition witness_check (k : step_t) (g : group_t) : list EngineOp :=
  [new_group g; assert_fsm_init (UINT_MAX - k) g; solve].

(** The requests that follow an unsatisfiable witness check: the last group
    is inverted, and the frame [UINT_MAX - (k + 1)] is unrolled and made
    different from every frame visited before. *)
Definition unrolling (k : step_t) (r : Reachability) : list EngineOp :=
  invert_last_group :: unroll_requests_at (k + 1) r.

(** A model with no extra constraints and a boolean target. *)
Definition sample_unit : CompilationUnit :=
  mkCompilationUnit [Bit 0] [] ∅.

Definition sample_reachability : Reachability :=
  mkReachability (IDENT "x") sample_unit [] [] []
    REACHABILITY_UNKNOWN None 0 [] None false.

(** A solver that answers SAT to the goal consistency check (the third
    request) and UNSAT to every later [solve]. *)
Definition sample_solver (requests : list EngineOp) : status_t :=
  if (length requests =? 3)%nat then STATUS_SAT else STATUS_UNSAT.

End BackwardStatements.

(** * Properties *)

(** C++ [insert] on a map, seen through lookups. *)
Lemma lookup_map_insert_new `{Countable K} {V} (k k' : K) (v : V) (m : gmap K V) :
  map_insert_new k v m !! k' =
  match m !! k' with
  | Some w => Some w
  | None => if decide (k = k') then Some v else None
  end.
Proof.
  unfold map_insert_new. destruct (m !! k) as [w|] eqn:Hk.
  - destruct (m !! k') as [w'|] eqn:Hk'; [done|].
    case_decide; [congruence|done].
  - rewrite lookup_insert. case_decide; subst.
    + by rewrite Hk.
    + by destruct (m !! k').
Qed.

(** ** Encodings *)

Section EncodingProps.
Import DD Enc.
Context `{VM : ValueModel}.

(** Zero and the positive numbers up to [value_max] are values of the
    type, whatever its signedness. *)
Lemma representable_nonneg z : 0 ≤ z ≤ value_max → representable z = true.
Proof.
  intros Hz. unfold representable.
  assert (value_min ≤ 0).
  { unfold value_min. destruct value_signed; [|done].
    assert (0 < 2 ^ (value_bits - 1)); [|lia].
    apply Z.pow_pos_nonneg; unfold value_bits; lia. }
  apply andb_true_intro. split; apply Z.leb_le; lia.
Qed.

(** Every integer type holds the numbers 0 to 127. *)
Lemma value_max_ge_127 : 127 ≤ value_max.
Proof.
  assert (H7 : 2 ^ 7 ≤ 2 ^ (value_bits - 1))
    by (apply Z.pow_le_mono_r; unfold value_bits; lia).
  assert (H8 : 2 ^ 7 ≤ 2 ^ value_bits)
    by (apply Z.pow_le_mono_r; unfold value_bits; lia).
  change (2 ^ 7) with 128 in H7, H8.
  unfold value_max. destruct value_signed; lia.
Qed.

Lemma horner_acc ds : ∀ acc,
  horner acc ds = acc * 16 ^ Z.of_nat (length ds) + horner 0 ds.
Proof.
  induction ds as [|d ds IH]; intros acc; simpl.
  - unfold horner; simpl. lia.
  - unfold horner in *; simpl. rewrite (IH (acc * 16 + d)), (IH (0 * 16 + d)).
    rewrite Nat2Z.inj_succ, Z.pow_succ_r by lia. lia.
Qed.

Lemma weighted_sum_cons d ds exponent :
  weighted_sum (d :: ds) exponent =
  d * 16 ^ Z.of_nat (exponent 0%nat) + weighted_sum ds (exponent ∘ S).
Proof. reflexivity. Qed.

Lemma weighted_sum_ext ds : ∀ f g,
  (∀ i, (i < length ds)%nat → f i = g i) →
  weighted_sum ds f = weighted_sum ds g.
Proof.
  induction ds as [|d ds IH]; intros f g Hfg; [done|].
  rewrite !weighted_sum_cons. rewrite (Hfg 0%nat) by (simpl; lia).
  f_equal. apply IH. intros i Hi. simpl. apply Hfg. simpl. lia.
Qed.

Lemma horner_big_endian ds : horner 0 ds = big_endian_value ds.
Proof.
  induction ds as [|d ds IH]; [done|].
  unfold big_endian_value. rewrite weighted_sum_cons.
  change (horner 0 (d :: ds)) with (horner (0 * 16 + d) ds).
  rewrite horner_acc, IH. simpl length.
  replace (S (length ds) - 1 - 0)%nat with (length ds) by lia.
  unfold big_endian_value. rewrite Z.mul_0_l, Z.add_0_l. f_equal.
  apply weighted_sum_ext. intros i Hi. simpl. lia.
Qed.

(** Where [res += d] and [res *= 0x10] are exact. *)
Lemma add_double_exact res d :
  0 ≤ res → 0 ≤ d → res + d ≤ DOUBLE_EXACT → res + d ≤ value_max →
  add_double res d = Some (res + d).
Proof.
  intros Hres Hd Hdbl Hmax. unfold add_double.
  rewrite representable_nonneg by lia.
  rewrite !(proj2 (Z.leb_le _ _)) by lia. done.
Qed.

Lemma times_0x10_exact res :
  0 ≤ res → res * 16 ≤ value_max → times_0x10 res = Some (res * 16).
Proof.
  intros Hres Hmax. unfold times_0x10.
  by rewrite representable_nonneg by lia.
Qed.

(** The loop of [AlgebraicEncoding::expr] from index [i] with accumulator
    [res], on digits that evaluate to nibbles and a width whose numbers are
    exact: enough fuel gives Horner's value of the remaining digits. *)
Lemma algebraic_expr_loop_horner dv A W :
  Forall (λ d, 0 ≤ Eval d A < 16) dv →
  16 ^ Z.of_nat W ≤ DOUBLE_EXACT → 16 ^ Z.of_nat W - 1 ≤ value_max →
  ∀ n i fuel res,
  W = length dv → (i + S n = W)%nat → (n < fuel)%nat →
  0 ≤ res ≤ 16 ^ Z.of_nat (S i) - 16 →
  algebraic_expr_loop fuel dv A W i res =
  Some (res * 16 ^ Z.of_nat n + horner 0 (drop i (digit_values dv A))).
Proof.
  intros Hnib Hdbl Hmax.
  assert (Hmono : ∀ j, (j ≤ W)%nat → 16 ^ Z.of_nat j ≤ 16 ^ Z.of_nat W)
    by (intros j Hj; apply Z.pow_le_mono_r; lia).
  induction n as [|n IH]; intros i fuel res HW Hi Hfuel Hres;
    (destruct fuel as [|fuel]; [lia|]); cbn [algebraic_expr_loop];
    (destruct (dv !! i) as [d|] eqn:Hd; [|apply lookup_ge_None in Hd; lia]);
    cbn [mbind option_bind];
    pose proof (Forall_lookup_1 _ _ _ _ Hnib Hd) as Hdig; cbn beta in Hdig;
    pose proof (Hmono (S i) ltac:(lia)) as HSi;
    rewrite add_double_exact by lia; cbn [mbind option_bind].
  - rewrite decide_False by lia.
    unfold digit_values. rewrite <- fmap_drop.
    rewrite (drop_S _ _ _ Hd). rewrite drop_ge by lia.
    unfold horner; simpl. f_equal. lia.
  - rewrite decide_True by lia.
    pose proof (Hmono (S (S i)) ltac:(lia)) as HSSi.
    rewrite (Nat2Z.inj_succ (S i)), Z.pow_succ_r in HSSi by lia.
    rewrite times_0x10_exact by lia. cbn [mbind option_bind].
    rewrite (IH (S i) fuel _ HW)
      by (try lia; rewrite (Nat2Z.inj_succ (S i)), Z.pow_succ_r by lia; lia).
    unfold digit_values. rewrite <- !fmap_drop.
    rewrite (drop_S _ _ i Hd). rewrite fmap_cons.
    change (horner 0 (Eval d A :: ?l)) with (horner (0 * 16 + Eval d A) l).
    rewrite (horner_acc _ (0 * 16 + Eval d A)).
    rewrite length_fmap, length_drop.
    replace (length dv - S i)%nat with (S n) by lia.
    rewrite Nat2Z.inj_succ, Z.pow_succ_r by lia. f_equal. lia.
Qed.

Lemma algebraic_wrap_loop_spec dds : ∀ n i b b',
  algebraic_wrap_loop n i dds b = Some b' →
  length (f_dv b') = (length (f_dv b) + n)%nat ∧ f_bits b' = f_bits b.
Proof.
  induction n as [|n IH]; intros i b b' H; simpl in H.
  - injection H as <-. split; [lia|done].
  - destruct (dds !! i) as [d|]; [|done]. simpl in H.
    apply IH in H as [H1 H2]. simpl in *. rewrite length_app in H1.
    simpl in H1. split; [lia|done].
Qed.

Lemma make_monolithic_loop_bits n : ∀ res b next,
  let '(_, b', _) := make_monolithic_loop n res b next in
  length (f_bits b') = (length (f_bits b) + n)%nat ∧ f_dv b' = f_dv b.
Proof.
  induction n as [|n IH]; intros res b next; simpl.
  - split; [lia|done].
  - specialize (IH (Plus (Times res (Constant 2)) (Bit next))
                  (mkBase (f_dv b) (f_bits b ++ [Bit next])) (S next)).
    destruct (make_monolithic_loop n _ _ _) as [[r' b'] next'].
    destruct IH as [H1 H2]. simpl in *. rewrite length_app in H1.
    simpl in H1. split; [lia|done].
Qed.

Lemma make_monolithic_encoding_bits nbits b next :
  (0 < nbits)%nat →
  ∃ res b' next', make_monolithic_encoding nbits b next = Some (res, b', next')
    ∧ length (f_bits b') = (length (f_bits b) + nbits)%nat
    ∧ f_dv b' = f_dv b.
Proof.
  intros Hn. unfold make_monolithic_encoding, make_bit.
  rewrite decide_True by done.
  pose proof (make_monolithic_loop_bits (nbits - 1) (Bit next)
                (mkBase (f_dv b) (f_bits b ++ [Bit next])) (S next)) as H.
  destruct (make_monolithic_loop _ _ _ _) as [[r' b'] next'].
  destruct H as [H1 H2]. simpl in *. rewrite length_app in H1. simpl in H1.
  exists r', b', next'. split_and!; [done|lia|done].
Qed.

Lemma algebraic_fresh_loop_spec : ∀ n b next,
  ∃ b' next', algebraic_fresh_loop n b next = Some (b', next')
    ∧ length (f_dv b') = (length (f_dv b) + n)%nat.
Proof.
  induction n as [|n IH]; intros b next; cbn [algebraic_fresh_loop].
  - exists b, next. split; [done|lia].
  - destruct (make_monolithic_encoding_bits NIBBLE_SIZE b next)
      as (res & b1 & next1 & -> & _ & Hdv); [unfold NIBBLE_SIZE; lia|].
    cbn [mbind option_bind].
    destruct (IH (mkBase (f_dv b1 ++ [res]) (f_bits b1)) next1)
      as (b' & next' & -> & Hlen).
    exists b', next'. split; [done|]. simpl in Hlen.
    rewrite length_app in Hlen. simpl in Hlen. rewrite Hdv in Hlen. lia.
Qed.

(** The algebraic constructor yields a DD vector of length [width]. *)
Lemma AlgebraicEncoding_dv width fract sgn dds next enc next' :
  AlgebraicEncoding width fract sgn dds next = Some (enc, next') →
  ∃ b tmp, enc = AlgebraicEncoding_ b width fract sgn tmp
           ∧ length (f_dv b) = width.
Proof.
  unfold AlgebraicEncoding. destruct dds as [dds|].
  - destruct (algebraic_wrap_loop width 0 dds empty_base) as [b|] eqn:Hb;
      [|done]. simpl. intros [= <- <-].
    apply algebraic_wrap_loop_spec in Hb as [Hlen _]. eauto.
  - destruct (algebraic_fresh_loop_spec width empty_base next)
      as (b & n' & Hb & Hlen). rewrite Hb. simpl. intros [= <- <-]. eauto.
Qed.

(** What [expr] returns on an algebraic encoding whose DD vector has as many
    digits as its width, where the digits are nibbles and the numbers of
    this width are exact. *)
Lemma algebraic_expr_big_endian b W fract sgn tmp A :
  (0 < W)%nat → length (f_dv b) = W →
  Forall (λ d, 0 ≤ Eval d A < 16) (f_dv b) →
  16 ^ Z.of_nat W ≤ DOUBLE_EXACT → 16 ^ Z.of_nat W - 1 ≤ value_max →
  expr (AlgebraicEncoding_ b W fract sgn tmp) A =
  Some (ICONST (big_endian_value (digit_values (f_dv b) A))).
Proof.
  intros HW Hlen Hnib Hdbl Hmax. unfold expr.
  rewrite (algebraic_expr_loop_horner (f_dv b) A W Hnib Hdbl Hmax
             (W - 1) 0 (S W) 0) by (done || lia).
  simpl. unfold make_iconst. rewrite drop_0, horner_big_endian. done.
Qed.

(** The digits [1; 0] are read as 16, in every integer type. *)
Lemma expr_digits_1_0 fract sgn tmp bits A :
  expr (AlgebraicEncoding_ (mkBase [Constant 1; Constant 0] bits) 2 fract sgn
          tmp) A
  = Some (ICONST 16).
Proof.
  pose proof value_max_ge_127 as Hmax. unfold expr.
  cbn [algebraic_expr_loop f_dv].
  change ([Constant 1; Constant 0] !! 0%nat) with (Some (Constant 1)).
  change ([Constant 1; Constant 0] !! 1%nat) with (Some (Constant 0)).
  cbn [mbind option_bind Eval].
  rewrite (add_double_exact 0 1) by (unfold DOUBLE_EXACT; lia).
  cbn [mbind option_bind]. rewrite decide_True by lia.
  rewrite (times_0x10_exact (0 + 1)) by lia. cbn [mbind option_bind].
  rewrite (add_double_exact ((0 + 1) * 16) 0) by (unfold DOUBLE_EXACT; lia).
  cbn [mbind option_bind]. by rewrite decide_False by lia.
Qed.

(** C6 (amended). For every algebraic encoding of width [W ≥ 1] built by the
    constructor and every assignment [A] under which its digits evaluate to
    nibbles (0 to 15), when the numbers of [W] hexadecimal digits are values
    of [value_t] and lie in the range where additions in double precision
    are exact ([16 ^ W] at most [2 ^ 53]): the DD vector has [W] digits and
    [expr(A)] returns the numeric literal equal to the sum over [i] of
    [d_i * 16^(W-1-i)], where [d_i] is the evaluation of digit [i] against
    [A]: digit 0 is the most significant one. *)
Theorem algebraic_expr_value width fract sgn dds next enc next' A :
  (0 < width)%nat →
  AlgebraicEncoding width fract sgn dds next = Some (enc, next') →
  Forall (λ d, 0 ≤ Eval d A < 16) (dv enc) →
  16 ^ Z.of_nat width ≤ DOUBLE_EXACT →
  16 ^ Z.of_nat width - 1 ≤ value_max →
  length (dv enc) = width
  ∧ expr enc A =
    Some (ICONST (weighted_sum (digit_values (dv enc) A)
                    (λ i, (width - 1 - i)%nat))).
Proof.
  intros HW Hctor Hnib Hdbl Hmax.
  apply AlgebraicEncoding_dv in Hctor as (b & tmp & -> & Hlen).
  split; [done|].
  rewrite algebraic_expr_big_endian by done.
  unfold big_endian_value, digit_values, dv. simpl.
  by rewrite length_fmap, Hlen.
Qed.

(** *** Enum encodings *)

Lemma range_repr_bits_loop_spec : ∀ fuel range res,
  0 ≤ range → range ≤ Z.of_nat fuel →
  range_repr_bits_loop fuel range res =
  Some (res + (if (range =? 0)%Z then 0 else S (Z.to_nat (Z.log2 range))))%nat.
Proof.
  induction fuel as [|fuel IH]; intros range res H0 Hf.
  - assert (range = 0) as -> by lia. simpl. f_equal. lia.
  - cbn [range_repr_bits_loop].
    destruct (range =? 0) eqn:Hr; [f_equal; lia|].
    apply Z.eqb_neq in Hr.
    assert (Hq : range ÷ 2 = range / 2) by (apply Z.quot_div_nonneg; lia).
    rewrite Hq.
    rewrite IH by (try apply Z.div_pos; try lia;
                   assert (range / 2 < range) by (apply Z.div_lt; lia); lia).
    f_equal.
    destruct (range / 2 =? 0) eqn:Hh.
    + apply Z.eqb_eq in Hh.
      assert (range = 1).
      { pose proof (Z.div_mod range 2 ltac:(lia)).
        pose proof (Z.mod_pos_bound range 2 ltac:(lia)). lia. }
      subst. simpl. lia.
    + apply Z.eqb_neq in Hh.
      assert (0 < range / 2) by (pose proof (Z.div_pos range 2); lia).
      assert (Z.log2 range = Z.succ (Z.log2 (range / 2))) as ->.
      { assert (2 ≤ range).
        { destruct (Z_lt_le_dec range 2) as [Hlt|]; [|done].
          rewrite Z.div_small in Hh by lia. done. }
        rewrite <- Z.div2_div, Z.div2_spec, Z.log2_shiftr by lia.
        assert (0 < Z.log2 range) by (apply Z.log2_pos; lia). lia. }
      pose proof (Z.log2_nonneg (range / 2)). lia.
Qed.

(** [range_repr_bits] is the bit length of its argument. *)
Lemma range_repr_bits_spec range :
  0 < range →
  range_repr_bits range = Some (S (Z.to_nat (Z.log2 range))).
Proof.
  intros Hr. unfold range_repr_bits. rewrite decide_True by done.
  rewrite range_repr_bits_loop_spec by lia.
  destruct (range =? 0) eqn:H0; [apply Z.eqb_eq in H0; lia|done].
Qed.

Lemma enum_maps_loop_v2e lits : ∀ v0 v2e e2v v,
  (enum_maps_loop lits v0 v2e e2v).1 !! v =
  if decide (v0 ≤ v < v0 + Z.of_nat (length lits))
  then lits !! Z.to_nat (v - v0)
  else v2e !! v.
Proof.
  induction lits as [|eye lits IH]; intros v0 v2e e2v v; simpl.
  - rewrite decide_False by lia. done.
  - rewrite IH. repeat case_decide; try lia.
    + replace (Z.to_nat (v - v0)) with (S (Z.to_nat (v - (v0 + 1)))) by lia.
      done.
    + assert (v = v0) as -> by lia. rewrite lookup_insert_eq.
      by rewrite Z.sub_diag.
    + rewrite lookup_insert_ne by lia. done.
Qed.

Lemma enum_maps_loop_e2v lits : ∀ v0 v2e e2v e v,
  NoDup lits →
  (enum_maps_loop lits v0 v2e e2v).2 !! e = Some v ↔
  (∃ i, lits !! i = Some e ∧ v = v0 + Z.of_nat i)
  ∨ ((e ∉ lits) ∧ e2v !! e = Some v).
Proof.
  induction lits as [|eye lits IH]; intros v0 v2e e2v e v Hnd; simpl.
  - split.
    + intros H. right. split; [apply not_elem_of_nil|done].
    + intros [(i & Hi & _)|[_ H]]; [done|done].
  - apply NoDup_cons in Hnd as [Hnotin Hnd].
    rewrite IH by done. split.
    + intros [(i & Hi & ->)|[Hne Hl]].
      * left. exists (S i). split; [done|lia].
      * destruct (decide (eye = e)) as [->|Hneq].
        -- rewrite lookup_insert_eq in Hl. injection Hl as <-.
           left. exists 0%nat. split; [done|lia].
        -- rewrite lookup_insert_ne in Hl by done.
           right. split; [|done]. rewrite not_elem_of_cons. done.
    + intros [(i & Hi & ->)|[Hne Hl]].
      * destruct i as [|i]; simpl in Hi.
        -- injection Hi as ->. right. split; [done|].
           rewrite lookup_insert_eq. f_equal. lia.
        -- left. exists i. split; [done|lia].
      * apply not_elem_of_cons in Hne as [Hneq Hne].
        right. split; [done|]. by rewrite lookup_insert_ne.
Qed.

(** C7 (amended). For every enum type whose literal set has [n ≥ 1] literals
    (without repetition, in iteration order), the enum constructor allocates
    [floor(log2(n)) + 1] bits for its monolithic ADD (the bit length of [n],
    which is at least [ceil(log2(n))]) and fills two maps, value to literal
    and literal to value, that are mutual inverses and bind exactly the
    values [0..n-1] to the literals in iteration order. *)
Theorem enum_encoding_maps (lits : list Expr_ptr) (next : nat) :
  lits ≠ [] → NoDup lits →
  ∃ b v2e e2v next',
    EnumEncoding lits next = Some (EnumEncoding_ b v2e e2v, next')
    ∧ Z.of_nat (length (f_bits b)) = Z.log2 (Z.of_nat (length lits)) + 1
    ∧ Z.log2_up (Z.of_nat (length lits)) ≤ Z.of_nat (length (f_bits b))
    ∧ (∀ v e, v2e !! v = Some e ↔ e2v !! e = Some v)
    ∧ (∀ i, v2e !! Z.of_nat i = lits !! i)
    ∧ (∀ v, is_Some (v2e !! v) ↔ 0 ≤ v < Z.of_nat (length lits)).
Proof.
  intros Hne Hnd.
  assert (Hn : 0 < Z.of_nat (length lits)) by (destruct lits; simpl; [done|lia]).
  unfold EnumEncoding. rewrite range_repr_bits_spec by done.
  cbn [mbind option_bind].
  destruct (make_monolithic_encoding_bits
              (S (Z.to_nat (Z.log2 (Z.of_nat (length lits))))) empty_base next)
    as (res & b & next' & -> & Hbits & _); [lia|].
  cbn [mbind option_bind].
  destruct (enum_maps_loop lits 0 ∅ ∅) as [v2e e2v] eqn:Hmaps.
  assert (Hv2e : ∀ v, v2e !! v =
            if decide (0 ≤ v < 0 + Z.of_nat (length lits))
            then lits !! Z.to_nat (v - 0) else None).
  { intros v. pose proof (enum_maps_loop_v2e lits 0 ∅ ∅ v) as H.
    rewrite Hmaps in H. simpl in H. by rewrite lookup_empty in H. }
  assert (He2v : ∀ e v, e2v !! e = Some v ↔
            ∃ i, lits !! i = Some e ∧ v = 0 + Z.of_nat i).
  { intros e v. pose proof (enum_maps_loop_e2v lits 0 ∅ ∅ e v Hnd) as H.
    rewrite Hmaps in H. simpl in H. rewrite H. split; [|eauto].
    intros [H'|[_ H']]; [done|]. by rewrite lookup_empty in H'. }
  exists b, v2e, e2v, next'. simpl in Hbits.
  pose proof (Z.log2_nonneg (Z.of_nat (length lits))) as Hlog.
  split_and!.
  - done.
  - lia.
  - pose proof (Z.le_log2_up_succ_log2 (Z.of_nat (length lits))). lia.
  - intros v e. rewrite Hv2e, He2v. case_decide as Hr.
    + split.
      * intros Hl. exists (Z.to_nat (v - 0)). split; [done|lia].
      * intros (i & Hi & ->). by rewrite Z.add_0_l, Z.sub_0_r, Nat2Z.id.
    + split; [done|]. intros (i & Hi & ->).
      apply lookup_lt_Some in Hi. lia.
  - intros i. rewrite Hv2e. case_decide as Hr.
    + by rewrite Z.sub_0_r, Nat2Z.id.
    + symmetry. apply lookup_ge_None. lia.
  - intros v. rewrite Hv2e. case_decide as Hr.
    + split; [lia|]. intros _. apply lookup_lt_is_Some. lia.
    + split; [by intros [? ?]|lia].
Qed.

(** C7 (witness): the four literals get 3 bits, and value 2 maps to [C]. *)
Lemma enum_encoding_maps_witness :
  ∃ b v2e e2v next',
    EnumEncoding four_literals 0 = Some (EnumEncoding_ b v2e e2v, next')
    ∧ Z.of_nat (length (f_bits b)) = 3
    ∧ v2e !! 2 = Some (IDENT "C").
Proof.
  destruct (enum_encoding_maps four_literals 0)
    as (b & v2e & e2v & next' & Hctor & Hbits & _ & _ & Hord & _).
  - discriminate.
  - apply (bool_decide_unpack _). vm_compute. exact I.
  - exists b, v2e, e2v, next'. split_and!; [exact Hctor|exact Hbits|].
    exact (Hord 2%nat).
Defined.

(** *** Array encodings *)

Lemma foldl_app_dv (elements : list Encoding) : ∀ acc,
  foldl (λ acc i, acc ++ dv i) acc elements = acc ++ concat (dv <$> elements).
Proof.
  induction elements as [|e elements IH]; intros acc; simpl.
  - by rewrite app_nil_r.
  - by rewrite IH, app_assoc.
Qed.

(** The enum constructor leaves the DD vector empty. *)
Lemma EnumEncoding_dv_empty lits next enc next' :
  EnumEncoding lits next = Some (enc, next') → dv enc = [].
Proof.
  unfold EnumEncoding.
  destruct (decide (0 < Z.of_nat (length lits))) as [Hn|Hn];
    [|unfold range_repr_bits; by rewrite decide_False].
  rewrite range_repr_bits_spec by done. cbn [mbind option_bind].
  destruct (make_monolithic_encoding_bits
              (S (Z.to_nat (Z.log2 (Z.of_nat (length lits))))) empty_base next)
    as (res & b & next1 & -> & _ & Hdv); [lia|].
  cbn [mbind option_bind].
  destruct (enum_maps_loop lits 0 ∅ ∅) as [v2e e2v].
  by intros [= <- <-].
Qed.

Lemma EnumEncoding_succeeds lits next :
  lits ≠ [] → ∃ enc next', EnumEncoding lits next = Some (enc, next').
Proof.
  intros Hne.
  assert (Hn : 0 < Z.of_nat (length lits)) by (destruct lits; simpl; [done|lia]).
  unfold EnumEncoding. rewrite range_repr_bits_spec by done.
  cbn [mbind option_bind].
  destruct (make_monolithic_encoding_bits
              (S (Z.to_nat (Z.log2 (Z.of_nat (length lits))))) empty_base next)
    as (res & b & next1 & -> & _ & _); [lia|].
  cbn [mbind option_bind].
  destruct (enum_maps_loop lits 0 ∅ ∅) as [v2e e2v]. eauto.
Qed.

(** C10 (the code at the failing input). An array encoding is built from
    any non-empty vector of element encodings; its DD vector is the
    concatenation of the element DD vectors (element 0 first); and [expr]
    fails on it for every assignment.  [expr] returns a value on every
    boolean encoding, and on every algebraic encoding of positive width
    whose digits are nibbles and whose numbers are exact.  But the enum
    family is no different from the array family: the enum constructor
    never stores the ADD it builds, so on every enum encoding that it
    returns, the one of the four literals [A, B, C, D] for instance, [expr]
    finds an empty DD vector and has no result, whatever the assignment. *)
Theorem array_encoding_expr_fails :
  (∀ elements, elements ≠ [] →
     ∃ enc, ArrayEncoding elements = Some enc
       ∧ dv enc = concat (dv <$> elements)
       ∧ ∀ A, expr enc A = None)
  ∧ (∀ next A, is_Some (expr (BooleanEncoding next).1 A))
  ∧ (∀ width fract sgn dds next enc next' A,
       (0 < width)%nat →
       AlgebraicEncoding width fract sgn dds next = Some (enc, next') →
       Forall (λ d, 0 ≤ Eval d A < 16) (dv enc) →
       16 ^ Z.of_nat width ≤ DOUBLE_EXACT →
       16 ^ Z.of_nat width - 1 ≤ value_max →
       is_Some (expr enc A))
  ∧ (∀ lits next enc next',
       EnumEncoding lits next = Some (enc, next') →
       dv enc = [] ∧ ∀ A, expr enc A = None)
  ∧ (∃ enc next',
       EnumEncoding four_literals 0 = Some (enc, next')
       ∧ ∀ A, expr enc A = None).
Proof.
  assert (Henum : ∀ lits next enc next',
            EnumEncoding lits next = Some (enc, next') →
            dv enc = [] ∧ ∀ A, expr enc A = None).
  { intros lits next enc next' Hctor.
    pose proof (EnumEncoding_dv_empty _ _ _ _ Hctor) as Hdv.
    split; [done|]. intros A. unfold EnumEncoding in Hctor.
    destruct (range_repr_bits _); [|done]. cbn [mbind option_bind] in Hctor.
    destruct (make_monolithic_encoding _ _ _) as [[[? b] ?]|]; [|done].
    cbn [mbind option_bind] in Hctor.
    destruct (enum_maps_loop lits 0 ∅ ∅) as [v2e e2v].
    injection Hctor as <- <-. unfold dv in Hdv. simpl in Hdv.
    simpl. by rewrite Hdv. }
  split_and!.
  - intros elements Hne. unfold ArrayEncoding. rewrite decide_True
      by (destruct elements; simpl; [done|lia]).
    eexists. split; [reflexivity|]. split; [|done].
    unfold dv at 1. simpl. by rewrite foldl_app_dv.
  - intros next A. simpl. eauto.
  - intros width fract sgn dds next enc next' A HW Hctor Hnib Hdbl Hmax.
    apply AlgebraicEncoding_dv in Hctor as (b & tmp & -> & Hlen).
    rewrite algebraic_expr_big_endian by done. eauto.
  - exact Henum.
  - destruct (EnumEncoding_succeeds four_literals 0) as (enc & next' & Hctor);
      [done|].
    exists enc, next'. split; [done|]. by apply (Henum _ _ _ _ Hctor).
Qed.

End EncodingProps.

Section EncodingExamples.
Import DD Enc.

#[local] Existing Instance sample_value_model.

(** C6 (counterexample). Whatever the integer type [value_t] is, the
    width-2 encoding that wraps the digits [1; 0] evaluates to 16 (digit 0 is
    taken as the most significant one), whereas the little-endian value of
    these digits is 1. *)
Lemma expr_is_little_endian_counterexample :
  (¬ ∃ VM : ValueModel, @expr_is_little_endian VM)
  ∧ ∃ enc,
      AlgebraicEncoding 2 0 false (Some [Constant 1; Constant 0]) 0
      = Some (enc, 0%nat)
      ∧ expr enc (λ _, 0) = Some (ICONST 16)
      ∧ little_endian_value (digit_values (dv enc) (λ _, 0)) = 1.
Proof.
  split.
  - intros [VM H].
    specialize (H 2%nat 0%nat false (Some [Constant 1; Constant 0]) 0%nat
                  _ _ (λ _, 0) eq_refl).
    assert (Hc : Some (ICONST 16) = Some (ICONST 1)).
    { rewrite <- (@expr_digits_1_0 VM 0 false true [] (λ _, 0)). exact H. }
    discriminate Hc.
  - eexists. split; [reflexivity|]. split; reflexivity.
Qed.

(** C6 (witness): the width-2 encoding wrapping the digits [1; 0], for a
    64-bit [value_t]. *)
Lemma algebraic_expr_value_witness :
  ∃ enc, AlgebraicEncoding 2 0 false (Some [Constant 1; Constant 0]) 0
         = Some (enc, 0%nat)
    ∧ expr enc (λ _, 0) = Some (ICONST 16).
Proof.
  eexists. split; [reflexivity|].
  refine (proj2 (algebraic_expr_value 2 0 false (Some [Constant 1; Constant 0])
                   0 _ 0 (λ _, 0) _ eq_refl _ _ _)).
  - lia.
  - repeat (constructor; [simpl; lia|]). constructor.
  - by vm_compute.
  - by vm_compute.
Defined.

(** C7 (counterexample). For the four literals [A, B, C, D] the constructor
    allocates 3 bits although [ceil(log2(4)) = 2]; moreover it leaves the DD
    vector empty, so that [expr] finds no ADD to evaluate. *)
Lemma enum_encoding_claim_counterexample :
  ¬ enum_encoding_claim four_literals 0
  ∧ ∃ b v2e e2v next',
      EnumEncoding four_literals 0 = Some (EnumEncoding_ b v2e e2v, next')
      ∧ length (f_bits b) = 3%nat ∧ Z.log2_up 4 = 2 ∧ f_dv b = []
      ∧ expr (EnumEncoding_ b v2e e2v) (λ _, 0) = None.
Proof.
  split.
  - intros (b & v2e & e2v & next' & monolith & Hctor & _ & Hbits & _).
    vm_compute in Hctor. injection Hctor as <- _ _ _.
    vm_compute in Hbits. discriminate Hbits.
  - do 4 eexists. split; [reflexivity|]. by vm_compute.
Qed.

End EncodingExamples.

(** ** Witness store *)

Section TimeFrameProps.
Import Witness.

Lemma value_set_value tf key key' v :
  value (set_value tf key v) key' =
  match value tf key' with
  | Some w => Some w
  | None => if decide (key = key') then Some v else None
  end.
Proof. unfold value, set_value; simpl. apply lookup_map_insert_new. Qed.

Lemma value_set_value_keeps tf key key' v w :
  value tf key' = Some w → value (set_value tf key v) key' = Some w.
Proof. intros Hw. by rewrite value_set_value, Hw. Qed.

Lemma value_set_values_keeps ops : ∀ tf key' w,
  value tf key' = Some w → value (set_values tf ops) key' = Some w.
Proof.
  induction ops as [|[k v] ops IH]; intros tf key' w Hw; simpl; [done|].
  apply IH. by apply value_set_value_keeps.
Qed.

Lemma has_value_spec tf key : has_value tf key = false ↔ value tf key = None.
Proof. unfold has_value, value. destruct (f_map tf !! key); naive_solver. Qed.

(** C9. Once [set_value(key, v)] has been performed, [has_value(key)] is
    true, and [value(key)] is [v] when the key had no value before; the map
    is append-only: a binding, once present, survives every later run of
    [set_value] calls, on this or on any other key (so a second
    [set_value(key, v')] leaves [value(key) = v]); and [value] fails exactly
    when [has_value] is false. *)
Theorem timeframe_append_only tf key v :
  has_value (set_value tf key v) key = true
  ∧ (has_value tf key = false → value (set_value tf key v) key = Some v)
  ∧ (∀ w ops, value tf key = Some w → value (set_values tf ops) key = Some w)
  ∧ (has_value tf key = false →
     ∀ v', value (set_value (set_value tf key v) key v') key = Some v)
  ∧ (∀ tf' key', value tf' key' = None ↔ has_value tf' key' = false).
Proof.
  assert (Hv : has_value tf key = false →
               value (set_value tf key v) key = Some v).
  { intros Hnone. apply has_value_spec in Hnone.
    rewrite value_set_value, Hnone. by case_decide. }
  split_and!.
  - unfold has_value. pose proof (value_set_value tf key key v) as H.
    unfold value in H. rewrite H. destruct (f_map tf !! key); [done|].
    by case_decide.
  - done.
  - intros w ops. by apply value_set_values_keeps.
  - intros Hnone v'. by apply value_set_value_keeps, Hv.
  - intros tf' key'. symmetry. apply has_value_spec.
Qed.

(** C9 (witness): [x] is set to 1 in a fresh frame, then set again to 2. *)
Lemma timeframe_append_only_witness :
  has_value (set_value new_TimeFrame sample_key (ICONST 1)) sample_key = true
  ∧ value (set_value new_TimeFrame sample_key (ICONST 1)) sample_key
    = Some (ICONST 1)
  ∧ value (set_value (set_value new_TimeFrame sample_key (ICONST 1))
             sample_key (ICONST 2)) sample_key
    = Some (ICONST 1).
Proof.
  destruct (timeframe_append_only new_TimeFrame sample_key (ICONST 1))
    as (H1 & H2 & _ & H4 & _).
  split_and!.
  - exact H1.
  - apply H2. reflexivity.
  - apply H4. reflexivity.
Defined.

End TimeFrameProps.

(** ** Witness evaluator *)

Section EvaluatorProps.
Import Witness Evaluator.
Context `{VM : ValueModel}.

Variable symbol : Expr_ptr → Expr_ptr → ISymbol.
Variable walk_neg_postorder : Expr_ptr → Evaluator → option Evaluator.

Abbreviation walk := (Evaluator.walk symbol walk_neg_postorder).
Abbreviation process := (Evaluator.process symbol walk_neg_postorder).

(** A binary node whose operands push the values [l] and [r] and leave the
    rest of the evaluator alone: the walk pops both and pushes
    [op l r], whenever the node itself misses the cache. *)
Lemma walk_binary (symb : ExprType) op fuel a b ev l r ctx time :
  head (f_ctx_stack ev) = Some ctx →
  head (f_time_stack ev) = Some time →
  f_map ev !! (ctx, Binary symb a b, time) = None →
  symb ≠ NEXT → symb ≠ PREV →
  (∀ e ev', walk_postorder walk_neg_postorder symb e ev'
            = binary_postorder op ev') →
  walk fuel a ev = Some (PUSH_VALUE l ev) →
  walk fuel b (PUSH_VALUE l ev) = Some (PUSH_VALUE r (PUSH_VALUE l ev)) →
  walk (S fuel) (Binary symb a b) ev =
  res ← op l r; Some (PUSH_VALUE res ev).
Proof.
  intros Hctx Htime Hmiss Hn Hp Hpost Ha Hb.
  cbn [Evaluator.walk].
  assert (Hpre : walk_preorder symb (Binary symb a b) ev = Some (true, ev)).
  { unfold walk_preorder, cache_miss. rewrite Hctx, Htime. simpl.
    rewrite Hmiss. by destruct symb. }
  rewrite Hpre, Ha. cbn [mbind option_bind walk_inorder].
  rewrite Hb. cbn [mbind option_bind]. rewrite Hpost.
  unfold binary_postorder. simpl. destruct (op l r); simpl; [|done].
  by destruct ev.
Qed.

(** A numeric literal pushes itself. *)
Lemma walk_numeric_leaf fuel v ev ctx time :
  head (f_ctx_stack ev) = Some ctx →
  head (f_time_stack ev) = Some time →
  f_map ev !! (ctx, ICONST v, time) = None →
  walk (S fuel) (ICONST v) ev = Some (PUSH_VALUE v ev).
Proof.
  intros Hctx Htime Hmiss. cbn [Evaluator.walk]. unfold walk_leaf, cache_miss.
  rewrite Hctx, Htime. cbn [mbind option_bind]. rewrite Hmiss.
  by rewrite Hctx, Htime.
Qed.

(** What the evaluator computes for a multiplication node: the quotient of
    the operand values (no result when the right operand is 0). *)
Lemma walk_mul_computes_quotient fuel a b ev l r ctx time :
  head (f_ctx_stack ev) = Some ctx →
  head (f_time_stack ev) = Some time →
  f_map ev !! (ctx, Binary MUL a b, time) = None →
  walk fuel a ev = Some (PUSH_VALUE l ev) →
  walk fuel b (PUSH_VALUE l ev) = Some (PUSH_VALUE r (PUSH_VALUE l ev)) →
  walk (S fuel) (Binary MUL a b) ev =
  if r =? 0 then None else Some (PUSH_VALUE (l ÷ r) ev).
Proof.
  intros Hctx Htime Hmiss Ha Hb.
  rewrite (walk_binary MUL c_div fuel a b ev l r ctx time) by done.
  unfold c_div. by destruct (r =? 0).
Qed.

(** What the evaluator computes for a right-shift node: the left operand
    shifted LEFT by the right operand. *)
Lemma walk_rshift_computes_shiftl fuel a b ev l r ctx time :
  head (f_ctx_stack ev) = Some ctx →
  head (f_time_stack ev) = Some time →
  f_map ev !! (ctx, Binary RSHIFT a b, time) = None →
  walk fuel a ev = Some (PUSH_VALUE l ev) →
  walk fuel b (PUSH_VALUE l ev) = Some (PUSH_VALUE r (PUSH_VALUE l ev)) →
  walk (S fuel) (Binary RSHIFT a b) ev =
  res ← c_shl l r; Some (PUSH_VALUE res ev).
Proof.
  intros Hctx Htime Hmiss Ha Hb.
  by rewrite (walk_binary RSHIFT c_shl fuel a b ev l r ctx time).
Qed.

(** C4 (the code at the failing input). For every witness, context and
    step, evaluating the product of two numeric literals [l * r] returns the
    quotient of [l] by [r] (and nothing when [r] is 0); in particular
    [6 * 3] evaluates to 2 and not to the product 18. *)
Theorem eval_mul_returns_quotient (w : Witness) (ctx : Expr_ptr) (k : step_t)
  (l r : value_t) :
  process 2 w ctx (Binary MUL (ICONST l) (ICONST r)) k
  = (if r =? 0 then None else Some (ICONST (l ÷ r)))
  ∧ process 2 w ctx (Binary MUL (ICONST 6) (ICONST 3)) k = Some (ICONST 2)
  ∧ 6 * 3 = 18.
Proof.
  split; [|split; reflexivity].
  unfold Evaluator.process.
  rewrite (walk_mul_computes_quotient 1 (ICONST l) (ICONST r) _ l r ctx k);
    try (done || by apply walk_numeric_leaf).
  by destruct (r =? 0).
Qed.

(** The left shift of a number that is not negative, by a count in range,
    is exact when the result is a value of the type. *)
Lemma c_shl_exact l r :
  0 ≤ l → 0 ≤ r < value_bits → l * 2 ^ r ≤ value_max →
  c_shl l r = Some (Z.shiftl l r).
Proof.
  intros Hl Hr Hmax. unfold c_shl.
  assert (0 ≤ l * 2 ^ r) by (apply Z.mul_nonneg_nonneg; [done|lia]).
  rewrite representable_nonneg by lia.
  by rewrite !(proj2 (Z.leb_le _ _)), (proj2 (Z.ltb_lt _ _)) by lia.
Qed.

(** C5 (the code at the failing input). For every witness, context and
    step, evaluating the right shift of two numeric literals [l >> r]
    returns what the left shift [l << r] returns: [l] shifted LEFT by [r]
    positions whenever this left shift is exact in [value_t]; in particular
    [8 >> 1] evaluates to 16 and not to 4, whatever integer type [value_t]
    is. *)
Theorem eval_rshift_returns_left_shift (w : Witness) (ctx : Expr_ptr)
  (k : step_t) (l r : value_t) :
  process 2 w ctx (Binary RSHIFT (ICONST l) (ICONST r)) k
  = ICONST <$> c_shl l r
  ∧ process 2 w ctx (Binary RSHIFT (ICONST l) (ICONST r)) k
    = process 2 w ctx (Binary LSHIFT (ICONST l) (ICONST r)) k
  ∧ (0 ≤ l → 0 ≤ r < value_bits → l * 2 ^ r ≤ value_max →
     process 2 w ctx (Binary RSHIFT (ICONST l) (ICONST r)) k
     = Some (ICONST (Z.shiftl l r)))
  ∧ process 2 w ctx (Binary RSHIFT (ICONST 8) (ICONST 1)) k
    = Some (ICONST 16)
  ∧ Z.shiftr 8 1 = 4.
Proof.
  assert (Hshift : ∀ symb l r,
    (∀ e ev', walk_postorder walk_neg_postorder symb e ev'
              = binary_postorder c_shl ev') →
    symb ≠ NEXT → symb ≠ PREV →
    process 2 w ctx (Binary symb (ICONST l) (ICONST r)) k
    = ICONST <$> c_shl l r).
  { intros symb l' r' Hpost Hn Hp. unfold Evaluator.process.
    rewrite (walk_binary symb c_shl 1 (ICONST l') (ICONST r') _ l' r' ctx k);
      try (done || by apply walk_numeric_leaf).
    by destruct (c_shl l' r'). }
  assert (Hr : ∀ l r, process 2 w ctx (Binary RSHIFT (ICONST l) (ICONST r)) k
                      = ICONST <$> c_shl l r)
    by (intros; by apply Hshift).
  split_and!.
  - apply Hr.
  - rewrite Hr. symmetry. by apply Hshift.
  - intros Hl Hcount Hmax. by rewrite Hr, c_shl_exact.
  - pose proof value_max_ge_127.
    rewrite Hr, c_shl_exact by (unfold value_bits; lia). done.
  - reflexivity.
Qed.

End EvaluatorProps.

(** ** Bitwise operators of the first boolean compiler *)

Section BECompilerProps.
Import DD Types BECompiler.

(** The algebraic branch shared by the bitwise hooks does not get past the
    first store of its first loop, whatever the stack holds. *)
Lemma algebraic_binop_undefined op W c :
  (0 < W)%nat → algebraic_binop W op c = None.
Proof.
  intros HW. destruct W as [|W]; [lia|]. unfold algebraic_binop.
  cbn [pop_digits]. by destruct (f_add_stack c).
Qed.

(** The type tests of a logical node over two algebraic operands: only the
    algebraic one holds. *)
Lemma is_binary_of_algebraic owner_type symb a b ctx c :
  is_binary_logical (Binary symb a b) = true →
  head (f_ctx_stack c) = Some ctx →
  is_algebraic (owner_type ctx a) = true →
  is_algebraic (owner_type ctx b) = true →
  is_binary_boolean owner_type (Binary symb a b) c = Some false
  ∧ is_binary_monolithic owner_type (Binary symb a b) c = Some false
  ∧ is_binary_algebraic owner_type (Binary symb a b) c = Some true.
Proof.
  intros Hlog Hctx Ha Hb.
  unfold is_binary_boolean, is_binary_monolithic, is_binary_algebraic,
    both_operands. rewrite Hlog, Hctx. cbn [orb mbind option_bind].
  assert (Hnb : ∀ t, is_algebraic t = true → is_boolean t = false)
    by (by intros []).
  assert (Hnm : ∀ t, is_algebraic t = true → is_monolithic t = false)
    by (by intros []).
  by rewrite (Hnb _ Ha), (Hnm _ Ha), Ha, Hb.
Qed.

(** C8 (the code at the failing input). For an OR expression over two
    algebraic operands and a word width of at least 1, the compiler pushes
    nothing: its algebraic branch stores the first DD it pops through a
    pointer that was never initialised and has no result, whatever the stack
    holds; so for the operands of width 1 with the digits 1 and 2 on the
    stack, no DD that evaluates to their bitwise OR, 3, is pushed. *)
Theorem walk_or_postorder_algebraic_undefined :
  (∀ owner_type W a b ctx c,
     (0 < W)%nat → head (f_ctx_stack c) = Some ctx →
     is_algebraic (owner_type ctx a) = true →
     is_algebraic (owner_type ctx b) = true →
     walk_or_postorder owner_type W (Binary OR a b) c = None)
  ∧ walk_or_postorder (λ _ _, UnsignedAlgebraicType 1) 1
      (Binary OR (IDENT "a") (IDENT "b"))
      (mkBECompiler [Constant 2; Constant 1] [] [IDENT "main"] [0])
    = None
  ∧ (∀ A, Eval (BWOr (Constant 1) (Constant 2)) A = 3).
Proof.
  assert (Hall : ∀ owner_type W a b ctx c,
     (0 < W)%nat → head (f_ctx_stack c) = Some ctx →
     is_algebraic (owner_type ctx a) = true →
     is_algebraic (owner_type ctx b) = true →
     walk_or_postorder owner_type W (Binary OR a b) c = None).
  { intros owner_type W a b ctx c HW Hctx Ha Hb.
    destruct (is_binary_of_algebraic owner_type OR a b ctx c eq_refl Hctx Ha Hb)
      as (Hbool & Hmono & Halg).
    unfold walk_or_postorder. rewrite Hbool, Hmono, Halg.
    cbn [mbind option_bind]. by apply algebraic_binop_undefined. }
  split_and!; [exact Hall| |done].
  by apply (Hall _ 1%nat _ _ (IDENT "main")); [lia|..].
Qed.

End BECompilerProps.

(** ** Compiler internals: MUX post-processing *)

Section MuxProps.
Import DD Types Compiler.

Lemma foldl_mux_activation_step l : ∀ prev stk,
  (foldl mux_activation_step (prev, stk) l).2 =
  reverse (activation_clauses prev l) ++ stk.
Proof.
  induction l as [|j l IH]; intros prev stk; simpl; [done|].
  rewrite IH, reverse_cons, <- app_assoc. done.
Qed.

Lemma mux_activation_app descriptors stk :
  mux_activation descriptors stk = mux_activation descriptors [] ++ stk.
Proof.
  unfold mux_activation. rewrite !foldl_mux_activation_step.
  by rewrite app_nil_r.
Qed.

Lemma activation_clauses_length l : ∀ prev,
  length (activation_clauses prev l) = length l.
Proof. induction l as [|j l IH]; intros prev; simpl; [done|]. by rewrite IH. Qed.

Lemma activation_clauses_lookup l : ∀ prev i d,
  l !! i = Some d →
  ∃ p, activation_clauses prev l !! i
       = Some (Xnor (Times (Cmpl p) (cnd d)) (aux d))
    ∧ (i = 0%nat → p = prev)
    ∧ (∀ d', i = 1%nat → l !! 0%nat = Some d' →
             p = Times (Cmpl prev) (cnd d')).
Proof.
  induction l as [|j l IH]; intros prev i d Hi; [done|].
  destruct i as [|i]; simpl in Hi.
  - injection Hi as ->. exists prev. simpl. split_and!; [done|done|].
    intros d' Hone. done.
  - destruct (IH (Times (Cmpl prev) (cnd j)) i d Hi) as (p & Hp & H0 & _).
    exists p. simpl. split_and!; [done|done|].
    intros d' Hone Hd'. injection Hone as ->. injection Hd' as ->.
    by apply H0.
Qed.

Lemma foldl_mux_entries (L : list (Expr_ptr * list MuxDescriptor)) : ∀ stk,
  foldl (λ stk entry, mux_activation entry.2 stk) stk L =
  concat (reverse ((λ entry, mux_activation entry.2 []) <$> L)) ++ stk.
Proof.
  induction L as [|entry L IH]; intros stk; simpl; [done|].
  rewrite IH, reverse_cons, concat_app, <- app_assoc. simpl.
  rewrite app_nil_r. f_equal. apply mux_activation_app.
Qed.

(** C2 (counterexample). With two descriptors, the conjunct pushed for the
    first-registered one, [d0], is [Xnor(NOT(NOT(0) AND d1.cnd) AND d0.cnd,
    d0.aux)]: the condition of the LATER descriptor is the one excluded.  The
    stated conjunct for [d0] is [Xnor(NOT(0) AND d0.cnd, d0.aux)].  Under
    the assignment in which both conditions and [d0.aux] are 1 the first
    evaluates to 0 and the second to 1. *)
Lemma mux_claim_counterexample :
  ¬ mux_claim two_muxes
  ∧ mux_activation two_muxes []
    = [Xnor (Times (Cmpl (Times (Cmpl zero) (Bit 2))) (Bit 0)) (Bit 1);
       Xnor (Times (Cmpl zero) (Bit 2)) (Bit 3)]
  ∧ claimed_clauses zero two_muxes
    = [Xnor (Times (Cmpl zero) (Bit 0)) (Bit 1);
       Xnor (Times (Cmpl (Or zero (Bit 0))) (Bit 2)) (Bit 3)]
  ∧ Eval (Xnor (Times (Cmpl (Times (Cmpl zero) (Bit 2))) (Bit 0)) (Bit 1))
      (λ _, 1) = 0
  ∧ Eval (Xnor (Times (Cmpl zero) (Bit 0)) (Bit 1)) (λ _, 1) = 1.
Proof.
  split_and!; try reflexivity.
  intros H. apply Forall2_cons_1 in H as [H _].
  specialize (H (λ _, 1)). vm_compute in H. discriminate H.
Qed.

(** C2 (amended). For every toplevel [T] owning the descriptors
    [d0, ..., dn-1] in insertion order, the pass pushes on the ADD stack,
    as one block, exactly [n] conjuncts for [T], one per descriptor,
    visiting the descriptors in reverse insertion order ([dn-1] first, so
    the conjunct of [d_k] ends at depth [k] of the block); the conjunct of
    [d_k] is [Xnor(NOT(p) AND d_k.cnd, d_k.aux)], where [p] is 0 for the
    last-registered descriptor [dn-1] and denotes [dn-1.cnd] for [dn-2]:
    the conditions that a descriptor excludes are those of the descriptors
    registered AFTER it. *)
Theorem post_process_muxes_clauses (c : Compiler) (T : Expr_ptr)
  (ds : list MuxDescriptor) :
  f_mux_map c !! T = Some ds →
  ∃ above below block,
    f_add_stack (post_process_muxes c)
    = above ++ block ++ below ++ f_add_stack c
    ∧ block = mux_activation ds []
    ∧ length block = length ds
    ∧ ∀ k d, ds !! k = Some d →
        ∃ p, block !! k = Some (Xnor (Times (Cmpl p) (cnd d)) (aux d))
          ∧ (S k = length ds → p = zero)
          ∧ (∀ d', S (S k) = length ds → ds !! S k = Some d' →
                   equiv_add p (cnd d')).
Proof.
  intros HT.
  apply elem_of_map_to_list, list_elem_of_split in HT as (L1 & L2 & HL).
  exists (concat (reverse ((λ entry, mux_activation entry.2 []) <$> L2))),
         (concat (reverse ((λ entry, mux_activation entry.2 []) <$> L1))),
         (mux_activation ds []).
  assert (Hblock : mux_activation ds []
                   = reverse (activation_clauses zero (reverse ds))).
  { unfold mux_activation. rewrite foldl_mux_activation_step.
    by rewrite app_nil_r. }
  assert (Hlen : length (mux_activation ds []) = length ds).
  { by rewrite Hblock, length_reverse, activation_clauses_length,
      length_reverse. }
  split_and!; [|done|done|].
  - unfold post_process_muxes. simpl. rewrite foldl_mux_entries, HL.
    rewrite fmap_app, fmap_cons, reverse_app, reverse_cons, !concat_app.
    simpl. rewrite app_nil_r, <- !app_assoc. done.
  - intros k d Hk. pose proof (lookup_lt_Some _ _ _ Hk) as Hklt.
    assert (Hrev : reverse ds !! (length ds - S k)%nat = Some d).
    { rewrite reverse_lookup by lia.
      replace (length ds - S (length ds - S k))%nat with k by lia. done. }
    destruct (activation_clauses_lookup (reverse ds) zero _ d Hrev)
      as (p & Hp & H0 & H1).
    exists p. split_and!.
    + rewrite Hblock, reverse_lookup
        by (rewrite activation_clauses_length, length_reverse; lia).
      by rewrite activation_clauses_length, length_reverse.
    + intros Hlast. apply H0. lia.
    + intros d' Hsnd Hd'. rewrite (H1 d').
      * intros A. simpl. by destruct (Eval (cnd d') A).
      * lia.
      * rewrite reverse_lookup by lia.
        replace (length ds - 1)%nat with (S k) by lia. done.
Qed.

(** C2 (witness): the block pushed for the toplevel of [mux_compiler]. *)
Lemma post_process_muxes_clauses_witness :
  ∃ above below,
    f_add_stack (post_process_muxes mux_compiler)
    = above
      ++ [Xnor (Times (Cmpl (Times (Cmpl zero) (Bit 2))) (Bit 0)) (Bit 1);
          Xnor (Times (Cmpl zero) (Bit 2)) (Bit 3)]
      ++ below ++ f_add_stack mux_compiler.
Proof.
  destruct (post_process_muxes_clauses mux_compiler sample_toplevel two_muxes)
    as (above & below & block & Hstk & Hblock & _).
  - reflexivity.
  - exists above, below. rewrite Hstk, Hblock. reflexivity.
Defined.

End MuxProps.

(** ** Compiler internals: memoization *)

Section CacheProps.
Import DD Types Compiler.

Variable owner_type : Expr_ptr → Expr_ptr → Type_ptr.
Variable is_type : Expr_ptr → bool.

Lemma push_reversed_app (dds stk : list ADD) :
  push_reversed dds stk = dds ++ stk.
Proof.
  unfold push_reversed. revert stk.
  induction dds as [|d dds IH] using rev_ind; intros stk; [done|].
  rewrite reverse_app. simpl. rewrite IH, <- app_assoc. done.
Qed.

Lemma foldl_insert_new (L : list (Expr_ptr * list MuxDescriptor)) :
  ∀ current : gmap Expr_ptr (list MuxDescriptor),
  NoDup L.*1 →
  foldl (λ m entry, map_insert_new entry.1 entry.2 m) current L
  = current ∪ list_to_map L.
Proof.
  induction L as [|[k v] L IH]; intros current Hnd; simpl.
  - by rewrite (right_id_L ∅ (∪)).
  - apply NoDup_cons in Hnd as [Hk Hnd]. rewrite IH by done.
    apply map_eq. intros i.
    rewrite !lookup_union, lookup_map_insert_new, lookup_insert.
    pose proof (not_elem_of_list_to_map_1 (M := gmap Expr_ptr) L k Hk) as HkL.
    destruct (current !! i) as [w|] eqn:Hc; simpl.
    + by destruct (list_to_map L !! i), (decide (k = i)).
    + destruct (decide (k = i)) as [->|Hne]; simpl.
      * by rewrite HkL.
      * by destruct (list_to_map L !! i).
Qed.

(** The loop that replays the cached mux map computes the union in which
    the entries already present in the current map win. *)
Lemma insert_muxes_union (muxes current : gmap Expr_ptr (list MuxDescriptor)) :
  insert_muxes muxes current = current ∪ muxes.
Proof.
  unfold insert_muxes.
  rewrite foldl_insert_new by apply NoDup_fst_map_to_list.
  by rewrite list_to_map_to_list.
Qed.

(** What a hit does, given the cached unit. *)
Lemma cache_miss_hit expr c ctx time unit :
  head (f_ctx_stack c) = Some ctx →
  head (f_time_stack c) = Some time →
  f_cache c !! (ctx, expr, time) = Some unit →
  cache_miss owner_type expr c =
  Some (false,
        mkCompiler (dds unit ++ f_add_stack c)
          (owner_type expr ctx :: f_type_stack c)
          (f_ctx_stack c) (f_time_stack c)
          (f_micro_descriptors c ++ micro_descriptors unit)
          (f_mux_map c ∪ mux_map unit)
          (f_cache c) (f_preprocess c)).
Proof.
  intros Hctx Htime Hunit. unfold cache_miss.
  rewrite Hctx, Htime. simpl. rewrite Hunit.
  unfold set_type_stack, set_mux_map, set_micro_descriptors, set_add_stack.
  simpl. by rewrite push_reversed_app, insert_muxes_union.
Qed.

(** C1 (counterexample). After the leaf [c] has been compiled from cold and
    cached, a second visit of [c] hits the cache and appends the cached
    descriptor list, which is the whole buffer of the time of caching: the
    microcode buffer then holds the addition's descriptor twice, whereas
    compiling [c] from cold again leaves the buffer as it was. *)
Lemma cache_hit_equals_cold_counterexample :
  ∃ c c_hit c_cold,
    state_after_leaf = Some c
    ∧ cache_miss (λ _ _, BooleanType) leaf_c c = Some (false, c_hit)
    ∧ cold_leaf_c c = Some c_cold
    ∧ f_add_stack c_hit = f_add_stack c_cold
    ∧ f_micro_descriptors c_cold = f_micro_descriptors state_before_leaf
    ∧ f_micro_descriptors c_hit
      = f_micro_descriptors state_before_leaf
        ++ f_micro_descriptors state_before_leaf
    ∧ ¬ cache_hit_equals_cold (λ _ _, BooleanType) cold_leaf_c leaf_c c.
Proof.
  do 3 eexists. split_and!; try reflexivity.
  intros H. specialize (H _ _ eq_refl eq_refl).
  vm_compute in H. discriminate H.
Qed.

(** C1 (amended). Let a node [expr] be compiled from cold and its result be
    memoized by [post_node_hook] in a state [c1] (not preprocessing, not a
    type, key not cached yet) whose resolved type [type] is on top of the
    type stack.  In every later state [c2] with the same context and time on
    top and the same cache entry, [cache_miss] reports a hit and
    - re-pushes on the ADD stack the [width(type)] DDs that the cold
      compilation left on top, in the same order (the cached vector is pushed
      in reverse), so the ADD-stack effect equals that of the cold
      compilation;
    - pushes on the type stack the type that the type checker gives to
      [expr] in the context;
    - appends to the microcode buffer every descriptor of the cached unit,
      which is the WHOLE buffer as it stood when the entry was stored;
    - adds to the mux map the cached entries whose toplevel has no entry yet
      (an existing entry is kept);
    and leaves the context stack, the time stack and the cache untouched. *)
Theorem cache_hit_replays_unit (expr ctx : Expr_ptr)
  (time : step_t) (type : Type_ptr) (c1 c1' c2 : Compiler) :
  f_preprocess c1 = false → is_type expr = false →
  head (f_ctx_stack c1) = Some ctx →
  head (f_time_stack c1) = Some time →
  head (f_type_stack c1) = Some type →
  f_cache c1 !! (ctx, expr, time) = None →
  post_node_hook is_type expr c1 = Some c1' →
  head (f_ctx_stack c2) = Some ctx →
  head (f_time_stack c2) = Some time →
  f_cache c2 !! (ctx, expr, time) = f_cache c1' !! (ctx, expr, time) →
  ∃ c3, cache_miss owner_type expr c2 = Some (false, c3)
    ∧ f_add_stack c3 = take (width type) (f_add_stack c1) ++ f_add_stack c2
    ∧ (width type ≤ length (f_add_stack c1))%nat
    ∧ f_type_stack c3 = owner_type expr ctx :: f_type_stack c2
    ∧ f_micro_descriptors c3
      = f_micro_descriptors c2 ++ f_micro_descriptors c1
    ∧ f_mux_map c3 = f_mux_map c2 ∪ f_mux_map c1
    ∧ f_ctx_stack c3 = f_ctx_stack c2
    ∧ f_time_stack c3 = f_time_stack c2
    ∧ f_cache c3 = f_cache c2.
Proof.
  intros Hpre Hty Hctx Htime Htype Hfresh Hhook Hctx2 Htime2 Hentry.
  unfold post_node_hook in Hhook.
  rewrite Hpre, Hty, Hctx, Htime, Htype in Hhook. simpl in Hhook.
  case_decide as Hw; [|done]. injection Hhook as <-.
  simpl in Hentry. rewrite lookup_map_insert_new, Hfresh in Hentry.
  rewrite decide_True in Hentry by done.
  rewrite (cache_miss_hit expr c2 ctx time _ Hctx2 Htime2 Hentry).
  eexists. split; [reflexivity|]. simpl. split_and!; done.
Qed.

End CacheProps.

Section CacheExamples.
Import DD Types Compiler.

(** C1 (witness): the leaf [c] is compiled from cold, cached, and hit. *)
Lemma cache_hit_replays_unit_witness :
  cold_leaf_c state_before_leaf = Some state_cold_leaf
  ∧ post_node_hook (λ _, false) leaf_c state_cold_leaf
    = Some state_cached_leaf
  ∧ ∃ c3,
      cache_miss (λ _ _, BooleanType) leaf_c state_cached_leaf
      = Some (false, c3)
      ∧ f_add_stack c3 = [Bit 0; Bit 0]
      ∧ f_micro_descriptors c3
        = f_micro_descriptors state_cached_leaf
          ++ f_micro_descriptors state_cold_leaf.
Proof.
  split; [reflexivity|]. split; [reflexivity|].
  destruct (cache_hit_replays_unit (λ _ _, BooleanType) (λ _, false)
              leaf_c (IDENT "main") 0 BooleanType
              state_cold_leaf state_cached_leaf state_cached_leaf)
    as (c3 & Hhit & Hadd & _ & _ & Hmicro & _);
    try reflexivity.
  exists c3. split_and!; [exact Hhit|exact Hadd|exact Hmicro].
Defined.

End CacheExamples.

(** ** Backward reachability strategy *)

Section BackwardProps.
Import Compiler Reachability.

Variable solver : list EngineOp → status_t.

Lemma wrap_step_small z : 0 ≤ z ≤ UINT_MAX → wrap_step z = z.
Proof. intros Hz. unfold wrap_step. apply Z.mod_small. lia. Qed.

Lemma send_all_spec ops : ∀ e,
  send_all ops e = mkEngine (engine_name e) (requests e ++ ops) (groups e).
Proof.
  induction ops as [|op ops IH]; intros e.
  - simpl. rewrite app_nil_r. by destruct e.
  - change (send_all (op :: ops) e) with (send_all ops (send op e)).
    rewrite IH. unfold send. simpl. by rewrite <- app_assoc.
Qed.

Lemma unroll_requests_small k r :
  0 ≤ k ≤ UINT_MAX → unroll_requests k r = unroll_requests_at k r.
Proof.
  intros Hk. unfold unroll_requests, unroll_requests_at.
  rewrite (wrap_step_small (UINT_MAX - k)) by lia.
  do 2 f_equal. apply map_ext_in. intros j Hj.
  apply list_elem_of_In, elem_of_seqZ in Hj.
  rewrite (wrap_step_small (UINT_MAX - j)) by lia. done.
Qed.

(** C3. The backward strategy first asserts the compiled target and [INVAR]
    (and the backward and global constraints) at time [UINT_MAX] and solves.
    If this first answer is UNSAT it ends with the status UNREACHABLE and
    with no further request; if it is UNKNOWN it ends at once and leaves the
    status alone; if it is SAT it enters the loop with [k = 0].
    Each iteration [k] opens a fresh group, asserts [INIT] at
    [UINT_MAX - k] in it and solves: SAT ends with the status REACHABLE and
    the witness of [k] steps registered; on UNSAT the last group is
    inverted, [k] is incremented, [TRANS] and [INVAR] (and the global
    constraints) are asserted at [UINT_MAX - k], state uniqueness is asserted
    for every pair [(UINT_MAX - j, UINT_MAX - k)] with [j < k], and only then
    the unreachability proof is attempted: UNSAT ends with the status
    UNREACHABLE, SAT moves on to the next iteration.  The status is the one
    of the object that the strategy returns; it is written only while it is
    still UNKNOWN, at most once: a status that another strategy has set in
    the meantime is kept, and the loop is left as soon as it is seen. *)
Theorem backward_strategy_protocol (r : Reachability) :
  f_positive_time_constraints r = [] →
  let e0 := mkEngine "backward" (goal_requests r ++ [solve]) 0 in
  let settled := λ s : reachability_status_t,
    if decide (f_status r = REACHABILITY_UNKNOWN) then s else f_status r in
  (∃ constraints,
     goal_requests r =
     assert_formula UINT_MAX (f_target_cu r) MAINGROUP
     :: assert_fsm_invar UINT_MAX MAINGROUP :: constraints)
  ∧ (∀ fuel,
       match solver (requests e0) with
       | STATUS_UNSAT =>
           ∃ r', backward_strategy solver fuel r = Some (r', e0)
             ∧ f_status r' = settled REACHABILITY_UNREACHABLE
             ∧ f_witness r' = f_witness r
       | STATUS_UNKNOWN =>
           ∃ r', backward_strategy solver fuel r = Some (r', e0)
             ∧ f_status r' = f_status r ∧ f_witness r' = f_witness r
       | STATUS_SAT =>
           backward_strategy solver fuel r = backward_loop solver fuel 0 r e0
       end)
  ∧ (∀ k e fuel, 0 ≤ k < UINT_MAX →
       let g := S (groups e) in
       let check := requests e ++ witness_check k g in
       let unrolled := check ++ unrolling k r in
       let proof := unrolled ++ [solve] in
       let engine := λ requests, mkEngine (engine_name e) requests g in
       let loop := backward_loop solver (S fuel) k r e in
       match solver check with
       | STATUS_SAT =>
           ∃ r', loop = Some (r', engine check)
             ∧ f_status r' = settled REACHABILITY_REACHABLE
             ∧ f_witness r'
               = (if decide (f_status r = REACHABILITY_UNKNOWN)
                  then Some (mkWitnessRecord (f_target r) k true
                               reach_trace_prfx (wm_autoincrement r))
                  else f_witness r)
       | STATUS_UNKNOWN =>
           ∃ r', loop = Some (r', engine check)
             ∧ f_status r' = f_status r ∧ f_witness r' = f_witness r
       | STATUS_UNSAT =>
           if decide (f_status r = REACHABILITY_UNKNOWN) then
             match solver proof with
             | STATUS_UNSAT =>
                 ∃ r', loop = Some (r', engine proof)
                   ∧ f_status r' = REACHABILITY_UNREACHABLE
                   ∧ f_witness r' = f_witness r
             | STATUS_SAT =>
                 loop = backward_loop solver fuel (k + 1) r (engine proof)
             | STATUS_UNKNOWN =>
                 ∃ r', loop = Some (r', engine proof)
                   ∧ f_status r' = f_status r ∧ f_witness r' = f_witness r
             end
           else
             ∃ r', loop = Some (r', engine unrolled)
               ∧ f_status r' = f_status r ∧ f_witness r' = f_witness r
       end).
Proof.
  intros Hpos e0 settled. subst settled. cbv beta.
  assert (Hinit : ∀ fuel, backward_strategy solver fuel r =
            match solver (requests e0) with
            | STATUS_UNKNOWN => Some (cleanup r, e0)
            | STATUS_UNSAT =>
                Some (cleanup (sync_set_status REACHABILITY_UNREACHABLE r).2, e0)
            | STATUS_SAT => backward_loop solver fuel 0 r e0
            end).
  { intros fuel. unfold backward_strategy. rewrite Hpos.
    unfold engine_solve, send. rewrite send_all_spec. simpl. done. }
  assert (Hiter : ∀ k e, 0 ≤ k < UINT_MAX →
            backward_iteration solver k r e =
            let g := S (groups e) in
            let check := requests e ++ witness_check k g in
            let unrolled := check ++ unrolling k r in
            let proof := unrolled ++ [solve] in
            match solver check with
            | STATUS_UNKNOWN => (r, mkEngine (engine_name e) check g, None)
            | STATUS_SAT =>
                let '(won, r') := sync_set_status REACHABILITY_REACHABLE r in
                if won
                then (register_witness k r',
                      mkEngine (engine_name e) check g, None)
                else (r', mkEngine (engine_name e) check g, Some k)
            | STATUS_UNSAT =>
                if decide (f_status r ≠ REACHABILITY_UNKNOWN)
                then (r, mkEngine (engine_name e) unrolled g, None)
                else
                  match solver proof with
                  | STATUS_UNKNOWN =>
                      (r, mkEngine (engine_name e) proof g, None)
                  | STATUS_SAT =>
                      (r, mkEngine (engine_name e) proof g, Some (k + 1))
                  | STATUS_UNSAT =>
                      ((sync_set_status REACHABILITY_UNREACHABLE r).2,
                       mkEngine (engine_name e) proof g, None)
                  end
            end).
  { intros k e Hk. unfold backward_iteration, engine_new_group, engine_solve.
    rewrite (wrap_step_small (UINT_MAX - k)) by lia.
    rewrite (wrap_step_small (k + 1)) by lia.
    rewrite unroll_requests_small by lia. rewrite send_all_spec.
    unfold send, witness_check, unrolling, sync_status.
    cbv zeta. cbn [requests engine_name groups].
    rewrite <- !app_assoc. cbn [app].
    destruct (solver (requests e ++ _)) eqn:Hcheck; [| |done].
    - by destruct (sync_set_status REACHABILITY_REACHABLE r) as [[] ?].
    - destruct (decide (f_status r ≠ REACHABILITY_UNKNOWN)); [done|].
      by destruct (solver (requests e ++ _)). }
  split; [eexists; reflexivity|].
  destruct (decide (f_status r = REACHABILITY_UNKNOWN)) as [Hu|Hu].
  - (* the status is still unknown: this strategy wins *)
    assert (Hwin : ∀ s, sync_set_status s r = (true, set_status s r)).
    { intros s. unfold sync_set_status. by rewrite decide_True. }
    split.
    + intros fuel. rewrite Hinit.
      destruct (solver (requests e0)); [done| |].
      * rewrite Hwin. by eexists.
      * by eexists.
    + intros k e fuel Hk g check unrolled proof engine loop.
      assert (Hit := Hiter k e Hk). cbv zeta in Hit.
      subst loop engine. cbn [backward_loop]. rewrite Hit. clear Hit.
      fold g. fold check. fold unrolled. fold proof.
      destruct (solver check).
      * rewrite Hwin. by eexists.
      * rewrite decide_False by tauto.
        destruct (solver proof).
        -- unfold sync_status. by rewrite decide_True.
        -- rewrite Hwin. by eexists.
        -- by eexists.
      * by eexists.
  - (* another strategy has set the status *)
    assert (Hlose : ∀ s, sync_set_status s r = (false, r)).
    { intros s. unfold sync_set_status. by rewrite decide_False. }
    split.
    + intros fuel. rewrite Hinit.
      destruct (solver (requests e0)); [done| |].
      * rewrite Hlose. by eexists.
      * by eexists.
    + intros k e fuel Hk g check unrolled proof engine loop.
      assert (Hit := Hiter k e Hk). cbv zeta in Hit.
      subst loop engine. cbn [backward_loop]. rewrite Hit. clear Hit.
      fold g. fold check. fold unrolled. fold proof.
      destruct (solver check).
      * rewrite Hlose. unfold sync_status. rewrite decide_False by done.
        by eexists.
      * rewrite decide_True by done. by eexists.
      * by eexists.
Qed.

End BackwardProps.

Section BackwardExamples.
Import DD Compiler Reachability.

(** C3 (witness): a run that stops at the goal check with the status
    UNREACHABLE, and a run that goes through one witness check and one
    unreachability proof. *)
Lemma backward_strategy_protocol_witness :
  (∃ r', backward_strategy (λ _, STATUS_UNSAT) 1 sample_reachability
         = Some (r', mkEngine "backward"
                       [assert_formula UINT_MAX sample_unit MAINGROUP;
                        assert_fsm_invar UINT_MAX MAINGROUP; solve] 0)
     ∧ f_status r' = REACHABILITY_UNREACHABLE)
  ∧ (∃ r', backward_strategy sample_solver 1 sample_reachability
           = Some (r', mkEngine "backward"
                [assert_formula UINT_MAX sample_unit MAINGROUP;
                 assert_fsm_invar UINT_MAX MAINGROUP; solve;
                 new_group 1; assert_fsm_init UINT_MAX 1; solve;
                 invert_last_group;
                 assert_fsm_trans (UINT_MAX - 1) MAINGROUP;
                 assert_fsm_invar (UINT_MAX - 1) MAINGROUP;
                 assert_fsm_uniqueness UINT_MAX (UINT_MAX - 1); solve] 1)
       ∧ f_status r' = REACHABILITY_UNREACHABLE).
Proof.
  split.
  - destruct (backward_strategy_protocol (λ _, STATUS_UNSAT)
                sample_reachability eq_refl) as (_ & Hgoal & _).
    destruct (Hgoal 1%nat) as (r' & Hrun & Hstatus & _).
    exists r'. split; [exact Hrun|exact Hstatus].
  - destruct (backward_strategy_protocol sample_solver sample_reachability
                eq_refl) as (_ & Hgoal & Hiter).
    specialize (Hgoal 1%nat). cbv zeta in Hgoal.
    change (sample_solver _) with STATUS_SAT in Hgoal. cbv iota in Hgoal.
    specialize (Hiter 0 (mkEngine "backward"
                           (goal_requests sample_reachability ++ [solve]) 0)
                  0%nat ltac:(unfold UINT_MAX; lia)).
    cbv zeta in Hiter.
    change (sample_solver _) with STATUS_UNSAT in Hiter. cbv iota in Hiter.
    destruct Hiter as (r' & Hloop & Hstatus & _).
    exists r'. split; [|exact Hstatus].
    rewrite Hgoal. exact Hloop.
Defined.

End BackwardExamples.

(** * Further properties of the modelled code *)

(** ** Encodings: bits, digits and values *)

Section EncodingValueProps.
Context `{VM : ValueModel}.
Import DD Enc.

Lemma binary_value_acc bs : ∀ acc,
  binary_value acc bs = acc * 2 ^ Z.of_nat (length bs) + binary_value 0 bs.
Proof.
  induction bs as [|b bs IH]; intros acc.
  - unfold binary_value; simpl. lia.
  - unfold binary_value in *; simpl. rewrite (IH (acc * 2 + b)), (IH (0 * 2 + b)).
    rewrite Nat2Z.inj_succ, Z.pow_succ_r by lia. lia.
Qed.

Lemma binary_value_app acc bs1 bs2 :
  binary_value acc (bs1 ++ bs2) = binary_value (binary_value acc bs1) bs2.
Proof. unfold binary_value. by rewrite foldl_app. Qed.

Lemma binary_value_bounds bs :
  Forall (λ b, b = 0 ∨ b = 1) bs →
  0 ≤ binary_value 0 bs < 2 ^ Z.of_nat (length bs).
Proof.
  induction bs as [|b bs IH] using rev_ind; intros Hbs.
  - unfold binary_value; simpl. lia.
  - apply Forall_app in Hbs as [Hbs Hb]. apply Forall_inv in Hb.
    specialize (IH Hbs). rewrite binary_value_app.
    change (binary_value (binary_value 0 bs) [b])
      with (binary_value 0 bs * 2 + b).
    rewrite length_app, Nat2Z.inj_add. simpl length.
    rewrite Z.pow_add_r by lia. change (2 ^ Z.of_nat 1) with 2. lia.
Qed.

(** Every number below [2 ^ n] is the value of [n] binary digits. *)
Lemma binary_value_surjective n : ∀ v,
  0 ≤ v < 2 ^ Z.of_nat n →
  ∃ bs, length bs = n ∧ Forall (λ b, b = 0 ∨ b = 1) bs
        ∧ binary_value 0 bs = v.
Proof.
  induction n as [|n IH]; intros v Hv.
  - exists []. split_and!; [done|constructor|]. simpl in Hv.
    unfold binary_value; simpl. lia.
  - rewrite Nat2Z.inj_succ, Z.pow_succ_r in Hv by lia.
    pose proof (Z.div_mod v 2 ltac:(lia)) as Hdm.
    pose proof (Z.mod_pos_bound v 2 ltac:(lia)) as Hm.
    destruct (IH (v / 2)) as (bs & Hlen & Hbs & Hval).
    { split; [apply Z.div_pos; lia|]. apply Z.div_lt_upper_bound; lia. }
    exists (bs ++ [v mod 2]). split_and!.
    + rewrite length_app. simpl. lia.
    + apply Forall_app. split; [done|]. apply Forall_singleton. lia.
    + rewrite binary_value_app, Hval.
      change (binary_value (v / 2) [v mod 2]) with (v / 2 * 2 + v mod 2). lia.
Qed.

Lemma bit_values_bits A next n :
  Forall (λ b, b = 0 ∨ b = 1) (bit_values A next n).
Proof.
  unfold bit_values. apply Forall_fmap, Forall_forall. intros i _. simpl.
  destruct (A i =? 1); [by right|by left].
Qed.

Lemma length_bit_values A next n : length (bit_values A next n) = n.
Proof. unfold bit_values. by rewrite length_fmap, length_seq. Qed.

Lemma bit_values_app A next n m :
  bit_values A next (n + m) = bit_values A next n ++ bit_values A (next + n) m.
Proof. unfold bit_values. by rewrite seq_app, fmap_app. Qed.

(** The assignment built from binary digits gives them back. *)
Lemma bit_values_assignment_of_bits next bs :
  Forall (λ b, b = 0 ∨ b = 1) bs →
  bit_values (assignment_of_bits next bs) next (length bs) = bs.
Proof.
  intros Hbs. apply list_eq. intros j. unfold bit_values.
  rewrite list_lookup_fmap.
  destruct (bs !! j) as [b|] eqn:Hj.
  - pose proof (lookup_lt_Some _ _ _ Hj) as Hlt.
    rewrite (lookup_seq_lt _ _ _ Hlt). simpl. unfold assignment_of_bits.
    rewrite decide_True by lia.
    replace (next + j - next)%nat with j by lia. rewrite Hj. simpl.
    rewrite Forall_lookup in Hbs. by destruct (Hbs j b Hj) as [->| ->].
  - apply lookup_ge_None in Hj. rewrite lookup_seq_ge by done. done.
Qed.

Lemma make_monolithic_loop_value n : ∀ res b next,
  ∃ res',
    make_monolithic_loop n res b next
    = (res', mkBase (f_dv b) (f_bits b ++ (Bit <$> seq next n)),
       (next + n)%nat)
    ∧ ∀ A, Eval res' A = binary_value (Eval res A) (bit_values A next n).
Proof.
  induction n as [|n IH]; intros res b next.
  - exists res. simpl. rewrite app_nil_r, Nat.add_0_r. by destruct b.
  - cbn [make_monolithic_loop]. unfold make_bit.
    destruct (IH (Plus (Times res (Constant 2)) (Bit next))
                (mkBase (f_dv b) (f_bits b ++ [Bit next])) (S next))
      as (res' & Hloop & Hval).
    exists res'. split.
    + rewrite Hloop. simpl. rewrite <- app_assoc. simpl.
      by rewrite Nat.add_succ_r.
    + intros A. rewrite Hval. reflexivity.
Qed.

Lemma make_monolithic_encoding_spec nbits b next :
  (0 < nbits)%nat →
  ∃ res,
    make_monolithic_encoding nbits b next
    = Some (res, mkBase (f_dv b) (f_bits b ++ (Bit <$> seq next nbits)),
            (next + nbits)%nat)
    ∧ ∀ A, Eval res A = binary_value 0 (bit_values A next nbits).
Proof.
  intros Hn. unfold make_monolithic_encoding, make_bit.
  rewrite decide_True by done.
  destruct (make_monolithic_loop_value (nbits - 1) (Bit next)
              (mkBase (f_dv b) (f_bits b ++ [Bit next])) (S next))
    as (res & Hloop & Hval).
  exists res. rewrite Hloop. simpl. split.
  - rewrite <- app_assoc. simpl.
    replace nbits with (S (nbits - 1)) at 2 3 by lia. simpl.
    do 3 f_equal. lia.
  - intros A. rewrite Hval.
    replace nbits with (S (nbits - 1)) at 2 by lia. reflexivity.
Qed.

(** X1. [make_monolithic_encoding] fails on a request for 0 bits; for
    [nbits > 0] it appends to [f_bits] exactly the [nbits] fresh variables
    [next .. next + nbits - 1], leaves [f_dv] alone, and returns an ADD whose
    value under every assignment is the binary number spelled by these
    variables, first variable most significant; this value ranges exactly
    over [0 .. 2^nbits - 1]. *)
Theorem make_monolithic_encoding_value (nbits : nat) (b : Encoding_base)
  (next : nat) :
  make_monolithic_encoding 0 b next = None
  ∧ ((0 < nbits)%nat →
     ∃ res,
       make_monolithic_encoding nbits b next
       = Some (res, mkBase (f_dv b) (f_bits b ++ (Bit <$> seq next nbits)),
               (next + nbits)%nat)
       ∧ (∀ A, Eval res A = binary_value 0 (bit_values A next nbits)
               ∧ 0 ≤ Eval res A < 2 ^ Z.of_nat nbits)
       ∧ (∀ v, 0 ≤ v < 2 ^ Z.of_nat nbits → ∃ A, Eval res A = v)).
Proof.
  split; [done|]. intros Hn.
  destruct (make_monolithic_encoding_spec nbits b next Hn) as (res & Hctor & Hval).
  exists res. split_and!; [done| |].
  - intros A. split; [done|]. rewrite Hval.
    pose proof (binary_value_bounds _ (bit_values_bits A next nbits)) as Hb.
    by rewrite length_bit_values in Hb.
  - intros v Hv.
    destruct (binary_value_surjective nbits v Hv) as (bs & Hlen & Hbs & Hbv).
    exists (assignment_of_bits next bs). rewrite Hval, <- Hlen.
    by rewrite bit_values_assignment_of_bits.
Qed.

(** X1 (witness): two bits from variable 0 on. *)
Lemma make_monolithic_encoding_value_witness :
  ∃ res, make_monolithic_encoding 2 empty_base 0
         = Some (res, mkBase [] [Bit 0; Bit 1], 2%nat)
    ∧ ∀ A, 0 ≤ Eval res A < 4.
Proof.
  destruct (proj2 (make_monolithic_encoding_value 2 empty_base 0))
    as (res & Hctor & Hval & _); [lia|].
  exists res. split; [exact Hctor|]. intros A. exact (proj2 (Hval A)).
Defined.

Lemma advance_spec n : ∀ pos, advance n pos = (pos + n)%nat.
Proof.
  induction n as [|n IH]; intros pos; cbn [advance]; [lia|].
  rewrite IH. lia.
Qed.

Lemma algebraic_fresh_loop_value n : ∀ b next,
  ∃ ds,
    algebraic_fresh_loop n b next
    = Some (mkBase (f_dv b ++ ds)
              (f_bits b ++ (Bit <$> seq next (n * NIBBLE_SIZE))),
            (next + n * NIBBLE_SIZE)%nat)
    ∧ length ds = n
    ∧ ∀ k d, ds !! k = Some d →
        ∀ A, Eval d A
             = binary_value 0 (bit_values A (next + k * NIBBLE_SIZE) NIBBLE_SIZE).
Proof.
  induction n as [|n IH]; intros b next; cbn [algebraic_fresh_loop].
  - exists []. simpl. rewrite !app_nil_r, Nat.add_0_r. split_and!; try done.
    by destruct b.
  - destruct (make_monolithic_encoding_spec NIBBLE_SIZE b next)
      as (res & -> & Hres); [unfold NIBBLE_SIZE; lia|].
    cbn [mbind option_bind f_dv f_bits].
    destruct (IH (mkBase (f_dv b ++ [res])
                    (f_bits b ++ (Bit <$> seq next NIBBLE_SIZE)))
                 (next + NIBBLE_SIZE)%nat) as (ds & -> & Hlen & Hds).
    exists (res :: ds). cbn [f_dv f_bits]. split_and!.
    + rewrite <- !app_assoc. cbn [app].
      replace (S n * NIBBLE_SIZE)%nat with (NIBBLE_SIZE + n * NIBBLE_SIZE)%nat
        by lia.
      rewrite seq_app, fmap_app. f_equal. f_equal. lia.
    + simpl. by rewrite Hlen.
    + intros [|k] d Hk A; simpl in Hk.
      * injection Hk as <-. rewrite Hres. do 2 f_equal. lia.
      * rewrite (Hds k d Hk A). do 2 f_equal. lia.
Qed.

(** The digits of a DD vector, read by Horner's scheme in base 16, spell the
    same number as the bits they are built from, read in base 2. *)
Lemma horner_digits_bits A ds : ∀ next acc,
  (∀ k d, ds !! k = Some d →
     Eval d A
     = binary_value 0 (bit_values A (next + k * NIBBLE_SIZE) NIBBLE_SIZE)) →
  horner acc (digit_values ds A)
  = binary_value acc (bit_values A next (length ds * NIBBLE_SIZE)).
Proof.
  induction ds as [|d ds IH]; intros next acc Hds; [done|].
  change (horner acc (digit_values (d :: ds) A))
    with (horner (acc * 16 + Eval d A) (digit_values ds A)).
  rewrite (IH (next + NIBBLE_SIZE)%nat).
  - change (length (d :: ds) * NIBBLE_SIZE)%nat
      with (NIBBLE_SIZE + length ds * NIBBLE_SIZE)%nat.
    rewrite bit_values_app, binary_value_app. f_equal.
    rewrite (binary_value_acc _ acc), length_bit_values.
    rewrite (Hds 0%nat d eq_refl), Nat.add_0_r. reflexivity.
  - intros k d' Hk. rewrite (Hds (S k) d' Hk). do 2 f_equal. lia.
Qed.

Lemma algebraic_wrap_loop_take dds : ∀ n i b,
  (i ≤ length dds)%nat →
  algebraic_wrap_loop n i dds b =
  if decide (i + n ≤ length dds)%nat
  then Some (mkBase (f_dv b ++ take n (drop i dds)) (f_bits b))
  else None.
Proof.
  induction n as [|n IH]; intros i b Hi; cbn [algebraic_wrap_loop].
  - rewrite decide_True by lia. rewrite take_0, app_nil_r. by destruct b.
  - destruct (dds !! i) as [d|] eqn:Hd; cbn [mbind option_bind].
    + pose proof (lookup_lt_Some _ _ _ Hd) as Hlt.
      rewrite IH by lia. cbn [f_dv f_bits].
      repeat case_decide; try lia; [|done].
      rewrite (drop_S _ _ _ Hd). cbn [take]. by rewrite <- app_assoc.
    + apply lookup_ge_None in Hd. rewrite decide_False by lia. done.
Qed.

(** X2. The constructor of a fresh algebraic encoding (no DD array given)
    always succeeds: it allocates [width * NIBBLE_SIZE] consecutive variables,
    all recorded in [f_bits] in allocation order, and builds [width] digits.
    For every digit [k < width], [bits_begin(k)] and [bits_end(k)] delimit
    the four bits of the digit, and the digit's ADD evaluates to the binary
    number spelled by exactly these bits (first bit most significant);
    [bits_begin] and [bits_end] fail for [k >= width]. *)
Theorem algebraic_encoding_digits (width fract : nat) (sgn : bool)
  (next : nat) :
  ∃ enc,
    AlgebraicEncoding width fract sgn None next
    = Some (enc, (next + width * NIBBLE_SIZE)%nat)
    ∧ bits enc = Bit <$> seq next (width * NIBBLE_SIZE)
    ∧ length (dv enc) = width
    ∧ (∀ k, (k < width)%nat →
         bits_begin enc k = Some (k * NIBBLE_SIZE)%nat
         ∧ bits_end enc k = Some (k * NIBBLE_SIZE + NIBBLE_SIZE)%nat
         ∧ ∃ d, dv enc !! k = Some d
             ∧ ∀ A, Eval d A
                    = binary_value 0
                        ((λ x, Eval x A)
                           <$> take NIBBLE_SIZE
                                 (drop (k * NIBBLE_SIZE) (bits enc))))
    ∧ (∀ k, (width ≤ k)%nat →
         bits_begin enc k = None ∧ bits_end enc k = None).
Proof.
  unfold AlgebraicEncoding.
  destruct (algebraic_fresh_loop_value width empty_base next)
    as (ds & -> & Hlen & Hds).
  cbn [mbind option_bind]. eexists. split; [reflexivity|].
  unfold bits, dv. cbn [base_of f_dv f_bits empty_base app].
  split_and!; [done|done| |].
  - intros k Hk. cbn [bits_begin bits_end].
    rewrite !decide_True by done. cbn [f_bits mbind option_bind].
    rewrite !advance_spec. cbn [Nat.add]. split_and!; [done|done|].
    assert (Hle : (k * NIBBLE_SIZE + NIBBLE_SIZE ≤ width * NIBBLE_SIZE)%nat)
      by (unfold NIBBLE_SIZE; lia).
    destruct (lookup_lt_is_Some_2 ds k) as [d Hd]; [lia|].
    exists d. split; [done|]. intros A. rewrite (Hds k d Hd A). f_equal.
    rewrite <- fmap_drop, <- fmap_take, <- list_fmap_compose.
    unfold bit_values. f_equal.
    rewrite drop_seq, take_seq. f_equal. lia.
  - intros k Hk. cbn [bits_begin bits_end]. by rewrite !decide_False by lia.
Qed.

(** X3. On a fresh algebraic encoding of width [W >= 1] whose numbers are
    values of [value_t] and exact in double precision ([16 ^ W - 1] within
    [value_max], [16 ^ W] at most [2 ^ 53]), [expr] decodes every assignment
    to a numeric literal in [0 .. 16^W - 1], and every number in that range
    is decoded from some assignment: the encoding represents exactly the
    [W]-digit hexadecimal numbers. *)
Theorem algebraic_encoding_values (width fract : nat) (sgn : bool)
  (next : nat) :
  (0 < width)%nat →
  16 ^ Z.of_nat width ≤ DOUBLE_EXACT →
  16 ^ Z.of_nat width - 1 ≤ value_max →
  ∃ enc next',
    AlgebraicEncoding width fract sgn None next = Some (enc, next')
    ∧ (∀ A, ∃ v, expr enc A = Some (ICONST v)
                 ∧ 0 ≤ v < 16 ^ Z.of_nat width)
    ∧ (∀ v, 0 ≤ v < 16 ^ Z.of_nat width →
            ∃ A, expr enc A = Some (ICONST v)).
Proof.
  intros HW Hdbl Hmax. unfold AlgebraicEncoding.
  destruct (algebraic_fresh_loop_value width empty_base next)
    as (ds & -> & Hlen & Hds).
  cbn [mbind option_bind]. do 2 eexists. split; [reflexivity|].
  cbn [f_dv empty_base app].
  assert (Hnib : ∀ A, Forall (λ d, 0 ≤ Eval d A < 16) ds).
  { intros A. apply Forall_lookup_2. intros k d Hk. rewrite (Hds k d Hk A).
    pose proof (binary_value_bounds _
                  (bit_values_bits A (next + k * NIBBLE_SIZE) NIBBLE_SIZE))
      as Hb.
    rewrite length_bit_values in Hb. exact Hb. }
  assert (Hexpr : ∀ A, expr (AlgebraicEncoding_
                               (mkBase ds (Bit <$> seq next (width * NIBBLE_SIZE)))
                               width fract sgn false) A
            = Some (ICONST (binary_value 0
                              (bit_values A next (width * NIBBLE_SIZE))))).
  { intros A. rewrite algebraic_expr_big_endian by done. cbn [f_dv].
    rewrite <- horner_big_endian.
    rewrite (horner_digits_bits A ds next 0), Hlen; [done|].
    intros k d Hk. by apply Hds. }
  assert (Hpow : 16 ^ Z.of_nat width = 2 ^ Z.of_nat (width * NIBBLE_SIZE)).
  { unfold NIBBLE_SIZE.
    rewrite Nat2Z.inj_mul, (Z.mul_comm (Z.of_nat width)), Z.pow_mul_r by lia.
    reflexivity. }
  split.
  - intros A. eexists. split; [apply Hexpr|]. rewrite Hpow.
    pose proof (binary_value_bounds _
                  (bit_values_bits A next (width * NIBBLE_SIZE))) as Hb.
    by rewrite length_bit_values in Hb.
  - intros v Hv. rewrite Hpow in Hv.
    destruct (binary_value_surjective _ v Hv) as (bs & Hbl & Hbs & Hbv).
    exists (assignment_of_bits next bs). rewrite Hexpr, <- Hbl.
    by rewrite bit_values_assignment_of_bits, Hbv.
Qed.

(** X4. Wrapping an array of at least [width] DDs in a temporary algebraic
    encoding takes the first [width] DDs of the array as digits and allocates
    nothing.  A temporary encoding records no bits, and yet [bits_begin(k)]
    and [bits_end(k)] answer for every digit [k < width] as they do on an
    encoding that owns its bits, with the positions [4k] and [4k + 4]:
    [bits_end(k)] always lies past the end of the empty bit vector, so the
    range that the two delimit holds no bit of the encoding. *)
Theorem algebraic_encoding_temporary (width fract : nat) (sgn : bool)
  (dds : list ADD) (next : nat) :
  (width ≤ length dds)%nat →
  let enc := AlgebraicEncoding_ (mkBase (take width dds) []) width fract sgn
               true in
  AlgebraicEncoding width fract sgn (Some dds) next = Some (enc, next)
  ∧ bits enc = []
  ∧ (∀ k, (k < width)%nat →
       bits_begin enc k = Some (k * NIBBLE_SIZE)%nat
       ∧ bits_end enc k = Some (k * NIBBLE_SIZE + NIBBLE_SIZE)%nat
       ∧ (length (bits enc) < k * NIBBLE_SIZE + NIBBLE_SIZE)%nat)
  ∧ (∀ k, (width ≤ k)%nat →
       bits_begin enc k = None ∧ bits_end enc k = None).
Proof.
  intros Hlen enc. split_and!.
  - unfold AlgebraicEncoding.
    rewrite algebraic_wrap_loop_take by lia. cbn [Nat.add].
    rewrite decide_True by done. simpl. by rewrite drop_0.
  - done.
  - intros k Hk. subst enc. cbn [bits_end bits_begin].
    rewrite !decide_True by done. cbn [mbind option_bind].
    rewrite !advance_spec. cbn [Nat.add]. split_and!; [done|done|].
    unfold bits. cbn [base_of f_bits length]. unfold NIBBLE_SIZE. lia.
  - intros k Hk. subst enc. cbn [bits_begin bits_end].
    by rewrite !decide_False by lia.
Qed.

(** X5. The boolean encoding owns exactly one fresh variable, which is both
    its DD vector and its bit list and is what [bit()] returns; [expr]
    decodes an assignment to [TRUE] exactly when this variable is assigned 1,
    and to [FALSE] otherwise. *)
Theorem boolean_encoding_roundtrip (next : nat) (A : assignment) :
  ∃ enc,
    BooleanEncoding next = (enc, S next)
    ∧ dv enc = [Bit next] ∧ bits enc = [Bit next]
    ∧ bit enc = Some (Bit next)
    ∧ expr enc A = Some (if A next =? 1 then make_true else make_false).
Proof.
  eexists. split; [reflexivity|]. split_and!; try reflexivity.
  simpl. by destruct (A next =? 1).
Qed.

(** X6. The enum constructor fails on an empty literal set; when it
    succeeds, the monolithic ADD it has built is not stored: the DD vector
    of the encoding is empty although its bits are recorded, so [expr] finds
    no ADD to evaluate and has no defined result, whatever the assignment. *)
Theorem enum_encoding_expr_undefined (lits : list Expr_ptr) (next : nat)
  (enc : Encoding) (next' : nat) :
  EnumEncoding lits next = Some (enc, next') →
  lits ≠ []
  ∧ dv enc = []
  ∧ bits enc = Bit <$> seq next (next' - next)
  ∧ (next < next')%nat
  ∧ ∀ A, expr enc A = None.
Proof.
  unfold EnumEncoding. intros Hctor.
  destruct (range_repr_bits (Z.of_nat (length lits))) as [nbits|] eqn:Hbits;
    [|done].
  cbn [mbind option_bind] in Hctor.
  assert (Hlits : lits ≠ []).
  { intros ->. by vm_compute in Hbits. }
  assert (Hpos : (0 < nbits)%nat).
  { rewrite range_repr_bits_spec in Hbits
      by (destruct lits; simpl; [done|lia]).
    injection Hbits as <-. lia. }
  destruct (make_monolithic_encoding_spec nbits empty_base next Hpos)
    as (res & Hmono & _).
  rewrite Hmono in Hctor. cbn [mbind option_bind] in Hctor.
  destruct (enum_maps_loop lits 0 ∅ ∅) as [v2e e2v].
  injection Hctor as <- <-. unfold dv, bits. cbn [base_of f_dv f_bits empty_base app].
  split_and!; try done.
  - do 2 f_equal. lia.
  - lia.
Qed.

End EncodingValueProps.

Section EncodingValueExamples.
Import DD Enc.

#[local] Existing Instance sample_value_model.

(** X3 (witness): one digit and a 64-bit [value_t]; the assignment that
    sets the variables 0 and 3 decodes to 9. *)
Lemma algebraic_encoding_values_witness :
  ∃ enc next',
    AlgebraicEncoding 1 0 false None 0 = Some (enc, next')
    ∧ (∀ A, ∃ v, expr enc A = Some (ICONST v) ∧ 0 ≤ v < 16)
    ∧ ∃ A, expr enc A = Some (ICONST 9).
Proof.
  destruct (algebraic_encoding_values 1 0 false 0) as (enc & next' & H1 & H2 & H3);
    [lia|by vm_compute|by vm_compute|].
  exists enc, next'. split_and!; [exact H1|exact H2|].
  apply H3. lia.
Defined.

(** X4 (witness): two digits taken from an array of three DDs. *)
Lemma algebraic_encoding_temporary_witness :
  AlgebraicEncoding 2 0 false (Some [Bit 0; Bit 1; Bit 2]) 7
  = Some (AlgebraicEncoding_ (mkBase [Bit 0; Bit 1] []) 2 0 false true, 7%nat)
  ∧ bits_end (AlgebraicEncoding_ (mkBase [Bit 0; Bit 1] []) 2 0 false true) 1
    = Some 8%nat.
Proof.
  destruct (algebraic_encoding_temporary 2 0 false [Bit 0; Bit 1; Bit 2] 7)
    as (Hctor & _ & Hbits & _); [simpl; lia|].
  split; [exact Hctor|]. destruct (Hbits 1%nat) as (_ & Hend & _); [lia|].
  exact Hend.
Defined.

(** X6 (witness): the four literals [A, B, C, D]. *)
Lemma enum_encoding_expr_undefined_witness :
  ∃ enc next', EnumEncoding four_literals 0 = Some (enc, next')
    ∧ dv enc = [] ∧ (0 < next')%nat
    ∧ ∀ A, expr enc A = None.
Proof.
  destruct (EnumEncoding four_literals 0) as [[enc next']|] eqn:Hctor.
  - destruct (enum_encoding_expr_undefined four_literals 0 enc next' Hctor)
      as (_ & Hdv & _ & Hnext & Hexpr).
    exists enc, next'. split_and!; [reflexivity|exact Hdv|exact Hnext|exact Hexpr].
  - exfalso. unfold EnumEncoding in Hctor.
    rewrite range_repr_bits_spec in Hctor by (simpl; lia).
    cbn [mbind option_bind] in Hctor.
    destruct (make_monolithic_encoding_spec
                (S (Z.to_nat (Z.log2 (Z.of_nat (length four_literals)))))
                empty_base 0) as (res & Hmono & _); [lia|].
    rewrite Hmono in Hctor. cbn [mbind option_bind] in Hctor.
    destruct (enum_maps_loop four_literals 0 ∅ ∅). discriminate Hctor.
Defined.

End EncodingValueExamples.

(** ** Compiler internals: stacks, side tables and the cache *)

Section InternalsProps.
Import DD Types Compiler.

Variable owner_type : Expr_ptr → Expr_ptr → Type_ptr.
Variable is_type : Expr_ptr → bool.

Lemma is_monolithic_width type : is_monolithic type = true → width type = 1%nat.
Proof. by destruct type. Qed.

(** What [push_dds] does for a monolithic or algebraic type. *)
Lemma push_dds_scalar enc_dv type c c1 :
  is_monolithic type || is_algebraic type = true →
  push_dds enc_dv type c = Some c1 →
  let pushed := if is_monolithic type then take 1 enc_dv else enc_dv in
  c1 = mkCompiler (pushed ++ f_add_stack c) (type :: f_type_stack c)
         (f_ctx_stack c) (f_time_stack c) (f_micro_descriptors c)
         (f_mux_map c) (f_cache c) (f_preprocess c)
  ∧ length pushed = width type.
Proof.
  intros Hty. unfold push_dds. destruct enc_dv as [|d dv]; [done|].
  rewrite decide_True by (simpl; lia).
  destruct (is_monolithic type) eqn:Hm.
  - simpl. intros [= <-]. split; [done|]. by rewrite is_monolithic_width.
  - simpl in Hty. rewrite Hty. case_decide as Hw; [|done].
    intros [= <-]. rewrite push_reversed_app. split; [done|]. by rewrite Hw.
Qed.

(** X7. A leaf of monolithic or algebraic type that is compiled from cold
    by [push_dds] and then memoized by [post_node_hook]: [push_dds] pushes
    the type and, on top of the ADD stack, the DD vector of the encoding in
    its own order (digit 0 on top; only the first DD for a monolithic type);
    the hook stores exactly these DDs, in the order of the encoding, under
    the key; and a later hit on this entry rebuilds the ADD stack that
    [push_dds] had left. *)
Theorem push_dds_then_hook_caches_encoding (expr ctx : Expr_ptr)
  (time : step_t) (enc_dv : DDVector) (type : Type_ptr) (c c1 c2 : Compiler) :
  is_monolithic type || is_algebraic type = true →
  f_preprocess c = false → is_type expr = false →
  head (f_ctx_stack c) = Some ctx → head (f_time_stack c) = Some time →
  f_cache c !! (ctx, expr, time) = None →
  push_dds enc_dv type c = Some c1 →
  post_node_hook is_type expr c1 = Some c2 →
  let pushed := if is_monolithic type then take 1 enc_dv else enc_dv in
  f_add_stack c1 = pushed ++ f_add_stack c
  ∧ f_type_stack c1 = type :: f_type_stack c
  ∧ f_cache c2 !! (ctx, expr, time)
    = Some (mkCompilationUnit pushed (f_micro_descriptors c) (f_mux_map c))
  ∧ ∃ c3, cache_miss owner_type expr (set_cache (f_cache c2) c)
          = Some (false, c3)
       ∧ f_add_stack c3 = f_add_stack c1.
Proof.
  intros Hty Hpre Hnt Hctx Htime Hfresh Hpush Hhook pushed.
  destruct (push_dds_scalar enc_dv type c c1 Hty Hpush) as [-> Hlen].
  fold pushed in Hlen, Hhook |- *.
  unfold post_node_hook in Hhook. cbn [f_preprocess f_ctx_stack f_time_stack
    f_type_stack f_add_stack f_micro_descriptors f_mux_map f_cache] in Hhook.
  rewrite Hpre, Hnt, Hctx, Htime in Hhook. cbn [mbind option_bind head] in Hhook.
  rewrite decide_True in Hhook by (rewrite length_app; lia).
  rewrite take_app_length' in Hhook by done.
  injection Hhook as <-. cbn [f_add_stack f_type_stack f_cache set_cache].
  assert (Hentry : map_insert_new (ctx, expr, time)
                     (mkCompilationUnit pushed (f_micro_descriptors c)
                        (f_mux_map c)) (f_cache c) !! (ctx, expr, time)
            = Some (mkCompilationUnit pushed (f_micro_descriptors c)
                      (f_mux_map c))).
  { rewrite lookup_map_insert_new, Hfresh. by rewrite decide_True. }
  split_and!; [done|done|done|].
  eexists. split.
  - exact (cache_miss_hit owner_type expr (set_cache _ c) ctx time _
             Hctx Htime Hentry).
  - done.
Qed.

(** X8. An array encoding built from [n >= 1] element encodings of [w]
    digits each is accepted by [push_dds] for the type "array of [n]
    algebraic values of width [w]": the [n * w] DDs are pushed with the DDs
    of element 0 on top (each element in the order of its own DD vector),
    and the array type is pushed on the type stack. *)
Theorem push_dds_array_encoding (elements : list Enc.Encoding)
  (of_ : Type_ptr) (c : Compiler) :
  elements ≠ [] → is_algebraic of_ = true → (0 < width of_)%nat →
  Forall (λ e, length (Enc.dv e) = width of_) elements →
  ∃ enc, Enc.ArrayEncoding elements = Some enc
    ∧ length (Enc.dv enc) = (length elements * width of_)%nat
    ∧ push_dds (Enc.dv enc) (ArrayType of_ (length elements)) c
      = Some (mkCompiler (concat (Enc.dv <$> elements) ++ f_add_stack c)
                (ArrayType of_ (length elements) :: f_type_stack c)
                (f_ctx_stack c) (f_time_stack c) (f_micro_descriptors c)
                (f_mux_map c) (f_cache c) (f_preprocess c)).
Proof.
  intros Hne Halg Hw Hall.
  assert (Hn : (0 < length elements)%nat) by (destruct elements; simpl; [done|lia]).
  unfold Enc.ArrayEncoding. rewrite decide_True by done.
  eexists. split; [reflexivity|]. unfold Enc.dv at 1 3. cbn [Enc.base_of Enc.f_dv].
  rewrite foldl_app_dv. cbn [app].
  assert (Hlen : length (concat (Enc.dv <$> elements))
                 = (length elements * width of_)%nat).
  { clear Hne Hn. induction Hall as [|e l He Hl IH]; [done|].
    rewrite fmap_cons. cbn [concat]. rewrite length_app, IH, He. simpl. lia. }
  split; [done|]. unfold push_dds. rewrite Hlen.
  rewrite decide_True by nia. cbn [is_monolithic is_boolean is_enumerative
    is_algebraic orb].
  rewrite Halg. cbn [andb].
  replace (length elements =? 0)%nat with false
    by (symmetry; apply Nat.eqb_neq; lia).
  rewrite (Nat.mul_comm (length elements)), Nat.div_mul by lia.
  rewrite Nat.eqb_refl. cbn [negb andb].
  by rewrite push_reversed_app.
Qed.

(** X9. [register_muxdescriptor] appends the new descriptor to the list of
    its toplevel, creating the list when the toplevel has none, and changes
    nothing else: the lists of the other toplevels, the stacks, the microcode
    buffer and the cache stay as they are. *)
Theorem register_muxdescriptor_lookup (toplevel T : Expr_ptr) (width : nat)
  (z : DDVector) (cnd aux : ADD) (x y : DDVector) (c : Compiler) :
  let c' := register_muxdescriptor toplevel width z cnd aux x y c in
  f_mux_map c' !! T
  = (if decide (T = toplevel)
     then Some (default [] (f_mux_map c !! toplevel)
                ++ [mkMuxDescriptor width z cnd aux x y])
     else f_mux_map c !! T)
  ∧ f_add_stack c' = f_add_stack c ∧ f_type_stack c' = f_type_stack c
  ∧ f_micro_descriptors c' = f_micro_descriptors c
  ∧ f_cache c' = f_cache c.
Proof.
  intros c'. split_and!; try done. subst c'.
  unfold register_muxdescriptor. cbn [f_mux_map set_mux_map].
  case_decide as HT.
  - subst T. rewrite lookup_alter, lookup_map_insert_new.
    rewrite decide_True by done.
    destruct (f_mux_map c !! toplevel); simpl; [done|].
    by rewrite decide_True.
  - rewrite lookup_alter, decide_False by congruence.
    rewrite lookup_map_insert_new.
    destruct (f_mux_map c !! T); [done|]. by rewrite decide_False by congruence.
Qed.

Lemma length_mux_activation ds : length (mux_activation ds []) = length ds.
Proof.
  unfold mux_activation. rewrite foldl_mux_activation_step, app_nil_r.
  by rewrite length_reverse, activation_clauses_length, length_reverse.
Qed.

(** X10. The MUX post-processing pass only pushes: it leaves the old ADD
    stack below what it adds, it adds exactly one conjunct per registered
    descriptor (summed over all toplevels), and it changes no other part of
    the compiler state; with an empty mux map it does nothing. *)
Theorem post_process_muxes_count (c : Compiler) :
  (∃ pushed,
     f_add_stack (post_process_muxes c) = pushed ++ f_add_stack c
     ∧ length pushed
       = sum_list ((λ entry, length entry.2) <$> map_to_list (f_mux_map c)))
  ∧ set_add_stack (f_add_stack c) (post_process_muxes c) = c
  ∧ (f_mux_map c = ∅ → post_process_muxes c = c).
Proof.
  split_and!.
  - unfold post_process_muxes. cbn [f_add_stack set_add_stack].
    rewrite foldl_mux_entries. eexists. split; [reflexivity|].
    induction (map_to_list (f_mux_map c)) as [|entry L IH]; [done|].
    rewrite fmap_cons, reverse_cons, concat_app, length_app, IH.
    cbn [concat]. rewrite app_nil_r, length_mux_activation.
    rewrite fmap_cons. cbn [sum_list]. unfold id. lia.
  - by destruct c.
  - intros Hempty. unfold post_process_muxes. rewrite Hempty, map_to_list_empty.
    by destruct c.
Qed.

(** X11. The memoization cache is append-only and the side tables only
    grow: an entry of the cache survives, unchanged, every operation of the
    compiler internals ([post_node_hook] never overwrites it, the other
    operations do not write the cache at all, [clear_internals] included);
    a hit extends the microcode buffer at its end and keeps every list of
    the mux map; registering a descriptor extends the buffer at its end. *)
Theorem cache_entries_are_kept (key : FQExpr) (unit : CompilationUnit)
  (c : Compiler) :
  f_cache c !! key = Some unit →
  (∀ expr c', post_node_hook is_type expr c = Some c' →
              f_cache c' !! key = Some unit
              ∧ set_cache (f_cache c) c' = c)
  ∧ (∀ expr b c', cache_miss owner_type expr c = Some (b, c') →
       f_cache c' = f_cache c
       ∧ f_micro_descriptors c `prefix_of` f_micro_descriptors c'
       ∧ ∀ T ds, f_mux_map c !! T = Some ds → f_mux_map c' !! T = Some ds)
  ∧ (∀ dv type c', push_dds dv type c = Some c' → f_cache c' = f_cache c)
  ∧ (∀ sgn symb w z x y,
       let c' := register_microdescriptor sgn symb w z x y c in
       f_cache c' = f_cache c
       ∧ f_micro_descriptors c `prefix_of` f_micro_descriptors c')
  ∧ (∀ T w z cnd aux x y,
       f_cache (register_muxdescriptor T w z cnd aux x y c) = f_cache c)
  ∧ f_cache (post_process_muxes c) = f_cache c
  ∧ f_cache (clear_internals c) = f_cache c.
Proof.
  intros Hkey. split_and!; try done.
  - intros expr c' Hhook. unfold post_node_hook in Hhook.
    destruct (f_preprocess c); [injection Hhook as <-; split; [done|by destruct c]|].
    destruct (is_type expr); [injection Hhook as <-; split; [done|by destruct c]|].
    destruct (head (f_ctx_stack c)) as [ctx|]; [|done].
    destruct (head (f_time_stack c)) as [time|]; [|done].
    destruct (head (f_type_stack c)) as [type|]; [|done].
    cbn [mbind option_bind] in Hhook. case_decide; [|done].
    injection Hhook as <-. cbn [f_cache set_cache]. split; [|by destruct c].
    by rewrite lookup_map_insert_new, Hkey.
  - intros expr b c' Hmiss. unfold cache_miss in Hmiss.
    destruct (head (f_ctx_stack c)) as [ctx|] eqn:Hctx; [|done].
    destruct (head (f_time_stack c)) as [time|] eqn:Htime; [|done].
    cbn [mbind option_bind] in Hmiss.
    destruct (f_cache c !! (ctx, expr, time)) as [u|] eqn:Hu.
    + injection Hmiss as <- <-. cbn. split_and!; [done|by eexists|].
      intros T ds HT. rewrite insert_muxes_union.
      by apply lookup_union_Some_l.
    + injection Hmiss as <- <-. done.
  - intros dv type c' Hpush. unfold push_dds in Hpush.
    case_decide; [|done].
    destruct (is_monolithic type).
    { destruct (dv !! 0%nat); [|done]. by injection Hpush as <-. }
    destruct (is_algebraic type).
    { case_decide; [|done]. by injection Hpush as <-. }
    destruct type; try done.
    destruct (_ && _); [|done]. by injection Hpush as <-.
  - intros sgn symb w z x y c'. split; [done|]. by eexists.
Qed.

End InternalsProps.

Section InternalsExamples.
Import DD Types Compiler.

(** X7 (witness): the two digits of [w] are pushed, memoized and hit. *)
Lemma push_dds_then_hook_caches_encoding_witness :
  push_dds sample_digits (UnsignedAlgebraicType 2) sample_compiler
  = Some sample_pushed
  ∧ post_node_hook (λ _, false) sample_word sample_pushed
    = Some sample_memoized
  ∧ f_cache sample_memoized !! (IDENT "main", sample_word, 0)
    = Some (mkCompilationUnit sample_digits [] ∅)
  ∧ ∃ c3, cache_miss (λ _ _, UnsignedAlgebraicType 2) sample_word
            (set_cache (f_cache sample_memoized) sample_compiler)
          = Some (false, c3)
       ∧ f_add_stack c3 = sample_digits.
Proof.
  split; [reflexivity|]. split; [reflexivity|].
  destruct (push_dds_then_hook_caches_encoding
              (λ _ _, UnsignedAlgebraicType 2) (λ _, false)
              sample_word (IDENT "main") 0 sample_digits
              (UnsignedAlgebraicType 2)
              sample_compiler sample_pushed sample_memoized)
    as (_ & _ & Hentry & c3 & Hhit & Hstk); try reflexivity.
  split; [exact Hentry|]. exists c3. split; [exact Hhit|exact Hstk].
Defined.

(** X8 (witness): an array of two words of two digits each. *)
Lemma push_dds_array_encoding_witness :
  ∃ enc, Enc.ArrayEncoding [sample_element 0; sample_element 2] = Some enc
    ∧ f_add_stack
        <$> push_dds (Enc.dv enc) (ArrayType (UnsignedAlgebraicType 2) 2)
              sample_compiler
      = Some [Bit 0; Bit 1; Bit 2; Bit 3].
Proof.
  destruct (push_dds_array_encoding [sample_element 0; sample_element 2]
              (UnsignedAlgebraicType 2) sample_compiler)
    as (enc & Hctor & _ & Hpush).
  - discriminate.
  - reflexivity.
  - simpl. lia.
  - repeat constructor.
  - exists enc. split; [exact Hctor|]. simpl in Hpush. rewrite Hpush.
    reflexivity.
Defined.

(** X11 (witness): the entry memoized for [w] survives [clear_internals]
    and a second call of the hook. *)
Lemma cache_entries_are_kept_witness :
  f_cache (clear_internals sample_memoized) !! (IDENT "main", sample_word, 0)
  = Some (mkCompilationUnit sample_digits [] ∅)
  ∧ ∀ c', post_node_hook (λ _, false) sample_word sample_memoized = Some c' →
          f_cache c' !! (IDENT "main", sample_word, 0)
          = Some (mkCompilationUnit sample_digits [] ∅).
Proof.
  destruct (cache_entries_are_kept (λ _ _, BooleanType) (λ _, false)
              (IDENT "main", sample_word, 0)
              (mkCompilationUnit sample_digits [] ∅) sample_memoized)
    as (Hhook & _ & _ & _ & _ & _ & Hclear).
  - reflexivity.
  - split.
    + rewrite Hclear. reflexivity.
    + intros c' Hc'. exact (proj1 (Hhook sample_word c' Hc')).
Defined.

End InternalsExamples.

(** ** Compiler internals: automatic names and variables *)

Section AutoProps.
Import DD Types Compiler.

Lemma wrap_step_add_l (a b : Z) : wrap_step (wrap_step a + b) = wrap_step (a + b).
Proof. unfold wrap_step. by rewrite Z.add_mod_idemp_l by (unfold UINT_MAX; lia). Qed.

Lemma wrap_step_inj_small (a k1 k2 : Z) :
  0 ≤ k1 ≤ UINT_MAX → 0 ≤ k2 ≤ UINT_MAX →
  wrap_step (a + k1) = wrap_step (a + k2) → k1 = k2.
Proof.
  unfold wrap_step, UINT_MAX. intros H1 H2 H.
  pose proof (Z.div_mod (a + k1) 4294967296 ltac:(lia)).
  pose proof (Z.div_mod (a + k2) 4294967296 ltac:(lia)).
  change (4294967295 + 1) with 4294967296 in H. lia.
Qed.

Lemma wrap_step_range (a : Z) : 0 ≤ wrap_step a ≤ UINT_MAX.
Proof.
  unfold wrap_step, UINT_MAX.
  pose proof (Z.mod_pos_bound a (4294967295 + 1) ltac:(lia)). lia.
Qed.

Lemma make_auto_ddvect_loop_spec ctx time c : ∀ n dv s,
  head (f_ctx_stack c) = Some ctx → head (f_time_stack c) = Some time →
  0 ≤ f_temp_auto_index s ≤ UINT_MAX →
  make_auto_ddvect_loop n c dv s
  = Some (dv ++ (Bit <$> seq (enc_next s) n),
          mkAutoState
            (wrap_step (f_temp_auto_index s + Z.of_nat n))
            (enc_next s + n)
            (enc_registered s
             ++ (auto_registration ctx time (f_temp_auto_index s) (enc_next s)
                   <$> seq 0 n))).
Proof.
  induction n as [|n IH]; intros dv s Hctx Htime Hidx.
  - simpl. rewrite !app_nil_r, Nat.add_0_r, Z.add_0_r.
    rewrite wrap_step_small by done. by destruct s.
  - cbn [make_auto_ddvect_loop]. unfold make_auto_dd, make_auto_id.
    cbn [Enc.BooleanEncoding Enc.make_bit Enc.empty_base Enc.f_dv Enc.f_bits
         app]. rewrite Hctx, Htime. cbn [mbind option_bind Enc.bits Enc.base_of
         Enc.f_bits lookup list_lookup].
    rewrite IH by (done || apply wrap_step_range).
    cbn [f_temp_auto_index enc_next enc_registered].
    f_equal. f_equal.
    + rewrite <- app_assoc. cbn [app seq fmap list_fmap]. done.
    + f_equal.
      * rewrite wrap_step_add_l. f_equal. lia.
      * lia.
      * rewrite <- app_assoc. f_equal. cbn [seq fmap list_fmap app]. f_equal.
        -- unfold auto_registration. rewrite Z.add_0_r, Nat.add_0_r.
           by rewrite wrap_step_small by done.
        -- rewrite <- fmap_S_seq, <- list_fmap_compose.
           apply list_fmap_ext. intros _ k _. unfold auto_registration.
           cbn [compose]. rewrite wrap_step_add_l.
           replace (f_temp_auto_index s + 1 + Z.of_nat k)
             with (f_temp_auto_index s + Z.of_nat (S k)) by lia.
           by replace (S (enc_next s) + k)%nat with (enc_next s + S k)%nat
             by lia.
Qed.

(** X13. In a compiler whose context and time stacks are not empty,
    [make_auto_ddvect] called on an empty vector returns [width] fresh,
    pairwise different DD variables, the next [width] ones of the manager;
    it registers one boolean encoding per variable, in order, under the key
    made of the current context, the next automatic name and the current
    time, and these keys are pairwise different as long as no more than
    [UINT_MAX + 1] names are drawn.  Called on a vector that is not empty it
    fails. *)
Theorem make_auto_ddvect_fresh (width : nat) (c : Compiler) (s : AutoState)
  (ctx : Expr_ptr) (time : step_t) :
  head (f_ctx_stack c) = Some ctx → head (f_time_stack c) = Some time →
  0 ≤ f_temp_auto_index s ≤ UINT_MAX →
  let registrations :=
    auto_registration ctx time (f_temp_auto_index s) (enc_next s)
      <$> seq 0 width in
  make_auto_ddvect [] width c s
  = Some (Bit <$> seq (enc_next s) width,
          mkAutoState (wrap_step (f_temp_auto_index s + Z.of_nat width))
            (enc_next s + width) (enc_registered s ++ registrations))
  ∧ NoDup (Bit <$> seq (enc_next s) width)
  ∧ (Z.of_nat width ≤ UINT_MAX + 1 → NoDup registrations.*1)
  ∧ (∀ d dv, make_auto_ddvect (d :: dv) width c s = None).
Proof.
  intros Hctx Htime Hidx registrations. split_and!.
  - unfold make_auto_ddvect. rewrite decide_True by done.
    by rewrite (make_auto_ddvect_loop_spec ctx time).
  - apply NoDup_fmap_2; [by intros ?? [=]|apply NoDup_seq].
  - intros Hw. subst registrations. rewrite <- list_fmap_compose.
    apply NoDup_fmap_2_strong; [|apply NoDup_seq].
    intros k1 k2 Hk1 Hk2. rewrite !elem_of_seq in Hk1, Hk2.
    unfold auto_registration. cbn [fst]. intros [= H].
    apply (inj (String.app "")) in H.
    apply (inj pretty) in H. apply wrap_step_inj_small in H; lia.
  - done.
Qed.


(** X13 (witness): two automatic variables drawn in [main] at time 0, when
    the manager's next free variable is 5. *)
Lemma make_auto_ddvect_fresh_witness :
  fst <$> make_auto_ddvect [] 2 sample_compiler (mkAutoState 0 5 [])
  = Some [Bit 5; Bit 6]
  ∧ NoDup [Bit 5; Bit 6].
Proof.
  destruct (make_auto_ddvect_fresh 2 sample_compiler (mkAutoState 0 5 [])
              (IDENT "main") 0) as (Hrun & Hnodup & _).
  - reflexivity.
  - reflexivity.
  - simpl. unfold UINT_MAX. lia.
  - split; [|exact Hnodup]. rewrite Hrun. reflexivity.
Defined.

End AutoProps.

(** ** Witness store: frames *)

Section WitnessProps.
Import Witness.

(** X14. [new_frame] appends exactly one frame, numbered by the old length
    of the witness; the new frame has no value for any key, and every frame
    that was there before is kept, with its number and its values; the name
    of the witness is not changed.  A witness built by the constructor and
    [n] calls of [new_frame] has length [n]. *)
Theorem new_frame_appends_empty (w : Witness) :
  length (new_frame w) = S (length w)
  ∧ f_name (new_frame w) = f_name w
  ∧ (∀ i tf, f_frames w !! i = Some tf → f_frames (new_frame w) !! i = Some tf)
  ∧ (∃ tf, f_frames (new_frame w) !! length w = Some tf
       ∧ ∀ key, has_value tf key = false ∧ value tf key = None)
  ∧ (∀ n name, length (Nat.iter n new_frame (new_Witness name)) = n).
Proof.
  unfold length, new_frame. cbn [f_frames f_name]. split_and!.
  - rewrite length_app. simpl. lia.
  - done.
  - intros i tf Hi. by apply lookup_app_l_Some.
  - exists new_TimeFrame. split.
    + rewrite lookup_app_r by done. by rewrite Nat.sub_diag.
    + intros key. unfold has_value, value. simpl. by rewrite lookup_empty.
  - intros n name. induction n as [|n IH]; [done|].
    simpl. rewrite length_app, IH. simpl. lia.
Qed.

(** X15. The value that a key has after a run of [set_value] calls on a
    frame: the one it had before the run if it had one, otherwise the value
    of the FIRST call of the run for this key (later calls for the same key
    are ignored), and none if the run has no call for it.  In particular two
    calls for different keys can be swapped. *)
Theorem set_values_first_wins (tf : TimeFrame)
  (ops : list (FQExpr * Expr_ptr)) (key : FQExpr) :
  value (set_values tf ops) key
  = match value tf key with
    | Some w => Some w
    | None => (λ hit, hit.2.2) <$> list_find (λ op, op.1 = key) ops
    end
  ∧ (∀ k1 v1 k2 v2, k1 ≠ k2 →
       set_value (set_value tf k1 v1) k2 v2
       = set_value (set_value tf k2 v2) k1 v1).
Proof.
  split.
  - revert tf. induction ops as [|[k v] ops IH]; intros tf.
    + simpl. by destruct (value tf key).
    + change (set_values tf ((k, v) :: ops))
        with (set_values (set_value tf k v) ops).
      rewrite IH, value_set_value. cbn [list_find fst].
      destruct (value tf key) as [w|]; [done|].
      destruct (decide (k = key)) as [->|Hne]; [done|].
      destruct (list_find _ ops) as [[i op]|]; done.
  - intros k1 v1 k2 v2 Hne. unfold set_value. f_equal. cbn [f_map].
    apply map_eq. intros k. rewrite !lookup_map_insert_new.
    destruct (f_map tf !! k); [done|].
    repeat case_decide; try done. congruence.
Qed.

End WitnessProps.

(** ** Witness evaluator: environment and constant expressions *)

Section EvaluatorWalkProps.
Import Witness Evaluator.
Context `{VM : ValueModel}.

Variable symbol : Expr_ptr → Expr_ptr → ISymbol.
Variable walk_neg_postorder : Expr_ptr → Evaluator → option Evaluator.

Abbreviation walk := (Evaluator.walk symbol walk_neg_postorder).
Abbreviation process := (Evaluator.process symbol walk_neg_postorder).

Lemma POP_VALUE_environment ev v ev' :
  POP_VALUE ev = Some (v, ev') → environment ev' = environment ev.
Proof.
  unfold POP_VALUE. destruct (f_expr_stack ev) as [|[]]; try done.
  by intros [= <- <-].
Qed.

Lemma binary_postorder_environment op ev ev' :
  binary_postorder op ev = Some ev' → environment ev' = environment ev.
Proof.
  unfold binary_postorder.
  destruct (POP_VALUE ev) as [[rhs ev1]|] eqn:H1; simpl; [|done].
  destruct (POP_VALUE ev1) as [[lhs ev2]|] eqn:H2; simpl; [|done]. simpl.
  destruct (op lhs rhs); [|done]. intros [= <-].
  apply POP_VALUE_environment in H1, H2. unfold environment in *. simpl.
  congruence.
Qed.

Lemma walk_postorder_environment symb e ev ev' :
  (∀ e ev ev', walk_neg_postorder e ev = Some ev' →
               environment ev' = environment ev) →
  symb ≠ NEXT → symb ≠ PREV →
  walk_postorder walk_neg_postorder symb e ev = Some ev' →
  environment ev' = environment ev.
Proof.
  intros Hneg Hn Hp.
  destruct symb; try done; cbn [walk_postorder];
    try (by apply binary_postorder_environment);
    try (by intros [= <-]); try (by apply Hneg).
  - unfold walk_not_postorder.
    destruct (POP_VALUE ev) as [[lhs ev1]|] eqn:H1; simpl; [|done]. simpl.
    intros [= <-]. by apply POP_VALUE_environment in H1.
  - unfold walk_ite_postorder.
    destruct (POP_VALUE ev) as [[rhs ev1]|] eqn:H1; simpl; [|done].
    destruct (POP_VALUE ev1) as [[lhs ev2]|] eqn:H2; simpl; [|done].
    destruct (POP_VALUE ev2) as [[c ev3]|] eqn:H3; simpl; [|done]. simpl.
    intros [= <-]. apply POP_VALUE_environment in H1, H2, H3.
    unfold environment in *. simpl. congruence.
Qed.

Lemma cache_miss_environment e ev go ev' :
  cache_miss e ev = Some (go, ev') →
  environment ev' = environment ev ∧ (go = true → ev' = ev).
Proof.
  unfold cache_miss.
  destruct (head (f_ctx_stack ev)); [|done].
  destruct (head (f_time_stack ev)); [|done]. simpl.
  destruct (f_map ev !! _); intros [= <- <-]; done.
Qed.

(** The shape shared by unary and binary nodes: preorder hook, operands,
    postorder hook. *)
Lemma walk_node_environment symb e ev ev' (operands : Evaluator → option Evaluator) :
  (∀ e ev ev', walk_neg_postorder e ev = Some ev' →
               environment ev' = environment ev) →
  (∀ ev1 ev2, operands ev1 = Some ev2 → environment ev2 = environment ev1) →
  match walk_preorder symb e ev with
  | None => None
  | Some (false, ev) => Some ev
  | Some (true, ev) =>
      ev ← operands ev; walk_postorder walk_neg_postorder symb e ev
  end = Some ev' →
  environment ev' = environment ev.
Proof.
  intros Hneg Hops.
  assert (Htime : ∀ x,
    match
      (ev2 ← operands (set_time_stack (x :: f_time_stack ev) ev);
       walk_time_postorder ev2)
    with Some ev' => environment ev' = environment ev | None => True end).
  { intros x.
    destruct (operands (set_time_stack (x :: f_time_stack ev) ev))
      as [ev2|] eqn:H2; simpl; [|done]. simpl.
    apply Hops in H2. unfold walk_time_postorder.
    destruct (f_time_stack ev2) as [|y stk] eqn:Hstk; [done|].
    unfold environment in *. simpl in *. congruence. }
  destruct (decide (symb = NEXT)) as [->|Hn].
  { cbn [walk_preorder walk_postorder]. unfold walk_next_preorder.
    destruct (head (f_time_stack ev)) as [curr|]; [|done]. simpl.
    intros H. specialize (Htime (wrap_step (curr + 1))). by rewrite H in Htime. }
  destruct (decide (symb = PREV)) as [->|Hp].
  { cbn [walk_preorder walk_postorder]. unfold walk_prev_preorder.
    destruct (head (f_time_stack ev)) as [curr|]; [|done]. simpl.
    intros H. specialize (Htime (wrap_step (curr - 1))). by rewrite H in Htime. }
  assert (Hpre : walk_preorder symb e ev = cache_miss e ev)
    by (by destruct symb).
  rewrite Hpre.
  destruct (cache_miss e ev) as [[[] ev1]|] eqn:Hmiss; [| |done].
  - apply cache_miss_environment in Hmiss as [Henv _].
    destruct (operands ev1) as [ev2|] eqn:H2; simpl; [|done]. simpl.
    intros H. apply walk_postorder_environment in H; try done.
    apply Hops in H2. congruence.
  - apply cache_miss_environment in Hmiss as [Henv _]. by intros [= <-].
Qed.

(** X16. A walk of the evaluator that returns hands back the context
    stack, the time stack, the cache and the witness exactly as it got
    them, whatever the expression (the pushes of [next] and [prev] on the
    time stack are undone by their postorder hooks, and nothing ever writes
    the cache), provided the negation helpers do so.  Hence in [process] the
    sanity assertions on the context and time stacks cannot fail: [process]
    returns the single expression left on the expression stack, and fails
    only if the walk fails or leaves another number of results. *)
Theorem walk_preserves_environment (fuel : nat) (expr : Expr_ptr)
  (ev ev' : Evaluator) :
  (∀ e ev ev', walk_neg_postorder e ev = Some ev' →
               environment ev' = environment ev) →
  walk fuel expr ev = Some ev' →
  environment ev' = environment ev
  ∧ ∀ w ctx time,
      process fuel w ctx expr time
      = (ev ← walk fuel expr (mkEvaluator [] [ctx] [time] ∅ w);
         match f_expr_stack ev with [res] => Some res | _ => None end).
Proof.
  intros Hneg.
  assert (Hall : ∀ fuel expr ev ev', walk fuel expr ev = Some ev' →
                   environment ev' = environment ev).
  { clear fuel expr ev ev'.
    induction fuel as [|fuel IH]; intros expr ev ev'; [done|].
    assert (Hleaf : walk_leaf symbol (walk fuel) expr ev = Some ev' →
                    environment ev' = environment ev).
    { unfold walk_leaf.
      destruct (cache_miss expr ev) as [[[] ev1]|] eqn:Hmiss; [| |done].
      - apply cache_miss_environment in Hmiss as [_ ->]; [|done].
        destruct (head (f_ctx_stack ev)) as [ctx|]; [|done].
        destruct (head (f_time_stack ev)) as [time|]; [|done]. simpl.
        destruct expr; try (by intros [= <-]);
          (destruct (symbol ctx _) as [|body|]; [|by apply IH|done];
           destruct (witness_has_value _ _); [|done];
           destruct (witness_value _ _); [|done]; by intros [= <-]).
      - apply cache_miss_environment in Hmiss as [Henv _]. by intros [= <-]. }
    destruct expr as [v|x|symb lhs|symb lhs rhs]; cbn [Evaluator.walk].
    - exact Hleaf.
    - exact Hleaf.
    - apply (walk_node_environment symb _ ev ev' (walk fuel lhs)); [done|].
      intros ev1 ev2. apply IH.
    - intros H.
      apply (walk_node_environment symb (Binary symb lhs rhs) ev ev'
               (λ ev, ev ← walk fuel lhs ev; walk fuel rhs ev)); [done| |].
      + intros ev1 ev2.
        destruct (walk fuel lhs ev1) as [ev3|] eqn:H3; simpl; [|done].
        intros H'. apply IH in H3, H'. congruence.
      + destruct (walk_preorder symb _ ev) as [[[] ev1]|]; try done.
        cbn [walk_inorder] in H.
        by destruct (walk fuel lhs ev1). }
  intros Hwalk. split; [exact (Hall _ _ _ _ Hwalk)|].
  intros w ctx time. unfold Evaluator.process.
  destruct (walk fuel expr (mkEvaluator [] [ctx] [time] ∅ w)) as [ev1|] eqn:H1;
    [|done]. simpl.
  apply Hall in H1. unfold environment in H1. simpl in H1.
  injection H1 as -> -> _ _. by destruct (f_expr_stack ev1) as [|? []].
Qed.

End EvaluatorWalkProps.

Section EvaluatorConstantProps.
Import Witness Evaluator.
Context `{VM : ValueModel}.

Variable symbol : Expr_ptr → Expr_ptr → ISymbol.
Variable walk_neg_postorder : Expr_ptr → Evaluator → option Evaluator.

Abbreviation walk := (Evaluator.walk symbol walk_neg_postorder).
Abbreviation process := (Evaluator.process symbol walk_neg_postorder).

(** With an empty cache every lookup misses. *)
Lemma cache_miss_empty expr stk ctx cs t ts w :
  cache_miss expr (mkEvaluator stk (ctx :: cs) (t :: ts) ∅ w)
  = Some (true, mkEvaluator stk (ctx :: cs) (t :: ts) ∅ w).
Proof.
  unfold cache_miss. cbn [f_ctx_stack f_time_stack head mbind option_bind f_map].
  by rewrite lookup_empty.
Qed.

Lemma walk_preorder_empty symb expr stk ctx cs t ts w :
  symb ≠ NEXT → symb ≠ PREV →
  walk_preorder symb expr (mkEvaluator stk (ctx :: cs) (t :: ts) ∅ w)
  = Some (true, mkEvaluator stk (ctx :: cs) (t :: ts) ∅ w).
Proof.
  intros Hn Hp. rewrite <- (cache_miss_empty expr). by destruct symb.
Qed.

(** The hooks of the operators of [constant_binop] compute it. *)
Lemma walk_postorder_constant_binop symb e l r stk cs ts m w :
  is_constant_binop symb = true →
  walk_postorder walk_neg_postorder symb e
    (mkEvaluator (ICONST r :: ICONST l :: stk) cs ts m w)
  = (res ← constant_binop symb l r;
     Some (mkEvaluator (ICONST res :: stk) cs ts m w)).
Proof.
  destruct symb; try done; intros _; cbn [constant_binop walk_postorder];
    unfold walk_add_postorder, walk_sub_postorder, walk_div_postorder,
      walk_mod_postorder, walk_and_postorder, walk_or_postorder,
      walk_xor_postorder, walk_xnor_postorder, walk_implies_postorder,
      walk_iff_postorder, walk_xnor_postorder, walk_lshift_postorder,
      walk_eq_postorder, walk_ne_postorder, walk_gt_postorder,
      walk_ge_postorder, walk_lt_postorder, walk_le_postorder,
      binary_postorder, c_div, c_mod, POP_VALUE, PUSH_VALUE, PUSH_EXPR,
      set_expr_stack;
    cbn [f_expr_stack f_ctx_stack f_time_stack f_map f_witness mbind
         option_bind];
    done.
Qed.

Lemma constant_value_binary symb a b :
  symb ≠ ITE →
  constant_value (Binary symb a b)
  = (l ← constant_value a; r ← constant_value b; constant_binop symb l r).
Proof. by destruct symb. Qed.

Lemma constant_value_ite a b :
  (∀ c a', a ≠ Binary COND c a') → constant_value (Binary ITE a b) = None.
Proof.
  intros Ha.
  assert (H : constant_value (Binary ITE a b)
              = (l ← constant_value a; r ← constant_value b;
                 constant_binop ITE l r)).
  { destruct a as [| |s0 a0|s0 c0 a0]; try reflexivity.
    destruct s0; try reflexivity. by destruct (Ha c0 a0). }
  rewrite H. destruct (constant_value a); [|done]. cbn [mbind option_bind].
  by destruct (constant_value b).
Qed.

Lemma is_constant_binary symb a b :
  symb ≠ ITE →
  is_constant (Binary symb a b)
  = is_constant_binop symb && is_constant a && is_constant b.
Proof. by destruct symb. Qed.

Lemma is_constant_ite a b :
  (∀ c a', a ≠ Binary COND c a') → is_constant (Binary ITE a b) = false.
Proof.
  intros Ha. destruct a as [| |s0 a0|s0 c0 a0]; try reflexivity.
  destruct s0; try reflexivity. by destruct (Ha c0 a0).
Qed.

Lemma cond_or_not (a : Expr_ptr) :
  (∃ c a', a = Binary COND c a') ∨ ∀ c a', a ≠ Binary COND c a'.
Proof. destruct a as [| | |[] c' a']; try (by right); left; eauto. Qed.

(** An expression that has a constant value is a constant expression. *)
Lemma constant_value_is_constant : ∀ n e v,
  (depth e < n)%nat → constant_value e = Some v → is_constant e = true.
Proof.
  induction n as [|n IH]; intros e v Hn Hv; [lia|].
  destruct e as [z|x|symb a|symb a b]; try done; cbn [depth] in Hn.
  - destruct symb; try done; cbn [constant_value is_constant] in *.
    + apply (IH a v); [lia|done].
    + apply (IH a v); [lia|done].
    + destruct (constant_value a) as [va|] eqn:Ha; [|done].
      apply (IH a va); [lia|done].
  - destruct (decide (symb = ITE)) as [->|Hite].
    + destruct (cond_or_not a) as [(c0 & a0 & ->)|Hno];
        [|by rewrite constant_value_ite in Hv].
      cbn [constant_value is_constant depth] in *.
      destruct (constant_value c0) as [cv|] eqn:Hc; [|done].
      destruct (constant_value a0) as [av|] eqn:Ha; [|done].
      destruct (constant_value b) as [bv|] eqn:Hb; [|done].
      rewrite (IH c0 cv), (IH a0 av), (IH b bv) by (done || lia). done.
    + rewrite constant_value_binary in Hv by done.
      rewrite is_constant_binary by done.
      destruct (constant_value a) as [l|] eqn:Ha; [|done].
      destruct (constant_value b) as [r|] eqn:Hb; [|done].
      rewrite (IH a l), (IH b r), !andb_true_r by (done || lia).
      cbn [mbind option_bind] in Hv. by destruct symb.
Qed.

(** The walk of a constant expression, given fuel beyond its depth: it
    pushes the value of the expression and changes nothing else, and it
    fails exactly when the expression has no value. *)
Lemma walk_constant_value : ∀ n e, (depth e < n)%nat →
  ∀ fuel stk ctx cs t ts w,
  (depth e < fuel)%nat → is_constant e = true →
  walk fuel e (mkEvaluator stk (ctx :: cs) (t :: ts) ∅ w)
  = (v ← constant_value e;
     Some (mkEvaluator (ICONST v :: stk) (ctx :: cs) (t :: ts) ∅ w)).
Proof.
  induction n as [|n IH]; intros e Hn fuel stk ctx cs t ts w Hd Hc; [lia|].
  destruct fuel as [|fuel]; [lia|].
  destruct e as [z|x|symb a|symb a b]; cbn [Evaluator.walk].
  - unfold walk_leaf. rewrite cache_miss_empty. done.
  - done.
  - cbn [depth] in Hd, Hn.
    destruct symb; try done; cbn [constant_value is_constant] in *.
    + cbn [walk_preorder]. unfold walk_next_preorder, set_time_stack.
      cbn [f_time_stack head mbind option_bind f_expr_stack
           f_ctx_stack f_map f_witness].
      rewrite (IH a ltac:(lia) fuel) by (done || lia).
      by destruct (constant_value a).
    + cbn [walk_preorder]. unfold walk_prev_preorder, set_time_stack.
      cbn [f_time_stack head mbind option_bind f_expr_stack
           f_ctx_stack f_map f_witness].
      rewrite (IH a ltac:(lia) fuel) by (done || lia).
      by destruct (constant_value a).
    + rewrite walk_preorder_empty by done.
      rewrite (IH a ltac:(lia) fuel) by (done || lia).
      by destruct (constant_value a).
  - cbn [depth] in Hd, Hn.
    destruct (decide (symb = ITE)) as [->|Hite].
    + destruct (cond_or_not a) as [(c0 & a0 & ->)|Hno];
        [|by rewrite is_constant_ite in Hc].
      cbn [constant_value is_constant depth] in *.
      apply andb_prop in Hc as [Hc Hcb]. apply andb_prop in Hc as [Hcc Hca].
      rewrite walk_preorder_empty by done.
      assert (Hcond :
        walk fuel (Binary COND c0 a0)
          (mkEvaluator stk (ctx :: cs) (t :: ts) ∅ w)
        = (cv ← constant_value c0; av ← constant_value a0;
           Some (mkEvaluator (ICONST av :: ICONST cv :: stk) (ctx :: cs)
                   (t :: ts) ∅ w))).
      { destruct fuel as [|fuel]; [lia|]. cbn [Evaluator.walk].
        rewrite walk_preorder_empty by done.
        rewrite (IH c0 ltac:(lia) fuel) by (done || lia).
        destruct (constant_value c0) as [cv|]; [|done].
        cbn [mbind option_bind walk_inorder].
        rewrite (IH a0 ltac:(lia) fuel) by (done || lia).
        by destruct (constant_value a0). }
      rewrite Hcond.
      destruct (constant_value c0) as [cv|]; [|done].
      destruct (constant_value a0) as [av|]; [|done].
      cbn [mbind option_bind walk_inorder].
      rewrite (IH b ltac:(lia) fuel) by (done || lia).
      by destruct (constant_value b).
    + rewrite constant_value_binary by done.
      rewrite is_constant_binary in Hc by done.
      apply andb_prop in Hc as [Hc Hcb]. apply andb_prop in Hc as [Hop Hca].
      assert (Hnp : symb ≠ NEXT ∧ symb ≠ PREV) by (by destruct symb).
      rewrite walk_preorder_empty by tauto.
      rewrite (IH a ltac:(lia) fuel) by (done || lia).
      destruct (constant_value a) as [l|]; [|done].
      cbn [mbind option_bind walk_inorder].
      rewrite (IH b ltac:(lia) fuel) by (done || lia).
      destruct (constant_value b) as [r|]; [|done].
      cbn [mbind option_bind].
      by apply walk_postorder_constant_binop.
Qed.

(** In particular, an expression that has a constant value pushes it. *)
Lemma walk_constant_aux : ∀ n e, (depth e < n)%nat →
  ∀ fuel v stk ctx cs t ts w,
  (depth e < fuel)%nat → constant_value e = Some v →
  walk fuel e (mkEvaluator stk (ctx :: cs) (t :: ts) ∅ w)
  = Some (mkEvaluator (ICONST v :: stk) (ctx :: cs) (t :: ts) ∅ w).
Proof.
  intros n e Hn fuel v stk ctx cs t ts w Hd Hv.
  rewrite (walk_constant_value n) by
    (done || by apply (constant_value_is_constant n e v)).
  by rewrite Hv.
Qed.


(** X18. A variable is read from the witness at the time on top of the
    time stack: [x] at the step of the evaluation, [next(x)] one step later
    and [prev(x)] one step earlier (both modulo [UINT_MAX + 1]: the time is
    an unsigned integer), and [prev(next(x))] at the step itself.  The
    evaluation fails when the witness has no value for the variable at that
    time. *)
Theorem eval_variable_at_time (w : Witness) (ctx : Expr_ptr) (x : string)
  (k : step_t) :
  symbol ctx (IDENT x) = Variable_ →
  let read := λ time,
    if witness_has_value w (ctx, IDENT x, time)
    then witness_value w (ctx, IDENT x, time) else None in
  process 1 w ctx (IDENT x) k = read k
  ∧ process 2 w ctx (Unary NEXT (IDENT x)) k = read (wrap_step (k + 1))
  ∧ process 2 w ctx (Unary PREV (IDENT x)) k = read (wrap_step (k - 1))
  ∧ (0 ≤ k ≤ UINT_MAX →
     process 3 w ctx (Unary PREV (Unary NEXT (IDENT x))) k = read k).
Proof.
  intros Hsym read.
  assert (Hleaf : ∀ fuel stk t ts,
    walk (S fuel) (IDENT x) (mkEvaluator stk [ctx] (t :: ts) ∅ w)
    = (res ← read t; Some (mkEvaluator (res :: stk) [ctx] (t :: ts) ∅ w))).
  { intros fuel stk t ts. cbn [Evaluator.walk]. unfold walk_leaf.
    rewrite cache_miss_empty.
    cbn [f_ctx_stack f_time_stack head mbind option_bind f_witness].
    rewrite Hsym. subst read. cbn beta.
    destruct (witness_has_value w (ctx, IDENT x, t)); [|done].
    by destruct (witness_value w (ctx, IDENT x, t)). }
  assert (Hunary : ∀ symb fuel lhs ev,
    walk (S fuel) (Unary symb lhs) ev
    = match walk_preorder symb (Unary symb lhs) ev with
      | None => None
      | Some (false, ev) => Some ev
      | Some (true, ev) =>
          ev ← walk fuel lhs ev;
          walk_postorder walk_neg_postorder symb (Unary symb lhs) ev
      end) by done.
  split_and!.
  - unfold Evaluator.process. rewrite Hleaf. by destruct (read k).
  - unfold Evaluator.process. rewrite (Hunary NEXT 1%nat).
    cbn [walk_preorder]. unfold walk_next_preorder, set_time_stack.
    cbn [f_time_stack head mbind option_bind f_expr_stack f_ctx_stack f_map
         f_witness].
    rewrite Hleaf. by destruct (read (wrap_step (k + 1))).
  - unfold Evaluator.process. rewrite (Hunary PREV 1%nat).
    cbn [walk_preorder]. unfold walk_prev_preorder, set_time_stack.
    cbn [f_time_stack head mbind option_bind f_expr_stack f_ctx_stack f_map
         f_witness].
    rewrite Hleaf. by destruct (read (wrap_step (k - 1))).
  - intros Hk. unfold Evaluator.process. rewrite (Hunary PREV 2%nat).
    cbn [walk_preorder]. unfold walk_prev_preorder, set_time_stack.
    cbn [f_time_stack head mbind option_bind f_expr_stack f_ctx_stack f_map
         f_witness].
    rewrite (Hunary NEXT 1%nat).
    cbn [walk_preorder]. unfold walk_next_preorder, set_time_stack.
    cbn [f_time_stack head mbind option_bind f_expr_stack f_ctx_stack f_map
         f_witness].
    rewrite Hleaf.
    replace (wrap_step (wrap_step (k - 1) + 1)) with k.
    + by destruct (read k).
    + unfold wrap_step, UINT_MAX in *.
      change (4294967295 + 1) with 4294967296.
      destruct (decide (k = 0)) as [->|]; [done|].
      rewrite (Z.mod_small (k - 1)) by lia.
      replace (k - 1 + 1) with k by lia. symmetry. apply Z.mod_small. lia.
Qed.

(** X19. The evaluator has no value for the structural operators: an
    expression whose root is [params], [comma] or a subscript makes
    [process] fail, whatever its operands, the witness and the fuel; and a
    [dot] or a bare [cond] node over constant operands leaves two results on
    the expression stack, so that [process] fails on its first sanity
    assertion. *)
Theorem eval_structural_operators_fail (fuel : nat) (w : Witness)
  (ctx a b : Expr_ptr) (k : step_t) :
  process fuel w ctx (Binary PARAMS a b) k = None
  ∧ process fuel w ctx (Binary COMMA a b) k = None
  ∧ process fuel w ctx (Binary SUBSCRIPT a b) k = None
  ∧ (∀ va vb, constant_value a = Some va → constant_value b = Some vb →
       (S (depth a `max` depth b) < fuel)%nat →
       process fuel w ctx (Binary DOT a b) k = None
       ∧ process fuel w ctx (Binary COND a b) k = None
       ∧ walk fuel (Binary DOT a b) (mkEvaluator [] [ctx] [k] ∅ w)
         = Some (mkEvaluator [ICONST vb; ICONST va] [ctx] [k] ∅ w)).
Proof.
  assert (Hfail : ∀ symb,
    (∀ e ev, walk_postorder walk_neg_postorder symb e ev = None) →
    symb ≠ NEXT → symb ≠ PREV →
    process fuel w ctx (Binary symb a b) k = None).
  { intros symb Hpost Hn Hp. unfold Evaluator.process.
    destruct fuel as [|fuel']; [done|]. cbn [Evaluator.walk].
    rewrite walk_preorder_empty by done.
    destruct (walk fuel' a _) as [ev1|]; [|done].
    cbn [mbind option_bind walk_inorder].
    destruct (walk fuel' b ev1) as [ev2|]; [|done].
    cbn [mbind option_bind]. by rewrite Hpost. }
  split_and!; try (by apply Hfail).
  intros va vb Ha Hb Hd.
  assert (Htwo : ∀ symb, symb = DOT ∨ symb = COND →
            walk fuel (Binary symb a b) (mkEvaluator [] [ctx] [k] ∅ w)
            = Some (mkEvaluator [ICONST vb; ICONST va] [ctx] [k] ∅ w)).
  { intros symb Hs. destruct fuel as [|fuel']; [lia|]. cbn [Evaluator.walk].
    rewrite walk_preorder_empty by (by destruct Hs as [-> | ->]).
    rewrite (walk_constant_aux (S (depth a)) a ltac:(lia) fuel' va)
      by (done || lia).
    cbn [mbind option_bind walk_inorder].
    rewrite (walk_constant_aux (S (depth b)) b ltac:(lia) fuel' vb)
      by (done || lia).
    cbn [mbind option_bind]. by destruct Hs as [-> | ->]. }
  unfold Evaluator.process. rewrite !Htwo by auto. done.
Qed.

End EvaluatorConstantProps.

Section EvaluatorExamples.
Import Witness Evaluator.

#[local] Existing Instance sample_value_model.

(** X16 (witness): [next(7)] pushes its value and hands the time stack
    back; the negation helper taken here leaves the evaluator alone. *)
Lemma walk_preserves_environment_witness :
  Evaluator.walk (λ _ _, OtherSymbol) (λ _ ev, Some ev) 2
    (Unary NEXT (ICONST 7))
    (mkEvaluator [] [IDENT "main"] [0] ∅ sample_witness)
  = Some (mkEvaluator [ICONST 7] [IDENT "main"] [0] ∅ sample_witness)
  ∧ environment (mkEvaluator [ICONST 7] [IDENT "main"] [0] ∅ sample_witness)
    = environment (mkEvaluator [] [IDENT "main"] [0] ∅ sample_witness).
Proof.
  split; [reflexivity|].
  refine (proj1 (walk_preserves_environment (λ _ _, OtherSymbol)
                   (λ _ ev, Some ev) 2 (Unary NEXT (ICONST 7)) _ _ _ _)).
  - intros e ev ev' H. injection H as <-. reflexivity.
  - reflexivity.
Defined.


(** X18 (witness): at step 0, [next(x)] is the value of [x] at step 1. *)
Lemma eval_variable_at_time_witness :
  Evaluator.process (λ _ _, Variable_) (λ _ _, None) 2 sample_witness
    (IDENT "main") (Unary NEXT (IDENT "x")) 0
  = Some (ICONST 2).
Proof.
  destruct (eval_variable_at_time (λ _ _, Variable_) (λ _ _, None)
              sample_witness (IDENT "main") "x" 0 eq_refl)
    as (_ & Hnext & _).
  rewrite Hnext. reflexivity.
Defined.

End EvaluatorExamples.

(** ** The first boolean compiler: operand types and stack discipline *)

Section BECompilerMoreProps.
Import DD Types BECompiler.

Variable owner_type : Expr_ptr → Expr_ptr → Type_ptr.

(** X20. What [walk_and_postorder] does with the two DDs [rhs] (on top) and
    [lhs] that it finds on the stack, for a word width of at least 1: on two
    boolean operands it replaces them by their product [Times]; on two
    monolithic operands that are not both boolean, by their bitwise product
    [BWTimes]; in every other case it has no result.  In particular it has
    none on two algebraic operands, whatever the stack holds below: the
    bitwise AND of two words is never compiled. *)
Theorem walk_and_postorder_returns (W : nat) (a b ctx : Expr_ptr)
  (lhs rhs : ADD) (stk : list ADD) (c : BECompiler) :
  (0 < W)%nat → head (f_ctx_stack c) = Some ctx →
  f_add_stack c = rhs :: lhs :: stk →
  walk_and_postorder owner_type W (Binary AND a b) c
  = (if is_boolean (owner_type ctx a) && is_boolean (owner_type ctx b)
     then Some (set_add_stack (Times lhs rhs :: stk) c)
     else if is_monolithic (owner_type ctx a)
             && is_monolithic (owner_type ctx b)
     then Some (set_add_stack (BWTimes lhs rhs :: stk) c)
     else None)
  ∧ (is_algebraic (owner_type ctx a) = true →
     is_algebraic (owner_type ctx b) = true →
     walk_and_postorder owner_type W (Binary AND a b) c = None).
Proof.
  intros HW Hctx Hstk. split.
  - unfold walk_and_postorder, is_binary_boolean, is_binary_monolithic,
      is_binary_algebraic, both_operands. simpl. rewrite Hctx. simpl.
    unfold monolithic_binop. rewrite Hstk.
    destruct (is_boolean (owner_type ctx a) && is_boolean (owner_type ctx b));
      [done|].
    destruct (is_monolithic (owner_type ctx a)
              && is_monolithic (owner_type ctx b)); [done|].
    destruct (is_algebraic (owner_type ctx a)
              && is_algebraic (owner_type ctx b)); [|done].
    by apply algebraic_binop_undefined.
  - intros Ha Hb.
    destruct (is_binary_of_algebraic owner_type AND a b ctx c eq_refl Hctx
                Ha Hb) as (Hbool & Hmono & Halg).
    unfold walk_and_postorder. rewrite Hbool, Hmono, Halg.
    cbn [mbind option_bind]. by apply algebraic_binop_undefined.
Qed.

(** X21. On a binary node whose operands are neither both boolean, nor
    both monolithic, nor both algebraic (a boolean and a word, say),
    [walk_and_postorder] stops on its final [assert(0)], whereas
    [walk_or_postorder], which has no final [else], returns without touching
    the stack: the two operand DDs stay where they were. *)
Theorem walk_or_postorder_mixed_operands (W : nat) (a b ctx : Expr_ptr)
  (c : BECompiler) :
  head (f_ctx_stack c) = Some ctx →
  is_boolean (owner_type ctx a) && is_boolean (owner_type ctx b) = false →
  is_monolithic (owner_type ctx a) && is_monolithic (owner_type ctx b) = false →
  is_algebraic (owner_type ctx a) && is_algebraic (owner_type ctx b) = false →
  walk_or_postorder owner_type W (Binary OR a b) c = Some c
  ∧ walk_and_postorder owner_type W (Binary AND a b) c = None.
Proof.
  intros Hctx Hb Hm Ha.
  unfold walk_or_postorder, walk_and_postorder, is_binary_boolean,
    is_binary_monolithic, is_binary_algebraic, both_operands. simpl.
  rewrite Hctx. simpl. rewrite Hb, Hm, Ha. done.
Qed.

End BECompilerMoreProps.

Section BECompilerExamples.
Import DD Types BECompiler.

(** X20 (witness): two boolean operands give the product of their DDs, two
    words of one digit give nothing. *)
Lemma walk_and_postorder_returns_witness :
  walk_and_postorder (λ _ _, BooleanType) 1
    (Binary AND (IDENT "p") (IDENT "q"))
    (mkBECompiler [Bit 1; Bit 0] [] [IDENT "main"] [0])
  = Some (mkBECompiler [Times (Bit 0) (Bit 1)] [] [IDENT "main"] [0])
  ∧ walk_and_postorder (λ _ _, UnsignedAlgebraicType 1) 1
      (Binary AND (IDENT "a") (IDENT "b"))
      (mkBECompiler [Bit 1; Bit 0] [] [IDENT "main"] [0])
    = None.
Proof.
  split.
  - refine (proj1 (walk_and_postorder_returns (λ _ _, BooleanType)
                     1 (IDENT "p") (IDENT "q") (IDENT "main") (Bit 0) (Bit 1) []
                     (mkBECompiler [Bit 1; Bit 0] [] [IDENT "main"] [0])
                     _ eq_refl eq_refl)).
    lia.
  - refine (proj2 (walk_and_postorder_returns (λ _ _, UnsignedAlgebraicType 1)
                     1 (IDENT "a") (IDENT "b") (IDENT "main") (Bit 0) (Bit 1) []
                     (mkBECompiler [Bit 1; Bit 0] [] [IDENT "main"] [0])
                     _ eq_refl eq_refl) eq_refl eq_refl).
    lia.
Defined.

(** X21 (witness): a boolean operand and a word operand. *)
Lemma walk_or_postorder_mixed_operands_witness :
  let owner_type := λ (_ e : Expr_ptr),
    if decide (e = IDENT "p") then BooleanType else UnsignedAlgebraicType 1 in
  let c := mkBECompiler [Bit 1; Bit 0] [] [IDENT "main"] [0] in
  walk_or_postorder owner_type 1 (Binary OR (IDENT "p") (IDENT "w")) c
  = Some c
  ∧ walk_and_postorder owner_type 1 (Binary AND (IDENT "p") (IDENT "w")) c
    = None.
Proof.
  intros owner_type c.
  apply (walk_or_postorder_mixed_operands owner_type 1 (IDENT "p")
           (IDENT "w") (IDENT "main") c); reflexivity.
Defined.

End BECompilerExamples.

(** ** Backward strategy: every way out *)

Section BackwardMoreProps.
Import Compiler Reachability.

Variable solver : list EngineOp → status_t.

Lemma sync_set_status_interrupted s r :
  interrupted (sync_set_status s r).2 = interrupted r.
Proof. unfold sync_set_status. by case_decide. Qed.

(** One pass of the loop only adds requests and does not interrupt. *)
Lemma backward_iteration_grows k r e r' e' next :
  backward_iteration solver k r e = (r', e', next) →
  requests e `prefix_of` requests e'
  ∧ engine_name e' = engine_name e
  ∧ interrupted r' = interrupted r.
Proof.
  unfold backward_iteration, engine_new_group, engine_solve.
  rewrite send_all_spec. unfold send. cbn [requests engine_name groups].
  rewrite <- !app_assoc.
  pose proof (sync_set_status_interrupted REACHABILITY_REACHABLE r) as Hr.
  pose proof (sync_set_status_interrupted REACHABILITY_UNREACHABLE r) as Hu.
  repeat match goal with
         | |- context [match solver ?l with _ => _ end] => destruct (solver l)
         | |- context [let '(_, _) := ?p in _] => destruct p as [[] ?]
         | |- context [decide ?P] => destruct (decide P)
         end;
    intros [= <- <- <-]; (split_and!; [by eexists|done|done]).
Qed.

Lemma backward_loop_exit : ∀ fuel k r e r' e',
  backward_loop solver fuel k r e = Some (r', e') →
  interrupted r' = true
  ∧ requests e `prefix_of` requests e'
  ∧ engine_name e' = engine_name e.
Proof.
  induction fuel as [|fuel IH]; intros k r e r' e'; [done|].
  cbn [backward_loop].
  destruct (backward_iteration solver k r e) as [[r1 e1] next] eqn:Hit.
  apply backward_iteration_grows in Hit as (Hpre & Hname & _).
  destruct next as [k'|].
  - case_decide.
    + intros H'. apply IH in H' as (Hint & Hpre' & Hname').
      split_and!; [done|by etrans|congruence].
    + by intros [= <- <-].
  - by intros [= <- <-].
Qed.

(** X23. Whenever the backward strategy returns, it has passed through its
    [cleanup] label: the other threads have been told to stop.  It can only
    return when there are no forward (positive time) constraints: with such
    constraints it stops on its first assertion.  The engine it used is the
    one named "backward", and the requests of the goal consistency check are
    the first ones it received.  If the solver cannot decide the goal
    consistency check, the strategy leaves at once: no other request is sent
    and no status is set. *)
Theorem backward_strategy_always_interrupts (fuel : nat)
  (r r' : Reachability) (e : Engine) :
  backward_strategy solver fuel r = Some (r', e) →
  interrupted r' = true
  ∧ f_positive_time_constraints r = []
  ∧ engine_name e = "backward"
  ∧ (goal_requests r ++ [solve]) `prefix_of` requests e
  ∧ (solver (goal_requests r ++ [solve]) = STATUS_UNKNOWN →
     r' = cleanup r ∧ requests e = goal_requests r ++ [solve]).
Proof.
  unfold backward_strategy.
  destruct (f_positive_time_constraints r) eqn:Hpos; [|done].
  unfold engine_solve, send. rewrite send_all_spec.
  cbn [requests engine_name groups app].
  destruct (solver (goal_requests r ++ [solve])) eqn:Hgoal.
  - intros H. apply backward_loop_exit in H as (Hint & Hpre & Hname).
    split_and!; done.
  - intros [= <- <-]. split_and!; done.
  - intros [= <- <-]. split_and!; done.
Qed.

End BackwardMoreProps.

Section BackwardMoreExamples.
Import DD Compiler Reachability.

(** X23 (witness): a solver that never decides. *)
Lemma backward_strategy_always_interrupts_witness :
  ∃ r' e,
    backward_strategy (λ _, STATUS_UNKNOWN) 0 sample_reachability
    = Some (r', e)
    ∧ interrupted r' = true
    ∧ requests e = goal_requests sample_reachability ++ [solve].
Proof.
  do 2 eexists. split; [reflexivity|].
  destruct (backward_strategy_always_interrupts (λ _, STATUS_UNKNOWN) 0
              sample_reachability _ _ eq_refl) as (Hint & _ & _ & _ & Hunk).
  split; [exact Hint|]. exact (proj2 (Hunk eq_refl)).
Defined.

End BackwardMoreExamples.

(** ** Initial states consistency check *)

Section CheckInitProps.
Import Compiler Reachability CheckInit.

Variable CompilerState : Type.
Variable compiler_process :
  Expr_ptr → Expr_ptr → CompilerState → option (CompilationUnit * CompilerState).
Variable make_empty : Expr_ptr.
Variable solver : list EngineOp → status_t.

Lemma compile_constraints_acc constraints ctx : ∀ cus cs,
  compile_constraints CompilerState compiler_process constraints ctx cus cs
  = '(units, cs') ← compile_constraints CompilerState compiler_process
                      constraints ctx [] cs;
    Some (cus ++ units, cs').
Proof.
  induction constraints as [|c constraints IH]; intros cus cs;
    cbn [compile_constraints].
  - cbn [mbind option_bind]. by rewrite app_nil_r.
  - destruct (compiler_process ctx c cs) as [[unit cs1]|]; [|done].
    cbn [mbind option_bind]. rewrite (IH (cus ++ [unit])), (IH ([] ++ [unit])).
    destruct (compile_constraints _ _ constraints ctx [] cs1)
      as [[units cs2]|]; [|done].
    cbn [mbind option_bind]. by rewrite <- app_assoc.
Qed.

Lemma compile_constraints_length constraints ctx : ∀ cs units cs',
  compile_constraints CompilerState compiler_process constraints ctx [] cs
  = Some (units, cs') →
  length units = length constraints.
Proof.
  induction constraints as [|c constraints IH]; intros cs units cs';
    cbn [compile_constraints].
  - by intros [= <- <-].
  - destruct (compiler_process ctx c cs) as [[unit cs1]|]; [|done].
    cbn [mbind option_bind]. rewrite compile_constraints_acc.
    destruct (compile_constraints _ _ constraints ctx [] cs1)
      as [[units1 cs2]|] eqn:Hrest; [|done].
    cbn [mbind option_bind]. intros [= <- <-].
    apply IH in Hrest. simpl. by rewrite Hrest.
Qed.

(** X24. A run of the initial states consistency check that returns has
    compiled every constraint, in order, in the empty context; it has sent
    to a fresh engine [INIT] and [INVAR] at time 0, then one formula at time
    0 for every compiled constraint that the object holds, which are the
    ones of this call preceded by those of every earlier call on the same
    object, and then exactly one [solve]; the status is OK on SAT, KO on
    UNSAT and UNDECIDED when the solver does not know. *)
Theorem check_init_consistency_protocol (constraints : list Expr_ptr)
  (a a' : CheckInitConsistency) (cs cs' : CompilerState) (e : Engine) :
  process CompilerState compiler_process make_empty solver constraints a cs
  = Some (a', e, cs') →
  ∃ units,
    compile_constraints CompilerState compiler_process constraints make_empty
      [] cs = Some (units, cs')
    ∧ length units = length constraints
    ∧ f_constraint_cus a' = f_constraint_cus a ++ units
    ∧ e = mkEngine "Initial"
            (assert_fsm_init 0 MAINGROUP :: assert_fsm_invar 0 MAINGROUP
             :: assert_all 0 (f_constraint_cus a ++ units) ++ [solve]) 0
    ∧ f_status a'
      = match solver (requests e) with
        | STATUS_SAT => FSM_CONSISTENCY_OK
        | STATUS_UNSAT => FSM_CONSISTENCY_KO
        | STATUS_UNKNOWN => FSM_CONSISTENCY_UNDECIDED
        end.
Proof.
  unfold process. rewrite compile_constraints_acc.
  destruct (compile_constraints _ _ constraints make_empty [] cs)
    as [[units cs1]|] eqn:Hunits; [|done].
  cbn [mbind option_bind]. unfold engine_solve.
  rewrite send_all_spec. unfold send. cbn [requests engine_name groups app].
  intros [= <- <- <-]. exists units.
  split_and!; try done.
  by apply compile_constraints_length in Hunits.
Qed.

End CheckInitProps.

Section CheckInitExamples.
Import DD Compiler Reachability CheckInit.

(** X24 (witness): one constraint, on an object that already holds the unit
    of an earlier call; the compiler taken here returns the same unit for
    every constraint and has no state. *)
Lemma check_init_consistency_protocol_witness :
  ∃ a' e,
    process unit (λ _ _ cs, Some (sample_unit, cs)) (IDENT "")
      (λ _, STATUS_SAT) [IDENT "c"]
      (mkCheckInitConsistency [sample_unit] FSM_CONSISTENCY_UNDECIDED) tt
    = Some (a', e, tt)
    ∧ f_status a' = FSM_CONSISTENCY_OK
    ∧ requests e
      = [assert_fsm_init 0 MAINGROUP; assert_fsm_invar 0 MAINGROUP;
         assert_formula 0 sample_unit MAINGROUP;
         assert_formula 0 sample_unit MAINGROUP; solve].
Proof.
  do 2 eexists. split; [reflexivity|].
  destruct (check_init_consistency_protocol unit
              (λ _ _ cs, Some (sample_unit, cs)) (IDENT "") (λ _, STATUS_SAT)
              [IDENT "c"]
              (mkCheckInitConsistency [sample_unit] FSM_CONSISTENCY_UNDECIDED)
              _ tt tt _ eq_refl) as (units & Hunits & _ & _ & He & Hstatus).
  split; [exact Hstatus|]. rewrite He. injection Hunits as <-. reflexivity.
Defined.

End CheckInitExamples.

(** ** The [reach] command *)

Section ReachCommandProps.
Import Reachability ReachCommand.

Variable okMessage errMessage wrnPrefix outPrefix : string.
Variable modules_size : nat.
Variable quiet : bool.
Variable bmc_process :
  Expr_ptr → list Expr_ptr → list Expr_ptr → list Expr_ptr
  → reachability_status_t * option (string * nat).

Abbreviation run :=
  (ReachCommand.run okMessage errMessage wrnPrefix outPrefix modules_size
     quiet bmc_process).

(** X25. The [reach] command answers with the ok message exactly when a
    target is set, a model is loaded, and the reachability algorithm, run
    on the target and on the three constraint lists in the order in which
    they were added, ends with the status REACHABLE; in every other case it
    answers with the error message (UNREACHABLE included).  Without a target
    or without a model it only writes a warning.  It never changes its
    target or its constraints, and only adds to the output. *)
Theorem reach_command_result (r : Reach) :
  okMessage ≠ errMessage →
  ((run r).1 = okMessage ↔
   ∃ target, f_target r = Some target ∧ modules_size ≠ 0%nat
     ∧ (bmc_process target (f_forward_constraints r)
          (f_backward_constraints r) (f_global_constraints r)).1
       = REACHABILITY_REACHABLE)
  ∧ ((run r).1 = okMessage ∨ (run r).1 = errMessage)
  ∧ (f_target r = None →
     run r = (errMessage,
              out [Text wrnPrefix; Text "No target given. Aborting..."; endl] r))
  ∧ (f_target r ≠ None → modules_size = 0%nat →
     run r = (errMessage,
              out [Text wrnPrefix; Text "Model not loaded."; endl] r))
  ∧ (∃ tokens, (run r).2 = out tokens r).
Proof.
  intros Hmsg. unfold ReachCommand.run, check_requirements.
  destruct (f_target r) as [target|] eqn:Htarget.
  2: { cbn [negb]. split_and!; try done.
       - split; [done|]. by intros (? & ? & _).
       - by right.
       - by eexists. }
  destruct (modules_size =? 0)%nat eqn:Hmod.
  { apply Nat.eqb_eq in Hmod. cbn [negb]. split_and!; try done.
    - split; [done|]. by intros (? & _ & ? & _).
    - by right.
    - by eexists. }
  apply Nat.eqb_neq in Hmod. cbn [negb]. rewrite Htarget.
  assert (Hout : ∀ ts1 ts2 r0, out ts2 (out ts1 r0) = out (ts1 ++ ts2) r0).
  { intros ts1 ts2 r0. unfold out. cbn. by rewrite <- app_assoc. }
  assert (Hid : r = out [] r).
  { unfold out. rewrite app_nil_r. by destruct r. }
  destruct (bmc_process target _ _ _) as [status witness] eqn:Hbmc.
  destruct status; cbn [fst snd].
  - split_and!; try done.
    + split; [done|]. intros (t & [= <-] & _ & Hst). rewrite Hbmc in Hst. done.
    + by right.
    + by eexists.
  - split_and!; try done.
    + split; [|done]. intros _. exists target. by rewrite Hbmc.
    + by left.
    + destruct quiet, witness as [[id size]|]; cbn [negb];
        rewrite ?Hout; by eexists.
  - split_and!; try done.
    + split; [done|]. intros (t & [= <-] & _ & Hst). rewrite Hbmc in Hst. done.
    + by right.
    + destruct quiet; cbn [negb]; rewrite ?Hout; by eexists.
  - split_and!; try done.
    + split; [done|]. intros (t & [= <-] & _ & Hst). rewrite Hbmc in Hst. done.
    + by right.
    + by eexists.
Qed.

End ReachCommandProps.

Section ReachCommandExamples.
Import Reachability ReachCommand.

(** X25 (witness): a reachable target with a witness of three steps. *)
Lemma reach_command_result_witness :
  let r := add_global_constraint (IDENT "g")
             (set_target (Some (IDENT "t")) new_Reach) in
  (ReachCommand.run "ok" "err" "warning: " "-- " 1 true
     (λ _ _ _ _, (REACHABILITY_REACHABLE, Some ("reach_0", 3%nat))) r).1
  = "ok".
Proof.
  intros r.
  destruct (reach_command_result "ok" "err" "warning: " "-- " 1 true
              (λ _ _ _ _, (REACHABILITY_REACHABLE, Some ("reach_0", 3%nat))) r)
    as ([_ Hok] & _).
  - discriminate.
  - apply Hok. exists (IDENT "t"). split_and!; [reflexivity|lia|reflexivity].
Defined.

End ReachCommandExamples.
